(** * void-template: a shallow embedding of [src/index.js]

    The module builds an in-memory tree of [Element]s and text and prints it as
    XHTML.  This development embeds the two classes of [src/index.js]
    ([Element] and [Document]) and proves or refutes the properties listed in
    the specification.

    Conventions.
    - A JavaScript string is its sequence of UTF-16 code units, a [list Z].
      Regular expressions with the [u] flag read it as code points
      ([codePoints]).
    - The per-object private state lives in the [shadowObjects] WeakMap; here
      it is the heap, a list of [Shadow] records indexed by the identity of
      the element (a [nat]).
    - Every method runs in the monad [M]: it reads and writes the heap and
      either returns, throws a [TypeError], or does not return.  A throw keeps
      the heap as it is at the moment of the throw, as in JavaScript. *)

From Stdlib Require Import ZArith Ascii String Sorted Permutation.
From stdpp Require Import base list.

Local Open Scope Z_scope.

(** ** Strings *)

Definition js_string := list Z.

(** Code units of an ASCII literal. *)
Definition js (s : string) : js_string :=
  map (fun a => Z.of_nat (nat_of_ascii a)) (list_ascii_of_string s).

Definition isHighSurrogate (u : Z) : bool := (0xD800 <=? u) && (u <=? 0xDBFF).
Definition isLowSurrogate (u : Z) : bool := (0xDC00 <=? u) && (u <=? 0xDFFF).

(** The code points a [u]-flag regular expression sees: a high surrogate
    followed by a low one is one supplementary code point, every other code
    unit (a lone surrogate too) stands for itself. *)
Fixpoint codePoints (s : js_string) : list Z :=
  match s with
  | [] => []
  | h :: t =>
      match t with
      | l :: t' =>
          if isHighSurrogate h && isLowSurrogate l
          then (0x10000 + (h - 0xD800) * 0x400 + (l - 0xDC00)) :: codePoints t'
          else h :: codePoints t
      | [] => [h]
      end
  end.

(** ** The two grammars *)

Definition inRange (lo hi c : Z) : bool := (lo <=? c) && (c <=? hi).

(** [[_A-Za-z]] *)
Definition nameStartChar (c : Z) : bool :=
  (c =? 0x5F) || inRange 0x41 0x5A c || inRange 0x61 0x7A c.

(** [[-_.A-Za-z0-9]] *)
Definition nameChar (c : Z) : bool :=
  (c =? 0x2D) || (c =? 0x5F) || (c =? 0x2E)
  || inRange 0x41 0x5A c || inRange 0x61 0x7A c || inRange 0x30 0x39 c.

(** S C* against a whole list (an NCName of ASCII letters). *)
Definition ncName (cs : list Z) : bool :=
  match cs with
  | [] => false
  | c :: rest => nameStartChar c && forallb nameChar rest
  end.

(** Splits at the first code point that is not a [nameChar]. *)
Fixpoint spanNameChars (cs : list Z) : list Z * list Z :=
  match cs with
  | [] => ([], [])
  | c :: rest =>
      if nameChar c
      then let '(a, b) := spanNameChars rest in (c :: a, b)
      else ([], cs)
  end.

(** [validateToken]: the anchored pattern  ^ S C* ( : S C* )? $  where S is
    the class [_A-Za-z] and C the class [-_.A-Za-z0-9].  The colon is not in
    C, so the first run of name characters ends either the string or at the
    one colon the optional group may take. *)
Definition validateToken (token : js_string) : bool :=
  match codePoints token with
  | [] => false
  | c :: rest =>
      nameStartChar c &&
      match spanNameChars rest with
      | (_, []) => true
      | (_, d :: local) => (d =? 0x3A) && ncName local
      end
  end.

(** The character class of [validateText], item by item as the source writes
    it: [\u{9}], [\u{a}], [\u{d}], [\u{20}-\u{d7ff}], [\u{e000}], [\u{fffd}],
    [\u{10000}-\u{10ffff}]. *)
Definition textChar (c : Z) : bool :=
  (c =? 0x9) || (c =? 0xA) || (c =? 0xD) || inRange 0x20 0xD7FF c
  || (c =? 0xE000) || (c =? 0xFFFD) || inRange 0x10000 0x10FFFF c.

(** [validateText]: the anchored star of that class, with the [u] flag. *)
Definition validateText (text : js_string) : bool :=
  forallb textChar (codePoints text).

(** The set the specification gives for the Text grammar. *)
Definition specTextChar (c : Z) : bool :=
  (c =? 0x9) || (c =? 0xA) || (c =? 0xD) || inRange 0x20 0xD7FF c
  || inRange 0xE000 0xFFFD c || inRange 0x10000 0x10FFFF c.

Definition specText (text : js_string) : Prop :=
  Forall (fun c => specTextChar c = true) (codePoints text).

(** ** Errors and outcomes *)

(** Every error of the source is a [TypeError]; the constructors are its
    messages.  The specification's names are given on the right. *)
Inductive TypeError : Type :=
| UnsafeTagName            (* 'Unsafe tag name'                 InvalidNameError *)
| InvalidTextData          (* 'Invalid text data'               InvalidTextError *)
| VoidElement              (* 'Void element'                    VoidElementError *)
| RawTextNoContents        (* 'Raw text elements should not have contents'
                                                                NotEscapableError *)
| AlreadyAChild            (* 'Already a child'                 AlreadyChildError *)
| RawTextNoElementChildren (* 'Raw text elements cannot have element children'
                                                                RawTextChildError *)
| CyclicReference          (* 'Cyclic reference'                CyclicReferenceError *)
| UnsafeAttributeName      (* 'Unsafe atttribute name'          InvalidNameError *)
| UnsafeAttributeValue.    (* 'Unsafe atttribute value'         InvalidTextError *)

(** What a call does: it returns, throws one of the errors of the source,
    runs forever ([Diverge], a walk through a cyclic chain of parents or
    children), or is handed an identity that no object has ([Stuck], which no
    JavaScript program can do).  Where the walk is a recursion, that of the
    getters through a cycle of children, a JavaScript engine stops it with a
    RangeError when its stack is full; that error is none of the source's and
    is [Diverge] here. *)
Inductive Outcome (A : Type) : Type :=
| Ret (a : A)
| Throw (e : TypeError)
| Diverge
| Stuck.
Arguments Ret {A} a.
Arguments Throw {A} e.
Arguments Diverge {A}.
Arguments Stuck {A}.

Definition obind {A B} (o : Outcome A) (k : A -> Outcome B) : Outcome B :=
  match o with
  | Ret a => k a
  | Throw e => Throw e
  | Diverge => Diverge
  | Stuck => Stuck
  end.

(** ** Escaping *)

(** [s.replace(/c/gu, r)] for a single BMP character [c]. *)
Definition replaceChar (c : Z) (r : js_string) (s : js_string) : js_string :=
  flat_map (fun u => if u =? c then r else [u]) s.

Definition AMP : js_string := Eval cbv in js "&amp;".
Definition LT : js_string := Eval cbv in js "&lt;".
Definition GT : js_string := Eval cbv in js "&gt;".
Definition APOS : js_string := Eval cbv in js "&apos;".
Definition QUOT : js_string := Eval cbv in js "&quot;".

(** The chain of five replacements of [escapeText], in the source's order. *)
Definition escapeChain (text : js_string) : js_string :=
  replaceChar 0x22 QUOT
    (replaceChar 0x27 APOS
      (replaceChar 0x3E GT
        (replaceChar 0x3C LT
          (replaceChar 0x26 AMP text)))).

Definition escapeText (text : js_string) : Outcome js_string :=
  if negb (validateText text) then Throw InvalidTextData
  else Ret (escapeChain text).

(** ** The heap of shadow objects *)

(** An entry of a children array: an Element (by identity) or a string. *)
Inductive Child : Type :=
| CElement (e : nat)
| CText (s : js_string).

(** The shadow object of an Element.  [children] is the array with its holes
    ([None]: a slot removed with [delete]); [parent] and [parentIndex] are
    [None] when the property is absent.  The [document] back-reference, which
    only [ownerDocument] reads, is left out. *)
Record Shadow : Type := mkShadow {
  attributes : list (js_string * js_string);
  children : list (option Child);
  realName : js_string;
  name : js_string;
  void : bool;
  raw : bool;
  escapable : bool;
  parent : option nat;
  parentIndex : option nat
}.

Definition with_children (cs : list (option Child)) (s : Shadow) : Shadow :=
  mkShadow (attributes s) cs (realName s) (name s) (void s) (raw s)
           (escapable s) (parent s) (parentIndex s).

Definition with_attributes (a : list (js_string * js_string)) (s : Shadow) : Shadow :=
  mkShadow a (children s) (realName s) (name s) (void s) (raw s)
           (escapable s) (parent s) (parentIndex s).

Definition with_parent (p i : option nat) (s : Shadow) : Shadow :=
  mkShadow (attributes s) (children s) (realName s) (name s) (void s) (raw s)
           (escapable s) p i.

Abbreviation Heap := (list Shadow).

(** ** The monad of methods *)

Definition M (A : Type) : Type := Heap -> Heap * Outcome A.

Definition ret {A} (a : A) : M A := fun h => (h, Ret a).
Definition throw {A} (e : TypeError) : M A := fun h => (h, Throw e).
Definition lift {A} (o : Outcome A) : M A := fun h => (h, o).

Definition bind {A B} (m : M A) (k : A -> M B) : M B := fun h =>
  match m h with
  | (h', Ret a) => k a h'
  | (h', Throw e) => (h', Throw e)
  | (h', Diverge) => (h', Diverge)
  | (h', Stuck) => (h', Stuck)
  end.

Declare Scope js_scope.
Delimit Scope js_scope with js_m.
Notation "'let*' x ':=' c 'in' k" := (bind c (fun x => k))
  (at level 10, x name, c at level 100, k at level 200) : js_scope.
Notation "c >> k" := (bind c (fun _ => k))
  (at level 90, right associativity) : js_scope.
Local Open Scope js_scope.

(** [getShadow (o)], for an object that has its shadow. *)
Definition getShadow (o : nat) : M Shadow := fun h =>
  match h !! o with
  | Some shadow => (h, Ret shadow)
  | None => (h, Stuck)
  end.

(** An assignment to (or [delete] of) properties of the shadow of [o]. *)
Definition modify (o : nat) (f : Shadow -> Shadow) : M unit := fun h =>
  match h !! o with
  | Some shadow => (<[o := f shadow]> h, Ret tt)
  | None => (h, Stuck)
  end.

(** The number of objects alive, plus one: no acyclic chain of parents or of
    children is that long. *)
Definition enoughFuel : M nat := fun h => (h, Ret (S (length h))).

Fixpoint forEach {A} (f : A -> M unit) (l : list A) : M unit :=
  match l with
  | [] => ret tt
  | x :: rest => f x >> forEach f rest
  end.

Fixpoint mapM {A B} (f : A -> M B) (l : list A) : M (list B) :=
  match l with
  | [] => ret []
  | x :: rest => let* y := f x in let* ys := mapM f rest in ret (y :: ys)
  end.

(** ** Element *)

Fixpoint str_eqb (a b : js_string) : bool :=
  match a, b with
  | [], [] => true
  | x :: a', y :: b' => (x =? y) && str_eqb a' b'
  | _, _ => false
  end.

(** [Array.prototype.includes] on an array of strings. *)
Definition includes (l : list js_string) (s : js_string) : bool :=
  existsb (str_eqb s) l.

Definition VOID_ELEMENTS : list js_string := Eval cbv in
  map js ["area"; "base"; "br"; "col"; "embed"; "hr"; "img"; "input"; "link";
          "meta"; "param"; "source"; "track"; "wbr"]%string.

Definition RAW_TEXT_ELEMENTS : list js_string := Eval cbv in
  map js ["script"; "style"]%string.

Definition ESCAPABLE_RAW_TEXT_ELEMENTS : list js_string := Eval cbv in
  map js ["textarea"; "title"]%string.

(** [toLowerCase] on the ASCII letters.  The constructor lower-cases a name
    only after [validateToken] accepted it, and such a name is ASCII. *)
Definition toLowerCase (s : js_string) : js_string :=
  map (fun c => if inRange 0x41 0x5A c then c + 0x20 else c) s.

(** The shadow that the constructor fills in for an accepted [tagName]. *)
Definition newShadow (tagName : js_string) : Shadow :=
  let lname := toLowerCase tagName in
  {| attributes := [];
     children := [];
     realName := tagName;
     name := lname;
     void := includes VOID_ELEMENTS lname;
     raw := includes RAW_TEXT_ELEMENTS lname
            || includes ESCAPABLE_RAW_TEXT_ELEMENTS lname;
     escapable := negb (includes RAW_TEXT_ELEMENTS lname);
     parent := None;
     parentIndex := None |}.

(** [new Element (tagName)], [tagName] already a string.  The object of a
    constructor that throws is never seen by anyone and is not allocated. *)
Definition newElement (tagName : js_string) : M nat := fun h =>
  if negb (validateToken tagName) then (h, Throw UnsafeTagName)
  else (h ++ [newShadow tagName], Ret (length h)).

(** [get parentElement]: [shadow.parent || null]. *)
Definition get_parentElement (o : nat) : M (option nat) :=
  let* shadow := getShadow o in ret (parent shadow).

(** The loop  do { if (current == child) throw ... } while (current =
    current.parentElement)  of [append]. *)
Fixpoint ancestorWalk (fuel : nat) (current child : nat) : M unit :=
  match fuel with
  | O => lift Diverge
  | S fuel' =>
      if Nat.eqb current child then throw CyclicReference
      else
        let* p := get_parentElement current in
        match p with
        | Some next => ancestorWalk fuel' next child
        | None => ret tt
        end
  end.

(** An argument of [append]: an Element, or anything else, given by the
    string [String (child)] that the method validates and stores. *)
Inductive Arg : Type :=
| AElement (e : nat)
| AText (s : js_string).

(** The body of the first loop of [append]. *)
Definition validateChild (this : nat) (child : Arg) : M unit :=
  match child with
  | AElement c =>
      let* p := get_parentElement c in
      match p with
      | Some _ => throw AlreadyAChild
      | None =>
          let* shadow := getShadow this in
          if raw shadow then throw RawTextNoElementChildren
          else let* fuel := enoughFuel in ancestorWalk fuel this c
      end
  | AText s =>
      if negb (validateText s) then throw InvalidTextData else ret tt
  end.

(** The body of the second loop of [append]; the result is what is pushed
    on [tmp].  [shadow.children.length] is read from the live array. *)
Definition attachChild (this : nat) (child : Arg) : M Child :=
  match child with
  | AElement c =>
      let* shadow := getShadow this in
      modify c (with_parent (Some this) (Some (length (children shadow)))) >>
      ret (CElement c)
  | AText s => ret (CText s)
  end.

Definition append (this : nat) (args : list Arg) : M unit :=
  let* shadow := getShadow this in
  if void shadow then throw VoidElement
  else if negb (escapable shadow) then throw RawTextNoContents
  else
    forEach (validateChild this) args >>
    let* tmp := mapM (attachChild this) args in
    modify this (fun s => with_children (children s ++ map Some tmp) s).

(** [delete a[i]]: a hole at an index the array has, nothing otherwise (the
    length never changes); [delete a[undefined]] does nothing. *)
Definition deleteSlot (i : option nat) (a : list (option Child)) : list (option Child) :=
  match i with
  | Some i => <[i := None]> a
  | None => a
  end.

Definition remove (this : nat) : M unit :=
  let* shadow := getShadow this in
  match parent shadow with
  | None => ret tt
  | Some p =>
      modify p (fun ps => with_children (deleteSlot (parentIndex shadow) (children ps)) ps) >>
      modify this (with_parent None None)
  end.

(** [get children]: the array without its holes. *)
Definition get_children (this : nat) : M (list Child) :=
  let* shadow := getShadow this in ret (omap id (children shadow)).

(** The loop of [clear].  The array iterator reads slot [i] of the live
    array at each step; [remove] never changes the length of an array, so the
    loop runs for the length the array had at the start ([n] slots left). *)
Fixpoint clearLoop (n : nat) (this : nat) (i : nat) : M unit :=
  match n with
  | O => ret tt
  | S n' =>
      let* shadow := getShadow this in
      match children shadow !! i with
      | Some (Some (CElement c)) => remove c >> clearLoop n' this (S i)
      | _ => clearLoop n' this (S i)
      end
  end.

Definition clear (this : nat) : M unit :=
  let* shadow := getShadow this in
  clearLoop (length (children shadow)) this 0 >>
  modify this (with_children []).

(** *** Attributes: an object without prototype, keys in insertion order *)

Fixpoint setProperty (k v : js_string) (o : list (js_string * js_string))
  : list (js_string * js_string) :=
  match o with
  | [] => [(k, v)]
  | (k', v') :: rest =>
      if str_eqb k' k then (k, v) :: rest else (k', v') :: setProperty k v rest
  end.

Fixpoint getProperty (k : js_string) (o : list (js_string * js_string))
  : option js_string :=
  match o with
  | [] => None
  | (k', v) :: rest => if str_eqb k' k then Some v else getProperty k rest
  end.

Definition deleteProperty (k : js_string) (o : list (js_string * js_string))
  : list (js_string * js_string) :=
  filter (fun kv => str_eqb kv.1 k = false) o.

Definition ownKeys (o : list (js_string * js_string)) : list js_string := map fst o.

Definition setAttribute (this : nat) (aname value : js_string) : M unit :=
  let* shadow := getShadow this in
  if negb (validateToken aname) then throw UnsafeAttributeName
  else if negb (validateText value) then throw UnsafeAttributeValue
  else modify this (fun s => with_attributes (setProperty aname value (attributes s)) s).

Definition getAttribute (this : nat) (aname : js_string) : M (option js_string) :=
  let* shadow := getShadow this in ret (getProperty aname (attributes shadow)).

Definition hasAttribute (this : nat) (aname : js_string) : M bool :=
  let* shadow := getShadow this in
  ret (existsb (str_eqb aname) (ownKeys (attributes shadow))).

Definition removeAttribute (this : nat) (aname : js_string) : M unit :=
  modify this (fun s => with_attributes (deleteProperty aname (attributes s)) s).

(** *** Serialization *)

(** [a < b] on strings: by code units, the first difference decides. *)
Fixpoint str_ltb (a b : js_string) : bool :=
  match a, b with
  | _, [] => false
  | [], _ :: _ => true
  | x :: a', y :: b' => (x <? y) || ((x =? y) && str_ltb a' b')
  end.

Fixpoint insertKey (k : js_string) (l : list js_string) : list js_string :=
  match l with
  | [] => [k]
  | k' :: rest => if str_ltb k' k then k' :: insertKey k rest else k :: l
  end.

(** [Array.prototype.sort ()] with the default comparison, on strings. *)
Definition sortKeys (l : list js_string) : list js_string :=
  foldr insertKey [] l.

Definition TAB : js_string := [0x9].

(** The loop over [keys] in [get outerHTML]. *)
Fixpoint serializeAttributes (o : list (js_string * js_string)) (keys : list js_string)
  : Outcome js_string :=
  match keys with
  | [] => Ret []
  | k :: rest =>
      match getProperty k o with
      | None => Stuck
      | Some v =>
          obind (escapeText v) (fun e =>
          obind (serializeAttributes o rest) (fun r =>
          Ret (TAB ++ k ++ js "='" ++ e ++ js "'" ++ r)))
      end
  end.

(** The loop shared by [get innerHTML] and [get innerText]: holes are
    skipped, a string is escaped, an Element contributes [elem] of it. *)
Fixpoint concatChildren (elem : nat -> Outcome js_string)
    (cs : list (option Child)) : Outcome js_string :=
  match cs with
  | [] => Ret []
  | None :: rest => concatChildren elem rest
  | Some (CElement c) :: rest =>
      obind (elem c) (fun a =>
      obind (concatChildren elem rest) (fun b => Ret (a ++ b)))
  | Some (CText s) :: rest =>
      obind (escapeText s) (fun a =>
      obind (concatChildren elem rest) (fun b => Ret (a ++ b)))
  end.

(** [get outerHTML] (and [toString]); [fuel] bounds the depth of the
    recursion through [get innerHTML].  [Diverge] at every [fuel] is a
    recursion without end, through a cycle of children: in a JavaScript
    engine it ends in a RangeError. *)
Fixpoint outerHTML_fuel (fuel : nat) (h : Heap) (this : nat) : Outcome js_string :=
  match fuel with
  | O => Diverge
  | S fuel' =>
      match h !! this with
      | None => Stuck
      | Some shadow =>
          obind (serializeAttributes (attributes shadow)
                   (sortKeys (ownKeys (attributes shadow)))) (fun attrs =>
          if void shadow
          then Ret (js "<" ++ realName shadow ++ attrs ++ js "/>")
          else
            obind (concatChildren (outerHTML_fuel fuel' h) (children shadow))
              (fun inner =>
            Ret (js "<" ++ realName shadow ++ attrs ++ js ">" ++ inner
                 ++ js "</" ++ realName shadow ++ js ">")))
      end
  end.

(** The getters, with one level more than there are objects: in a heap that
    a program can reach these levels are enough whenever any number is. *)
Definition get_outerHTML (h : Heap) (this : nat) : Outcome js_string :=
  outerHTML_fuel (S (length h)) h this.

Definition get_innerHTML (h : Heap) (this : nat) : Outcome js_string :=
  match h !! this with
  | None => Stuck
  | Some shadow => concatChildren (outerHTML_fuel (length h) h) (children shadow)
  end.

(** [get innerText]; [fuel] bounds the depth of the recursion, and
    [Diverge] at every [fuel] is again a recursion through a cycle of
    children, which a JavaScript engine ends with a RangeError. *)
Fixpoint innerText_fuel (fuel : nat) (h : Heap) (this : nat) : Outcome js_string :=
  match fuel with
  | O => Diverge
  | S fuel' =>
      match h !! this with
      | None => Stuck
      | Some shadow => concatChildren (innerText_fuel fuel' h) (children shadow)
      end
  end.

Definition get_innerText (h : Heap) (this : nat) : Outcome js_string :=
  innerText_fuel (S (length h)) h this.

(** [set innerText]: [aText] already a string. *)
Definition set_innerText (this : nat) (text : js_string) : M unit :=
  clear this >> append this [AText text].

(** ** Document *)

Module Document.

(** The shadow of a Document: the five Elements of its skeleton. *)
Record t : Type := mk {
  html : nat;
  head : nat;
  body : nat;
  charset : nat;
  title : nat
}.

Definition createElement (tagName : js_string) : M nat := newElement tagName.

Definition XHTML_NS : js_string := Eval cbv in js "http://www.w3.org/1999/xhtml".
Definition XLINK_NS : js_string := Eval cbv in js "http://www.w3.org/1999/xlink".

(** [new Document ()]. *)
Definition new : M t :=
  let* html := createElement (js "html") in
  setAttribute html (js "xmlns") XHTML_NS >>
  setAttribute html (js "xmlns:xlink") XLINK_NS >>
  let* head := createElement (js "head") in
  append html [AElement head] >>
  let* body := createElement (js "body") in
  append html [AElement body] >>
  let* charset := createElement (js "meta") in
  setAttribute charset (js "charset") (js "UTF-8") >>
  append head [AElement charset] >>
  let* title := createElement (js "title") in
  append head [AElement title] >>
  ret (mk html head body charset title).

Definition get_title (d : t) : M js_string := fun h =>
  (h, get_innerText h (title d)).

Definition set_title (d : t) (aTitle : js_string) : M unit :=
  set_innerText (title d) aTitle.

Definition DOCTYPE : js_string := Eval cbv in js "<!DOCTYPE" ++ [0x9] ++ js "html>".

Definition toString (d : t) (h : Heap) : Outcome js_string :=
  obind (get_outerHTML h (html d)) (fun s => Ret (DOCTYPE ++ s)).

End Document.

(** ** The specification's side of the escaping round trip *)

(** What one code unit becomes under [escapeChain] when nothing is escaped
    twice. *)
Definition escapeUnit (c : Z) : js_string :=
  if c =? 0x26 then AMP
  else if c =? 0x3C then LT
  else if c =? 0x3E then GT
  else if c =? 0x27 then APOS
  else if c =? 0x22 then QUOT
  else [c].

Fixpoint isPrefix (p s : js_string) : bool :=
  match p, s with
  | [], _ => true
  | _ :: _, [] => false
  | x :: p', y :: s' => (x =? y) && isPrefix p' s'
  end.

(** Replaces, from left to right, every occurrence of the non-empty string
    [pat] by [rep]; [skip] counts the code units of a match still to pass. *)
Fixpoint replaceAllFrom (skip : nat) (pat rep s : js_string) : js_string :=
  match s with
  | [] => []
  | c :: rest =>
      match skip with
      | S k => replaceAllFrom k pat rep rest
      | O =>
          if isPrefix pat s
          then rep ++ replaceAllFrom (length pat - 1) pat rep rest
          else c :: replaceAllFrom 0 pat rep rest
      end
  end.

Definition replaceAll (pat rep s : js_string) : js_string :=
  replaceAllFrom 0 pat rep s.

(** The specification's [unescape], which the source does not have: the five
    substitutions of [escapeText] undone, the last one first, so that the
    ampersand comes last. *)
Definition spec_unescape (s : js_string) : js_string :=
  replaceAll AMP [0x26]
    (replaceAll LT [0x3C]
      (replaceAll GT [0x3E]
        (replaceAll APOS [0x27]
          (replaceAll QUOT [0x22] s)))).

(** The escaping in which only the code units of [set] are escaped: the
    stages that [spec_unescape] passes through on its way back. *)
Definition escapeIn (set : list Z) (c : Z) : js_string :=
  if existsb (Z.eqb c) set then escapeUnit c else [c].

(** ** Two properties of a computation *)

(** It leaves the heap as it found it, whatever its outcome. *)
Definition readOnly {A} (m : M A) : Prop := forall h, (m h).1 = h.

(** It never throws. *)
Definition neverThrows {A} (m : M A) : Prop := forall h e, (m h).2 <> Throw e.

(** Every error it throws is one of [errs]. *)
Definition throwsOnly {A} (errs : list TypeError) (m : M A) : Prop :=
  forall h e, (m h).2 = Throw e -> In e errs.

(** ** Sample programs *)

(** [p = new Element ('div'); e = new Element ('span'); p.append (e)]:
    [p] is object 0 and [e] object 1. *)
Definition heap_div_span : Heap := Eval vm_compute in
  ((let* p := newElement (js "div") in
    let* e := newElement (js "span") in
    append p [AElement e]) []).1.

(** [p = new Element ('div'); a = new Element ('span'); b = new Element ('em');
    p.append (a, b)]: objects 0, 1 and 2. *)
Definition heap_two_at_once : Heap := Eval vm_compute in
  ((let* p := newElement (js "div") in
    let* a := newElement (js "span") in
    let* b := newElement (js "em") in
    append p [AElement a; AElement b]) []).1.

(** [p = new Element ('div'); a = new Element ('a'); b = new Element ('b');
    x = new Element ('i'); p.append (a, b); b.remove (); p.append (x, b)]:
    objects 0 to 3. *)
Definition heap_reappended : Heap := Eval vm_compute in
  ((let* p := newElement (js "div") in
    let* a := newElement (js "a") in
    let* b := newElement (js "b") in
    let* x := newElement (js "i") in
    append p [AElement a; AElement b] >>
    remove b >>
    append p [AElement x; AElement b]) []).1.

(** ** Ancestors *)

(** [onAncestorChain h a e]: [a] is [e] or an ancestor of [e], that is, [a]
    lies on the chain of parents that starts at [e]. *)
Inductive onAncestorChain (h : Heap) : nat -> nat -> Prop :=
| chain_self e shadow :
    h !! e = Some shadow -> onAncestorChain h e e
| chain_up a e shadow p :
    h !! e = Some shadow -> parent shadow = Some p ->
    onAncestorChain h a p -> onAncestorChain h a e.

(** [walkSteps h child current k o]: the loop of [append] that looks for
    [child] from [current] upwards ends in its [k]-th round, with outcome
    [o]. *)
Inductive walkSteps (h : Heap) (child : nat) : nat -> nat -> Outcome unit -> Prop :=
| ws_found c :
    c = child -> walkSteps h child c 1 (Throw CyclicReference)
| ws_stuck c :
    c <> child -> h !! c = None -> walkSteps h child c 1 Stuck
| ws_root c shadow :
    c <> child -> h !! c = Some shadow -> parent shadow = None ->
    walkSteps h child c 1 (Ret tt)
| ws_up c shadow p k o :
    c <> child -> h !! c = Some shadow -> parent shadow = Some p ->
    walkSteps h child p k o -> walkSteps h child c (S k) o.

(** ** Programs and the states they reach *)

(** What a caller can do to the heap: the constructors and the mutating
    methods of the two classes. *)
Inductive Op : Type :=
| OpNewElement (tagName : js_string)
| OpAppend (this : nat) (args : list Arg)
| OpRemove (this : nat)
| OpClear (this : nat)
| OpSetAttribute (this : nat) (aname value : js_string)
| OpRemoveAttribute (this : nat) (aname : js_string)
| OpSetInnerText (this : nat) (text : js_string)
| OpNewDocument
| OpSetTitle (d : Document.t) (aTitle : js_string).

(** The heap an operation leaves, whether it returned or threw. *)
Definition exec (op : Op) (h : Heap) : Heap :=
  match op with
  | OpNewElement tagName => (newElement tagName h).1
  | OpAppend this args => (append this args h).1
  | OpRemove this => (remove this h).1
  | OpClear this => (clear this h).1
  | OpSetAttribute this aname value => (setAttribute this aname value h).1
  | OpRemoveAttribute this aname => (removeAttribute this aname h).1
  | OpSetInnerText this text => (set_innerText this text h).1
  | OpNewDocument => (Document.new h).1
  | OpSetTitle d aTitle => (Document.set_title d aTitle h).1
  end.

(** The heaps of a program that starts with no object. *)
Inductive Reachable : Heap -> Prop :=
| reach_init : Reachable []
| reach_step h op : Reachable h -> Reachable (exec op h).

(** The properties of an Element that its constructor fixes. *)
Definition static (s : Shadow) : js_string * js_string * bool * bool * bool :=
  (realName s, name s, void s, raw s, escapable s).

Definition isElementEntry (c : option Child) : bool :=
  match c with
  | Some (CElement _) => true
  | _ => false
  end.

Definition execAll (ops : list Op) (h : Heap) : Heap :=
  foldl (fun h op => exec op h) h ops.

(** The invariants of the data model that hold of every shadow of a
    reachable heap. *)
Record wf_shadow (s : Shadow) : Prop := mk_wf {
  wf_token : validateToken (realName s) = true;
  wf_name : name s = toLowerCase (realName s);
  wf_void : void s = includes VOID_ELEMENTS (name s);
  wf_raw : raw s = includes RAW_TEXT_ELEMENTS (name s)
                   || includes ESCAPABLE_RAW_TEXT_ELEMENTS (name s);
  wf_escapable : escapable s = negb (includes RAW_TEXT_ELEMENTS (name s));
  wf_void_children : void s = true -> children s = [];
  wf_raw_children :
    raw s = true -> Forall (fun c => isElementEntry c = false) (children s);
  wf_attribute_keys : NoDup (ownKeys (attributes s));
  wf_attribute_values :
    Forall (fun kv => validateToken kv.1 = true /\ validateText kv.2 = true)
           (attributes s)
}.

(** [evolves h h']: [h'] keeps every object of [h] with its static
    properties, keeps it well formed if it was, and has only well-formed
    objects besides. *)
Definition evolves (h h' : Heap) : Prop :=
  (length h <= length h')%nat
  /\ forall o s', h' !! o = Some s' ->
       match h !! o with
       | Some s => static s' = static s /\ (wf_shadow s -> wf_shadow s')
       | None => wf_shadow s'
       end.

Definition sound {A} (m : M A) : Prop := forall h, evolves h (m h).1.

(** What the second loop of [append] pushes for an argument. *)
Definition argChild (a : Arg) : Child :=
  match a with
  | AElement e => CElement e
  | AText s => CText s
  end.

(** [d = new Document ()] in a fresh program: [html], [head], [body], the
    [meta] and the [title] are objects 0 to 4. *)
Definition heap_document : Heap := Eval vm_compute in (Document.new []).1.

Definition the_document : Document.t := Document.mk 0 1 2 3 4.

(** ** The format of [outerHTML] *)

(** One attribute as [get outerHTML] prints it: a tab, the name, the
    escaped value between single quotes. *)
Definition renderAttribute (kv : js_string * js_string) : js_string :=
  TAB ++ kv.1 ++ js "='" ++ escapeChain kv.2 ++ js "'".

(** [a] comes before [b] in code-point order. *)
Definition codePointLt (a b : js_string) : Prop :=
  str_ltb (codePoints a) (codePoints b) = true.

(** [a] does not come after [b] in the order of [Array.prototype.sort]. *)
Definition sortLe (a b : js_string) : Prop := str_ltb b a = false.

(** ** The markup of a new Document *)

(** The number of places of [s] at which [pat] begins. *)
Fixpoint countOccurrences (pat s : js_string) : nat :=
  match s with
  | [] => 0
  | _ :: rest => (if isPrefix pat s then 1 else 0) + countOccurrences pat rest
  end.

(** The five shadows [new Document ()] leaves when it starts with [n]
    objects alive: [html], [head], [body], the [meta] and the [title]. *)
Definition documentShadows (n : nat) : list Shadow :=
  [ with_children [Some (CElement (n + 1)); Some (CElement (n + 2))]
      (with_attributes [(js "xmlns", Document.XHTML_NS);
                        (js "xmlns:xlink", Document.XLINK_NS)]
         (newShadow (js "html")));
    with_parent (Some n) (Some 0%nat)
      (with_children [Some (CElement (n + 3)); Some (CElement (n + 4))]
         (newShadow (js "head")));
    with_parent (Some n) (Some 1%nat) (newShadow (js "body"));
    with_parent (Some (n + 1)%nat) (Some 0%nat)
      (with_attributes [(js "charset", js "UTF-8")] (newShadow (js "meta")));
    with_parent (Some (n + 1)%nat) (Some 1%nat) (newShadow (js "title")) ].

(** [recordedAt this i h c]: in [h], the Element [c] names [this] as its
    parent and [i] as its position. *)
Definition recordedAt (this i : nat) (h : Heap) (c : nat) : Prop :=
  exists sc, h !! c = Some sc /\ parent sc = Some this /\ parentIndex sc = Some i.

(** The same three Elements before the [append]. *)
Definition heap_three_apart : Heap := Eval vm_compute in
  ((newElement (js "div") >> newElement (js "span") >> newElement (js "em")) []).1.

(** [p = new Element ('div'); e = new Element ('span')], not yet attached. *)
Definition heap_two_apart : Heap := Eval vm_compute in
  ((newElement (js "div") >> newElement (js "span")) []).1.

(** ** What [remove] and [clear] may do *)

(** [a'] is the array [a] with some of its slots turned into holes. *)
Definition holesOf (a a' : list (option Child)) : Prop :=
  length a' = length a /\ forall i, a' !! i = a !! i \/ a' !! i = Some None.

(** [detaches E h h']: from [h] to [h'] no object appears or disappears;
    attributes and static properties stay; children arrays only get holes;
    and an Element either keeps its parent link or loses it, the latter only
    if the array [E] lists it. *)
Definition detaches (E : list (option Child)) (h h' : Heap) : Prop :=
  length h' = length h
  /\ forall o so, h !! o = Some so ->
       exists so',
         h' !! o = Some so'
         /\ attributes so' = attributes so /\ static so' = static so
         /\ holesOf (children so) (children so')
         /\ ((parent so' = parent so /\ parentIndex so' = parentIndex so)
             \/ (parent so' = None /\ parentIndex so' = None
                 /\ In (Some (CElement o)) E)).

(** ** More invariants of the heap *)

(** A slot of a children array holds no invalid text. *)
Definition textEntry (c : option Child) : bool :=
  match c with
  | Some (CText t) => validateText t
  | _ => true
  end.

(** [depth h o n]: the chain of parents that starts at [o] ends, after [n]
    steps, at an Element without parent. *)
Inductive depth (h : Heap) : nat -> nat -> Prop :=
| depth_root o s :
    h !! o = Some s -> parent s = None -> depth h o 0
| depth_up o s p n :
    h !! o = Some s -> parent s = Some p -> depth h p n -> depth h o (S n).

(** The text stored in children arrays is valid; a script or style element
    has an empty children array; the Elements that children arrays list are
    alive; every chain of parents ends. *)
Record tidy (h : Heap) : Prop := mk_tidy {
  tidy_text : forall o s,
    h !! o = Some s -> Forall (fun c => textEntry c = true) (children s);
  tidy_rawtext : forall o s,
    h !! o = Some s -> escapable s = false -> children s = [];
  tidy_children : forall o s c,
    h !! o = Some s -> In (Some (CElement c)) (children s) -> (c < length h)%nat;
  tidy_depth : forall o s, h !! o = Some s -> exists n, depth h o n
}.

(** [loosens h h']: the objects are the same, with their static properties;
    a children array has at most got holes, or has been emptied; a parent
    link is kept or cleared. *)
Definition loosens (h h' : Heap) : Prop :=
  length h' = length h
  /\ forall o so, h !! o = Some so ->
       exists so',
         h' !! o = Some so' /\ static so' = static so
         /\ (holesOf (children so) (children so') \/ children so' = [])
         /\ (parent so' = parent so \/ parent so' = None).

Definition keeps {A} (m : M A) : Prop := forall h, tidy h -> tidy (m h).1.

(** ** [tagName] and [ownerDocument] *)

(** [toUpperCase] on the ASCII letters: [realName] passed [validateToken] in
    the constructor, and such a name is ASCII. *)
Definition toUpperCase (s : js_string) : js_string :=
  map (fun c => if inRange 0x61 0x7A c then c - 0x20 else c) s.

(** [get tagName]. *)
Definition get_tagName (this : nat) : M js_string :=
  let* shadow := getShadow this in ret (toUpperCase (realName shadow)).

Section OwnerDocument.

(** The [document] property of the shadows, [None] where it is not set.  No
    method of [Element] writes it; the constructor of [Document] sets it,
    once, on the shadow of its 'html' element. *)
Variable document : nat -> option Document.t.

(** [get ownerDocument]: that of the parent if there is one, else
    [shadow.document || null]; [fuel] bounds the recursion. *)
Fixpoint ownerDocument_fuel (fuel : nat) (h : Heap) (this : nat)
  : Outcome (option Document.t) :=
  match fuel with
  | O => Diverge
  | S fuel' =>
      match h !! this with
      | None => Stuck
      | Some shadow =>
          match parent shadow with
          | Some p => ownerDocument_fuel fuel' h p
          | None => Ret (document this)
          end
      end
  end.

Definition get_ownerDocument (h : Heap) (this : nat) : Outcome (option Document.t) :=
  ownerDocument_fuel (S (length h)) h this.

(** [htmlShadow.document = this] in the constructor of the Document [d]. *)
Definition setDocument (d : Document.t) : nat -> option Document.t :=
  fun o => if Nat.eqb o (Document.html d) then Some d else document o.

End OwnerDocument.

(** ** Elements that differ in the order of their attributes only *)

(** [s2] has the attributes of [s1], with the same values, in some order,
    and is otherwise the same as far as serialization looks. *)
Definition sameElement (s1 s2 : Shadow) : Prop :=
  (forall k, getProperty k (attributes s1) = getProperty k (attributes s2))
  /\ Permutation (ownKeys (attributes s1)) (ownKeys (attributes s2))
  /\ NoDup (ownKeys (attributes s1))
  /\ children s2 = children s1 /\ realName s2 = realName s1 /\ void s2 = void s1.

(** ** How deep the Elements nest *)

(** [shallowb n h o]: below the Element [o] the Elements nest less than [n]
    deep, so that the recursion of [get outerHTML] or [get innerText] ends
    within [n] levels: [o] exists and every Element that its children array
    lists is shallow for the level below. *)
Fixpoint shallowb (n : nat) (h : Heap) (o : nat) : bool :=
  match n with
  | O => false
  | S n' =>
      match h !! o with
      | None => false
      | Some s =>
          forallb (fun c => match c with
                            | Some (CElement e) => shallowb n' h e
                            | _ => true
                            end) (children s)
      end
  end.

(** [p = new Element ('div'); a = new Element ('a'); b = new Element ('b');
    p.append (a, b); b.remove (); b.append (p)]: objects 0 to 2.  [b] took
    the recorded position of [a], so [b.remove ()] left [b] in the children
    of [p]; now [b] lists [p] and [p] lists [b]. *)
Definition cycle_program : list Op :=
  [OpNewElement (js "div"); OpNewElement (js "a"); OpNewElement (js "b");
   OpAppend 0 [AElement 1; AElement 2]; OpRemove 2; OpAppend 2 [AElement 0]].

Definition heap_cycle : Heap := Eval vm_compute in execAll cycle_program [].

(** * Properties *)

(** ** The Text grammar *)

Lemma inRange_spec lo hi c : inRange lo hi c = true <-> lo <= c <= hi.
Proof. unfold inRange. rewrite andb_true_iff, !Z.leb_le. tauto. Qed.

(** The set [validateText] accepts, code point by code point. *)
Lemma textChar_spec c :
  textChar c = true <->
  c = 0x9 \/ c = 0xA \/ c = 0xD \/ 0x20 <= c <= 0xD7FF
  \/ c = 0xE000 \/ c = 0xFFFD \/ 0x10000 <= c <= 0x10FFFF.
Proof.
  unfold textChar. rewrite !orb_true_iff, !inRange_spec, !Z.eqb_eq. tauto.
Qed.

Lemma specTextChar_spec c :
  specTextChar c = true <->
  c = 0x9 \/ c = 0xA \/ c = 0xD \/ 0x20 <= c <= 0xD7FF
  \/ 0xE000 <= c <= 0xFFFD \/ 0x10000 <= c <= 0x10FFFF.
Proof.
  unfold specTextChar. rewrite !orb_true_iff, !inRange_spec, !Z.eqb_eq. tauto.
Qed.

Lemma validateText_spec s :
  validateText s = true <-> Forall (fun c => textChar c = true) (codePoints s).
Proof.
  unfold validateText. rewrite forallb_forall, Forall_forall.
  split; intros H x Hx; apply H; by apply list_elem_of_In.
Qed.

(** Whatever [validateText] accepts is in the specification's set. *)
Lemma validateText_specText s : validateText s = true -> specText s.
Proof.
  rewrite validateText_spec. unfold specText. intros H.
  eapply Forall_impl; [exact H|].
  intros c. rewrite textChar_spec, specTextChar_spec. lia.
Qed.

(** A single BMP code unit outside the surrogates is its own code point. *)
Lemma codePoints_singleton c : codePoints [c] = [c].
Proof. reflexivity. Qed.

(** The code points strictly between U+E000 and U+FFFD are in the
    specification's set and are rejected by [validateText]. *)
Lemma validateText_private_use_gap c :
  0xE000 < c < 0xFFFD -> specText [c] /\ validateText [c] = false.
Proof.
  intros Hc. split.
  - unfold specText. rewrite codePoints_singleton. constructor; [|constructor].
    apply specTextChar_spec. lia.
  - destruct (validateText [c]) eqn:E; [|done].
    apply validateText_spec in E. rewrite codePoints_singleton in E.
    inversion E as [|? ? Hh _]; subst. apply textChar_spec in Hh. lia.
Qed.

(** C2 (a defect of the source).  [validateText] accepts a string exactly
    when each of its code points is U+0009, U+000A, U+000D, in U+0020-U+D7FF,
    U+E000, U+FFFD, or in U+10000-U+10FFFF: the class of the source lists
    U+E000 and U+FFFD as two single characters instead of the range between
    them.  So every code point strictly between the two, U+E001 for one, is
    in the Text grammar of the specification and is rejected by
    [validateText].  The two end points and the empty string are accepted. *)
Theorem C2_validateText_rejects_U_E001 :
  (forall s,
     validateText s = true <->
     Forall (fun c => c = 0x9 \/ c = 0xA \/ c = 0xD \/ 0x20 <= c <= 0xD7FF
                      \/ c = 0xE000 \/ c = 0xFFFD \/ 0x10000 <= c <= 0x10FFFF)
            (codePoints s))
  /\ (forall c, 0xE000 < c < 0xFFFD -> specText [c] /\ validateText [c] = false)
  /\ specText [0xE001] /\ validateText [0xE001] = false
  /\ validateText [0xE000] = true /\ validateText [0xFFFD] = true
  /\ validateText [] = true.
Proof.
  split; [|split; [apply validateText_private_use_gap|]].
  - intros s. rewrite validateText_spec. apply Forall_proper; [|done].
    intros c. apply textChar_spec.
  - split; [|split; [|by vm_compute]].
    + apply (validateText_private_use_gap 0xE001). lia.
    + apply (validateText_private_use_gap 0xE001). lia.
Qed.

(** C2 at U+FF01, the fullwidth exclamation mark. *)
Lemma C2_validateText_rejects_U_E001_witness :
  specText [0xFF01] /\ validateText [0xFF01] = false.
Proof.
  apply (proj1 (proj2 C2_validateText_rejects_U_E001) 0xFF01). lia.
Defined.

(** ** Escaping *)

Lemma replaceChar_app c r a b :
  replaceChar c r (a ++ b) = replaceChar c r a ++ replaceChar c r b.
Proof. unfold replaceChar. apply flat_map_app. Qed.

Lemma replaceChar_cons c r u s :
  replaceChar c r (u :: s) = (if u =? c then r else [u]) ++ replaceChar c r s.
Proof. reflexivity. Qed.

Lemma replaceChar_other c r u : u <> c -> replaceChar c r [u] = [u].
Proof. intros H. cbn. by rewrite (proj2 (Z.eqb_neq u c) H). Qed.

Ltac eqb_cases c :=
  destruct (Z.eqb_spec c 0x26) as [->|?];
  [|destruct (Z.eqb_spec c 0x3C) as [->|?];
    [|destruct (Z.eqb_spec c 0x3E) as [->|?];
      [|destruct (Z.eqb_spec c 0x27) as [->|?];
        [|destruct (Z.eqb_spec c 0x22) as [->|?]]]]].

(** No double escaping: the chain of five replacements escapes every code
    unit of its input exactly once. *)
Lemma escapeChain_flat_map s : escapeChain s = flat_map escapeUnit s.
Proof.
  induction s as [|c s IH]; [reflexivity|].
  unfold escapeChain in *. simpl flat_map. rewrite <- IH.
  rewrite (replaceChar_cons 0x26), !replaceChar_app. f_equal.
  unfold escapeUnit. eqb_cases c; try reflexivity.
  by rewrite !replaceChar_other.
Qed.

Lemma escapeIn_all s :
  flat_map escapeUnit s = flat_map (escapeIn [0x26; 0x3C; 0x3E; 0x27; 0x22]) s.
Proof.
  apply flat_map_ext. intros c. unfold escapeIn, escapeUnit. cbn [existsb].
  eqb_cases c; reflexivity.
Qed.

Lemma escapeIn_none s : flat_map (escapeIn []) s = s.
Proof. induction s as [|c s IH]; [done|]. cbn. by rewrite IH. Qed.

Lemma replaceAllFrom_pass c pat rep t :
  isPrefix pat (c :: t) = false ->
  replaceAllFrom 0 pat rep (c :: t) = c :: replaceAllFrom 0 pat rep t.
Proof. intros H. cbn [replaceAllFrom]. by rewrite H. Qed.

Lemma isPrefix_head_ne x p c t : c <> x -> isPrefix (x :: p) (c :: t) = false.
Proof.
  intros H. cbn. destruct (Z.eqb_spec x c); [congruence|done].
Qed.

(** One stage of [spec_unescape]: on a string in which the units of
    [c :: set] are escaped and no other ampersand occurs, replacing the entity
    of [c] by [c] leaves the string in which the units of [set] are escaped. *)
Ltac unescape_stage s :=
  unfold replaceAll;
  induction s as [|c s IH]; [reflexivity|];
  cbn [flat_map];
  match goal with
  | |- replaceAllFrom 0 _ _ (_ ++ ?t) = _ ++ ?t' =>
      rewrite <- IH; clear IH; generalize t; intros u
  end;
  unfold escapeIn, escapeUnit; cbn [existsb];
  eqb_cases c; try (cbn; reflexivity);
  cbn [orb app];
  rewrite replaceAllFrom_pass; [reflexivity|];
  apply isPrefix_head_ne; assumption.

Lemma unescape_stage_quot s :
  replaceAll QUOT [0x22] (flat_map (escapeIn [0x26; 0x3C; 0x3E; 0x27; 0x22]) s)
  = flat_map (escapeIn [0x26; 0x3C; 0x3E; 0x27]) s.
Proof. unescape_stage s. Qed.

Lemma unescape_stage_apos s :
  replaceAll APOS [0x27] (flat_map (escapeIn [0x26; 0x3C; 0x3E; 0x27]) s)
  = flat_map (escapeIn [0x26; 0x3C; 0x3E]) s.
Proof. unescape_stage s. Qed.

Lemma unescape_stage_gt s :
  replaceAll GT [0x3E] (flat_map (escapeIn [0x26; 0x3C; 0x3E]) s)
  = flat_map (escapeIn [0x26; 0x3C]) s.
Proof. unescape_stage s. Qed.

Lemma unescape_stage_lt s :
  replaceAll LT [0x3C] (flat_map (escapeIn [0x26; 0x3C]) s)
  = flat_map (escapeIn [0x26]) s.
Proof. unescape_stage s. Qed.

Lemma unescape_stage_amp s :
  replaceAll AMP [0x26] (flat_map (escapeIn [0x26]) s)
  = flat_map (escapeIn []) s.
Proof. unescape_stage s. Qed.

(** The round trip holds for the chain of replacements on every string. *)
Lemma spec_unescape_escapeChain s : spec_unescape (escapeChain s) = s.
Proof.
  unfold spec_unescape.
  rewrite escapeChain_flat_map, escapeIn_all, unescape_stage_quot,
    unescape_stage_apos, unescape_stage_gt, unescape_stage_lt,
    unescape_stage_amp.
  apply escapeIn_none.
Qed.

Lemma escapeText_valid s : validateText s = true -> escapeText s = Ret (escapeChain s).
Proof. intros H. unfold escapeText. by rewrite H. Qed.

Lemma escapeText_Ret s e : escapeText s = Ret e -> validateText s = true /\ e = escapeChain s.
Proof.
  unfold escapeText. destruct (validateText s); cbn; [|done].
  intros [= <-]. done.
Qed.

(** The strings of the specification's Text grammar that [validateText]
    accepts are those without a code point strictly between U+E000 and
    U+FFFD. *)
Lemma specText_validateText s :
  specText s ->
  validateText s = true
  <-> Forall (fun c => ~ (0xE000 < c < 0xFFFD)) (codePoints s).
Proof.
  unfold specText. rewrite validateText_spec, !Forall_forall. intros Hs. split.
  - intros H c Hc. specialize (H c Hc). apply textChar_spec in H. lia.
  - intros H c Hc. specialize (H c Hc). specialize (Hs c Hc).
    apply specTextChar_spec in Hs. apply textChar_spec. lia.
Qed.

(** C7 (what holds, and where the source falls short).  For every string
    that [validateText] accepts, [escapeText] returns the result of the five
    replacements made in the source's order; that result escapes each code
    unit exactly once (no double escaping), the inverse substitutions give
    the string back, and no other string has the same escaped form.  For a
    string [s] of the specification's Text grammar this is so exactly when
    [s] has no code point strictly between U+E000 and U+FFFD; if it has one,
    [escapeText] throws 'Invalid text data' and there is nothing to unescape,
    as for the string U+E001. *)
Theorem C7_escapeText_roundtrip :
  (forall s,
     validateText s = true ->
     exists e,
       escapeText s = Ret e
       /\ e = replaceChar 0x22 QUOT (replaceChar 0x27 APOS (replaceChar 0x3E GT
                (replaceChar 0x3C LT (replaceChar 0x26 AMP s))))
       /\ e = flat_map escapeUnit s
       /\ spec_unescape e = s
       /\ forall s', escapeText s' = Ret e -> s' = s)
  /\ (forall s,
        specText s ->
        (Forall (fun c => ~ (0xE000 < c < 0xFFFD)) (codePoints s) ->
         exists e, escapeText s = Ret e /\ spec_unescape e = s)
        /\ (~ Forall (fun c => ~ (0xE000 < c < 0xFFFD)) (codePoints s) ->
            escapeText s = Throw InvalidTextData))
  /\ specText [0xE001] /\ escapeText [0xE001] = Throw InvalidTextData.
Proof.
  split; [|split].
  - intros s Hs. exists (escapeChain s). split; [by apply escapeText_valid|].
    split; [reflexivity|]. split; [apply escapeChain_flat_map|].
    split; [apply spec_unescape_escapeChain|].
    intros s' Hs'. apply escapeText_Ret in Hs' as [_ He].
    rewrite <- (spec_unescape_escapeChain s'), <- He.
    apply spec_unescape_escapeChain.
  - intros s Hs. pose proof (specText_validateText s Hs) as Hiff. split.
    + intros Hgap. apply Hiff in Hgap. exists (escapeChain s).
      split; [by apply escapeText_valid|apply spec_unescape_escapeChain].
    + intros Hgap. unfold escapeText.
      destruct (validateText s); [|done]. exfalso. by apply Hgap, Hiff.
  - split; [|by vm_compute].
    apply (validateText_private_use_gap 0xE001). lia.
Qed.

(** C7 at the specification's sample string. *)
Lemma C7_escapeText_roundtrip_witness :
  exists e,
    escapeText (js "Hello & <you>") = Ret e
    /\ e = replaceChar 0x22 QUOT (replaceChar 0x27 APOS (replaceChar 0x3E GT
             (replaceChar 0x3C LT (replaceChar 0x26 AMP (js "Hello & <you>")))))
    /\ e = flat_map escapeUnit (js "Hello & <you>")
    /\ spec_unescape e = js "Hello & <you>"
    /\ forall s', escapeText s' = Ret e -> s' = js "Hello & <you>".
Proof.
  apply (proj1 C7_escapeText_roundtrip (js "Hello & <you>")). reflexivity.
Defined.

(** ** The monad *)

Lemma bind_unfold {A B} (m : M A) (k : A -> M B) h :
  bind m k h =
  match (m h).2 with
  | Ret a => k a (m h).1
  | Throw e => ((m h).1, Throw e)
  | Diverge => ((m h).1, Diverge)
  | Stuck => ((m h).1, Stuck)
  end.
Proof. unfold bind. destruct (m h) as [h' []]; reflexivity. Qed.

Lemma bind_Ret_inv {A B} (m : M A) (k : A -> M B) h h' b :
  bind m k h = (h', Ret b) ->
  exists a h1, m h = (h1, Ret a) /\ k a h1 = (h', Ret b).
Proof.
  unfold bind. destruct (m h) as [h1 [a| | |]]; try discriminate. eauto.
Qed.

Lemma bind_Throw_inv {A B} (m : M A) (k : A -> M B) h h' e :
  bind m k h = (h', Throw e) ->
  m h = (h', Throw e) \/ exists a h1, m h = (h1, Ret a) /\ k a h1 = (h', Throw e).
Proof.
  unfold bind. destruct (m h) as [h1 [a| | |]]; try discriminate.
  - intros H. right. eauto.
  - intros [= -> ->]. by left.
Qed.

Lemma readOnly_ret {A} (a : A) : readOnly (ret a).
Proof. by intros h. Qed.

Lemma readOnly_throw {A} e : readOnly (@throw A e).
Proof. by intros h. Qed.

Lemma readOnly_lift {A} (o : Outcome A) : readOnly (lift o).
Proof. by intros h. Qed.

Lemma readOnly_getShadow o : readOnly (getShadow o).
Proof. intros h. unfold getShadow. by destruct (h !! o). Qed.

Lemma readOnly_enoughFuel : readOnly enoughFuel.
Proof. by intros h. Qed.

Lemma readOnly_bind {A B} (m : M A) (k : A -> M B) :
  readOnly m -> (forall a, readOnly (k a)) -> readOnly (bind m k).
Proof.
  intros Hm Hk h. rewrite bind_unfold. specialize (Hm h).
  destruct (m h) as [h1 [a| | |]]; cbn in *; subst; try done. apply Hk.
Qed.

Lemma readOnly_get_parentElement o : readOnly (get_parentElement o).
Proof.
  apply readOnly_bind; [apply readOnly_getShadow|]. intros; apply readOnly_ret.
Qed.

Lemma readOnly_ancestorWalk fuel current child :
  readOnly (ancestorWalk fuel current child).
Proof.
  revert current. induction fuel as [|fuel IH]; intros current; cbn.
  - apply readOnly_lift.
  - destruct (current =? child)%nat; [apply readOnly_throw|].
    apply readOnly_bind; [apply readOnly_get_parentElement|].
    intros [p|]; [apply IH|apply readOnly_ret].
Qed.

(** The first loop of [append] does not write. *)
Lemma readOnly_validateChild this child : readOnly (validateChild this child).
Proof.
  destruct child as [c|s]; cbn.
  - apply readOnly_bind; [apply readOnly_get_parentElement|].
    intros [p|]; [apply readOnly_throw|].
    apply readOnly_bind; [apply readOnly_getShadow|]. intros shadow.
    destruct (raw shadow); [apply readOnly_throw|].
    apply readOnly_bind; [apply readOnly_enoughFuel|].
    intros; apply readOnly_ancestorWalk.
  - destruct (negb (validateText s)); [apply readOnly_throw|apply readOnly_ret].
Qed.

Lemma readOnly_forEach {A} (f : A -> M unit) l :
  (forall x, readOnly (f x)) -> readOnly (forEach f l).
Proof.
  intros Hf. induction l as [|x l IH]; cbn; [apply readOnly_ret|].
  apply readOnly_bind; [apply Hf|]. intros; apply IH.
Qed.

Lemma neverThrows_ret {A} (a : A) : neverThrows (ret a).
Proof. by intros h e. Qed.

Lemma neverThrows_getShadow o : neverThrows (getShadow o).
Proof. intros h e. unfold getShadow. by destruct (h !! o). Qed.

Lemma neverThrows_modify o f : neverThrows (modify o f).
Proof. intros h e. unfold modify. by destruct (h !! o). Qed.

Lemma neverThrows_bind {A B} (m : M A) (k : A -> M B) :
  neverThrows m -> (forall a, neverThrows (k a)) -> neverThrows (bind m k).
Proof.
  intros Hm Hk h e. rewrite bind_unfold. specialize (Hm h).
  destruct (m h) as [h1 [a| e'| |]]; cbn in *; try done.
  - apply Hk.
  - by destruct (Hm e').
Qed.

(** The second loop of [append] does not throw. *)
Lemma neverThrows_attachChild this child : neverThrows (attachChild this child).
Proof.
  destruct child as [c|s]; cbn; [|apply neverThrows_ret].
  apply neverThrows_bind; [apply neverThrows_getShadow|]. intros shadow.
  apply neverThrows_bind; [apply neverThrows_modify|].
  intros; apply neverThrows_ret.
Qed.

Lemma neverThrows_mapM {A B} (f : A -> M B) l :
  (forall x, neverThrows (f x)) -> neverThrows (mapM f l).
Proof.
  intros Hf. induction l as [|x l IH]; cbn; [apply neverThrows_ret|].
  apply neverThrows_bind; [apply Hf|]. intros y.
  apply neverThrows_bind; [apply IH|]. intros; apply neverThrows_ret.
Qed.

Lemma throwsOnly_neverThrows {A} errs (m : M A) : neverThrows m -> throwsOnly errs m.
Proof. intros H h e He. by destruct (H h e). Qed.

Lemma throwsOnly_throw {A} errs e : In e errs -> throwsOnly errs (@throw A e).
Proof. intros H h e' [= <-]. done. Qed.

Lemma throwsOnly_bind {A B} errs (m : M A) (k : A -> M B) :
  throwsOnly errs m -> (forall a, throwsOnly errs (k a)) -> throwsOnly errs (bind m k).
Proof.
  intros Hm Hk h e. rewrite bind_unfold. specialize (Hm h).
  destruct (m h) as [h1 [a| e'| |]]; cbn in *; try done.
  - apply Hk.
  - intros [= <-]. by apply Hm.
Qed.

Lemma neverThrows_get_parentElement o : neverThrows (get_parentElement o).
Proof.
  apply neverThrows_bind; [apply neverThrows_getShadow|].
  intros; apply neverThrows_ret.
Qed.

Lemma throwsOnly_ancestorWalk errs fuel current child :
  In CyclicReference errs -> throwsOnly errs (ancestorWalk fuel current child).
Proof.
  intros Hin. revert current. induction fuel as [|fuel IH]; intros current; cbn.
  - by intros h e.
  - destruct (current =? child)%nat; [by apply throwsOnly_throw|].
    apply throwsOnly_bind.
    + apply throwsOnly_neverThrows, neverThrows_get_parentElement.
    + intros [p|]; [apply IH|]. apply throwsOnly_neverThrows, neverThrows_ret.
Qed.

Lemma throwsOnly_validateChild this child :
  throwsOnly [InvalidTextData; AlreadyAChild; RawTextNoElementChildren; CyclicReference]
    (validateChild this child).
Proof.
  destruct child as [c|s]; cbn.
  - apply throwsOnly_bind.
    { apply throwsOnly_neverThrows, neverThrows_get_parentElement. }
    intros [p|]; [apply throwsOnly_throw; cbn; tauto|].
    apply throwsOnly_bind.
    { apply throwsOnly_neverThrows, neverThrows_getShadow. }
    intros shadow. destruct (raw shadow); [apply throwsOnly_throw; cbn; tauto|].
    apply throwsOnly_bind; [by intros h e|].
    intros fuel. apply throwsOnly_ancestorWalk. cbn; tauto.
  - destruct (negb (validateText s)); [apply throwsOnly_throw; cbn; tauto|].
    apply throwsOnly_neverThrows, neverThrows_ret.
Qed.

Lemma throwsOnly_forEach {A} errs (f : A -> M unit) l :
  (forall x, throwsOnly errs (f x)) -> throwsOnly errs (forEach f l).
Proof.
  intros Hf. induction l as [|x l IH]; cbn.
  - apply throwsOnly_neverThrows, neverThrows_ret.
  - apply throwsOnly_bind; [apply Hf|]. intros; apply IH.
Qed.

(** The part of [append] after its two guards. *)
Lemma append_unfold this args h :
  append this args h =
  match h !! this with
  | None => (h, Stuck)
  | Some shadow =>
      if void shadow then (h, Throw VoidElement)
      else if negb (escapable shadow) then (h, Throw RawTextNoContents)
      else
        match (forEach (validateChild this) args h).2 with
        | Ret _ =>
            bind (mapM (attachChild this) args)
              (fun tmp => modify this (fun s => with_children (children s ++ map Some tmp) s)) h
        | Throw e => (h, Throw e)
        | Diverge => (h, Diverge)
        | Stuck => (h, Stuck)
        end
  end.
Proof.
  unfold append. rewrite bind_unfold.
  assert (Hg : getShadow this h =
    match h !! this with Some s => (h, Ret s) | None => (h, Stuck) end)
    by reflexivity.
  rewrite Hg. clear Hg.
  destruct (h !! this) as [shadow|]; cbn [fst snd]; [|done].
  destruct (void shadow); [done|]. destruct (negb (escapable shadow)); [done|].
  rewrite bind_unfold.
  rewrite (readOnly_forEach _ args (readOnly_validateChild this) h).
  by destruct (forEach (validateChild this) args h).2.
Qed.

(** A throw of [append] comes from its guards or from its first loop. *)
Lemma append_Throw_heap this args h h' err :
  append this args h = (h', Throw err) -> h' = h.
Proof.
  rewrite append_unfold.
  destruct (h !! this) as [shadow|]; [|by intros [= <-]].
  destruct (void shadow); [by intros [= <-]|].
  destruct (negb (escapable shadow)); [by intros [= <-]|].
  destruct (forEach (validateChild this) args h).2 as [[]|e| |];
    try by intros [= <-].
  intros H. exfalso.
  pose proof (neverThrows_bind _ _
    (neverThrows_mapM _ args (neverThrows_attachChild this))
    (fun tmp => neverThrows_modify this
       (fun s => with_children (children s ++ map Some tmp) s)) h err) as X.
  rewrite H in X. by apply X.
Qed.

(** C4: [append] is atomic.  If it throws, the error is one of the six of
    its guards and the whole heap (the children of the receiver, the parent
    links of the arguments, everything else) is what it was before the call;
    and if the heap changed at all, the first loop had accepted every
    argument. *)
Theorem C4_append_atomic (this : nat) (args : list Arg) (h h' : Heap) (o : Outcome unit) :
  append this args h = (h', o) ->
  (forall err, o = Throw err ->
     h' = h
     /\ In err [VoidElement; RawTextNoContents; InvalidTextData; AlreadyAChild;
                RawTextNoElementChildren; CyclicReference])
  /\ (h' <> h -> forEach (validateChild this) args h = (h, Ret tt)).
Proof.
  rewrite append_unfold. intros H.
  assert (Hsame : forall P : Prop, h <> h -> P) by (intros P Hn; by destruct Hn).
  destruct (h !! this) as [shadow|];
    [|injection H as <- <-; split; [intros ? [=]|apply Hsame]].
  destruct (void shadow).
  { injection H as <- <-. split; [|apply Hsame]. intros err [= <-]. cbn; tauto. }
  destruct (negb (escapable shadow)).
  { injection H as <- <-. split; [|apply Hsame]. intros err [= <-]. cbn; tauto. }
  pose proof (readOnly_forEach _ args (readOnly_validateChild this) h) as Hro.
  pose proof (throwsOnly_forEach _ _ args (throwsOnly_validateChild this) h) as Hto.
  destruct (forEach (validateChild this) args h) as [h1 o1]; cbn in *; subst h1.
  destruct o1 as [[]|e| |].
  - split; [|done]. intros err ->. exfalso.
    pose proof (neverThrows_bind _ _
      (neverThrows_mapM _ args (neverThrows_attachChild this))
      (fun tmp => neverThrows_modify this
         (fun s => with_children (children s ++ map Some tmp) s)) h err) as X.
    rewrite H in X. by apply X.
  - injection H as <- <-. split; [|apply Hsame].
    intros err [= <-]. split; [done|]. specialize (Hto e eq_refl). cbn in *. tauto.
  - injection H as <- <-. split; [intros ? [=]|apply Hsame].
  - injection H as <- <-. split; [intros ? [=]|apply Hsame].
Qed.

(** C4 on [p.append ('ok', e)] where [e] is already a child of [p]: the call
    throws 'Already a child' and nothing has changed, the text neither. *)
Lemma C4_append_atomic_witness :
  (forall err, @Throw unit AlreadyAChild = Throw err ->
     heap_div_span = heap_div_span
     /\ In err [VoidElement; RawTextNoContents; InvalidTextData; AlreadyAChild;
                RawTextNoElementChildren; CyclicReference])
  /\ (heap_div_span <> heap_div_span ->
      forEach (validateChild 0) [AText (js "ok"); AElement 1] heap_div_span
      = (heap_div_span, Ret tt)).
Proof.
  apply (C4_append_atomic 0 [AText (js "ok"); AElement 1] heap_div_span
           heap_div_span (Throw AlreadyAChild)).
  vm_compute. reflexivity.
Defined.


(** ** The walk up the parents *)

Lemma get_parentElement_unfold o h :
  get_parentElement o h =
  match h !! o with
  | Some shadow => (h, Ret (parent shadow))
  | None => (h, Stuck)
  end.
Proof.
  unfold get_parentElement, bind, getShadow. by destruct (h !! o).
Qed.

Lemma ancestorWalk_unfold fuel current child h :
  ancestorWalk (S fuel) current child h =
  if (current =? child)%nat then (h, Throw CyclicReference)
  else match h !! current with
       | None => (h, Stuck)
       | Some shadow =>
           match parent shadow with
           | Some next => ancestorWalk fuel next child h
           | None => (h, Ret tt)
           end
       end.
Proof.
  cbn [ancestorWalk]. destruct (current =? child)%nat; [done|].
  unfold bind. rewrite get_parentElement_unfold.
  destruct (h !! current) as [shadow|]; [|done]. by destruct (parent shadow).
Qed.

Lemma walkSteps_pos h child c k o : walkSteps h child c k o -> (1 <= k)%nat.
Proof. induction 1; lia. Qed.

Lemma walkSteps_functional h child c k o k' o' :
  walkSteps h child c k o -> walkSteps h child c k' o' -> k = k'.
Proof.
  intros H. revert k' o'.
  induction H as [c Hc|c Hc Hl|c sh Hc Hl Hp|c sh p k o Hc Hl Hp Hw IH];
    intros k' o' H'; inversion H'; subst; try congruence.
  f_equal. eapply IH. by simplify_eq.
Qed.

(** With fuel for [k] rounds or more, the walk does what [walkSteps] says. *)
Lemma walkSteps_run h child c k o :
  walkSteps h child c k o ->
  forall fuel, (k <= fuel)%nat -> ancestorWalk fuel c child h = (h, o).
Proof.
  induction 1 as [c Hc|c Hc Hl|c sh Hc Hl Hp|c sh p k o Hc Hl Hp Hw IH];
    intros [|fuel] Hf; try lia; rewrite ancestorWalk_unfold.
  - subst. by rewrite Nat.eqb_refl.
  - rewrite (proj2 (Nat.eqb_neq c child) Hc), Hl. done.
  - rewrite (proj2 (Nat.eqb_neq c child) Hc), Hl, Hp. done.
  - rewrite (proj2 (Nat.eqb_neq c child) Hc), Hl, Hp. apply IH. lia.
Qed.

(** A walk that ends within its fuel follows [walkSteps]. *)
Lemma ancestorWalk_steps fuel h child c o :
  (ancestorWalk fuel c child h).2 = o -> o <> Diverge ->
  exists k, (k <= fuel)%nat /\ walkSteps h child c k o.
Proof.
  revert c. induction fuel as [|fuel IH]; intros c Ho Hd.
  - cbn in Ho. congruence.
  - rewrite ancestorWalk_unfold in Ho.
    destruct (Nat.eqb_spec c child) as [Hc|Hc].
    { cbn in Ho. subst o. exists 1%nat. split; [lia|]. by constructor. }
    destruct (h !! c) as [sh|] eqn:Hl.
    2:{ cbn in Ho. subst o. exists 1%nat. split; [lia|]. by constructor. }
    destruct (parent sh) as [p|] eqn:Hp.
    2:{ cbn in Ho. subst o. exists 1%nat. split; [lia|]. by econstructor. }
    destruct (IH p Ho Hd) as (k & Hk & Hw).
    exists (S k). split; [lia|]. by econstructor.
Qed.

(** The objects a walk of [k] rounds passes before its last round: they are
    alive and, the walk being determined by where it stands, all different. *)
Lemma walkSteps_path h child c k o :
  walkSteps h child c k o ->
  exists l : list nat,
    length l = pred k
    /\ Forall (fun x => (x < length h)%nat) l
    /\ forall i x, l !! i = Some x -> walkSteps h child x (k - i) o.
Proof.
  induction 1 as [c Hc|c Hc Hl|c sh Hc Hl Hp|c sh p k o Hc Hl Hp Hw IH];
    try (exists []; split; [done|]; split; [constructor|];
         intros i x Hi; by rewrite lookup_nil in Hi).
  destruct IH as (l & Hlen & Hall & Hpath).
  pose proof (walkSteps_pos _ _ _ _ _ Hw) as Hk.
  exists (c :: l). split; [cbn; lia|]. split.
  - constructor; [|done]. by eapply lookup_lt_Some.
  - intros [|i] x Hi; cbn in Hi.
    + injection Hi as <-. rewrite Nat.sub_0_r. by econstructor.
    + replace (S k - S i)%nat with (k - i)%nat by lia. by apply Hpath.
Qed.

(** No walk that ends takes more rounds than there are objects, plus one. *)
Lemma walkSteps_bound h child c k o :
  walkSteps h child c k o -> (k <= S (length h))%nat.
Proof.
  intros Hw. destruct (walkSteps_path _ _ _ _ _ Hw) as (l & Hlen & Hall & Hpath).
  assert (Hnd : NoDup l).
  { apply NoDup_alt. intros i j x Hi Hj.
    pose proof (lookup_lt_Some _ _ _ Hi). pose proof (lookup_lt_Some _ _ _ Hj).
    pose proof (walkSteps_functional _ _ _ _ _ _ _ (Hpath _ _ Hi) (Hpath _ _ Hj)).
    lia. }
  assert (Hsub : l ⊆+ seq 0 (length h)).
  { apply NoDup_submseteq; [done|]. intros x Hx. apply elem_of_seq.
    rewrite Forall_forall in Hall. specialize (Hall x Hx). lia. }
  apply submseteq_length in Hsub. rewrite length_seq in Hsub. lia.
Qed.

(** The fuel [append] gives its walk is enough: whatever the walk does with
    some amount of fuel, short of running out, it does with that. *)
Lemma ancestorWalk_enoughFuel fuel h child c :
  (ancestorWalk fuel c child h).2 <> Diverge ->
  ancestorWalk (S (length h)) c child h = ancestorWalk fuel c child h.
Proof.
  intros Hd. destruct (ancestorWalk_steps fuel h child c _ eq_refl Hd) as (k & Hk & Hw).
  rewrite (walkSteps_run _ _ _ _ _ Hw fuel Hk).
  apply (walkSteps_run _ _ _ _ _ Hw). by eapply walkSteps_bound.
Qed.

(** From an object, the walk finds each object of its ancestor chain. *)
Lemma onAncestorChain_walk h a e :
  onAncestorChain h a e ->
  ancestorWalk (S (length h)) e a h = (h, Throw CyclicReference).
Proof.
  intros Hc.
  assert (exists k, walkSteps h a e k (Throw CyclicReference)) as [k Hw].
  { induction Hc as [e sh Hl|a e sh p Hl Hp Hc [k IH]].
    - exists 1%nat. by constructor.
    - destruct (decide (e = a)) as [->|Hne].
      + exists 1%nat. by constructor.
      + exists (S k). by econstructor. }
  apply (walkSteps_run _ _ _ _ _ Hw). by eapply walkSteps_bound.
Qed.

Lemma getShadow_unfold o h :
  getShadow o h =
  match h !! o with Some shadow => (h, Ret shadow) | None => (h, Stuck) end.
Proof. reflexivity. Qed.

Lemma validateChild_element_unfold this c h :
  validateChild this (AElement c) h =
  match h !! c with
  | None => (h, Stuck)
  | Some cs =>
      match parent cs with
      | Some _ => (h, Throw AlreadyAChild)
      | None =>
          match h !! this with
          | None => (h, Stuck)
          | Some shadow =>
              if raw shadow then (h, Throw RawTextNoElementChildren)
              else ancestorWalk (S (length h)) this c h
          end
      end
  end.
Proof.
  cbn [validateChild]. unfold bind at 1. rewrite get_parentElement_unfold.
  destruct (h !! c) as [cs|]; [|done]. destruct (parent cs); [done|].
  unfold bind at 1. rewrite getShadow_unfold.
  destruct (h !! this) as [shadow|]; [|done]. by destruct (raw shadow).
Qed.

Lemma forEach_one {A} (f : A -> M unit) x h :
  (forEach f [x] h).2 = (f x h).2 /\ (forEach f [x] h).1 = (f x h).1.
Proof.
  cbn [forEach]. unfold bind. destruct (f x h) as [h1 [[]| | |]]; by cbn.
Qed.

Lemma onAncestorChain_alive h a e :
  onAncestorChain h a e -> is_Some (h !! a) /\ is_Some (h !! e).
Proof.
  induction 1 as [e s Hl|a e s p Hl Hp Hc [IHa IHp]]; [split; eauto|].
  split; [done|eauto].
Qed.

(** [append] with one Element argument, past the two guards on the
    receiver. *)
Lemma append_one_element_fails this c h shadow e :
  h !! this = Some shadow -> void shadow = false -> escapable shadow = true ->
  validateChild this (AElement c) h = (h, Throw e) ->
  append this [AElement c] h = (h, Throw e).
Proof.
  intros Hl Hv He Hval. rewrite append_unfold, Hl, Hv, He. cbn [negb].
  destruct (forEach_one (validateChild this) (AElement c) h) as [-> _].
  by rewrite Hval.
Qed.

(** C5, as the code has it.  Appending [e] to [r], where [r] is [e] itself
    or an ancestor of [e], always fails and leaves the heap as it was, with
    the error of the first guard that fires: 'Void element' if [r] is void;
    otherwise 'Raw text elements should not have contents' if [r] is not
    escapable (script, style); otherwise 'Already a child' if [e] has a
    parent, which it has whenever [r] is not [e] itself; otherwise 'Raw text
    elements cannot have element children' if [r] is of a raw-text category
    (textarea, title); otherwise 'Cyclic reference'.  So the error is 'Cyclic
    reference' exactly when [r] is [e] itself, [e] has no parent, and [e] is
    neither void nor of a raw-text category.  'Cyclic reference' is also the
    answer to appending a parentless [e] to an ordinary element [r] below it
    (one that has [e] on its own ancestor chain). *)
Theorem C5_append_on_ancestor_chain (h : Heap) (r e : nat) :
  (onAncestorChain h r e ->
   exists rs es err,
     h !! r = Some rs /\ h !! e = Some es
     /\ append r [AElement e] h = (h, Throw err)
     /\ err = (if void rs then VoidElement
               else if negb (escapable rs) then RawTextNoContents
               else match parent es with
                    | Some _ => AlreadyAChild
                    | None => if raw rs then RawTextNoElementChildren
                              else CyclicReference
                    end)
     /\ (r <> e -> is_Some (parent es))
     /\ In err [VoidElement; RawTextNoContents; AlreadyAChild;
                RawTextNoElementChildren; CyclicReference]
     /\ (err = CyclicReference <->
         r = e /\ exists s, h !! e = Some s /\ parent s = None
                  /\ void s = false /\ escapable s = true /\ raw s = false))
  /\ (onAncestorChain h e r ->
      (exists s, h !! r = Some s /\ void s = false /\ escapable s = true
                 /\ raw s = false) ->
      (exists s, h !! e = Some s /\ parent s = None) ->
      append r [AElement e] h = (h, Throw CyclicReference)).
Proof.
  split.
  - intros Hc. destruct (onAncestorChain_alive _ _ _ Hc) as [[rs Hr] [es He]].
    assert (Hproper : r <> e -> is_Some (parent es)).
    { intros Hne. inversion Hc as [|? ? s' p Hs' Hp' _]; subst; [done|].
      assert (s' = es) as -> by congruence. by rewrite Hp'. }
    exists rs, es. rewrite append_unfold, Hr.
    destruct (void rs) eqn:Hv.
    { exists VoidElement. do 4 (split; [done|]). split; [done|].
      split; [cbn; tauto|].
      split; [done|]. intros (-> & s & Hs & _ & Hv' & _). congruence. }
    destruct (escapable rs) eqn:Hesc; cbn [negb].
    2:{ exists RawTextNoContents. do 4 (split; [done|]). split; [done|].
        split; [cbn; tauto|].
        split; [done|]. intros (-> & s & Hs & _ & _ & He' & _). congruence. }
    destruct (forEach_one (validateChild r) (AElement e) h) as [-> _].
    rewrite validateChild_element_unfold, He, Hr.
    destruct (parent es) as [p|] eqn:Hp.
    { exists AlreadyAChild. do 4 (split; [done|]). split; [done|].
      split; [cbn; tauto|].
      split; [done|]. intros (-> & s & Hs & Hp' & _). congruence. }
    destruct (raw rs) eqn:Hraw.
    { exists RawTextNoElementChildren. do 4 (split; [done|]). split; [done|].
      split; [cbn; tauto|].
      split; [done|]. intros (-> & s & Hs & _ & _ & _ & Hraw'). congruence. }
    assert (r = e) as ->.
    { inversion Hc; subst; [done|]. congruence. }
    rewrite ancestorWalk_unfold, Nat.eqb_refl.
    exists CyclicReference. do 4 (split; [done|]). split; [done|].
    split; [cbn; tauto|].
    split; [|done]. intros _. split; [done|]. exists es.
    assert (rs = es) as -> by congruence. done.
  - intros Hc (rs & Hr & Hv & Hesc & Hraw) (es & He & Hp).
    eapply append_one_element_fails; [done..|].
    rewrite validateChild_element_unfold, He, Hp, Hr, Hraw.
    by apply onAncestorChain_walk.
Qed.

(** C5 as the specification states it fails: [p] is the parent of [e], and
    [p.append (e)] throws 'Already a child', not 'Cyclic reference'; a void
    element appended to itself gets 'Void element'. *)
Lemma C5_counterexample :
  onAncestorChain heap_div_span 0 1
  /\ append 0 [AElement 1] heap_div_span = (heap_div_span, Throw AlreadyAChild)
  /\ (let* br := newElement (js "br") in append br [AElement br]) []
     = ((newElement (js "br") []).1, Throw VoidElement).
Proof.
  split; [|by vm_compute].
  eapply chain_up; [reflexivity..|]. by eapply chain_self.
Qed.

(** C5 at [p.append (e)] for a child [e] of [p], and at [e.append (p)]. *)
Lemma C5_append_on_ancestor_chain_witness :
  (exists rs es err,
     heap_div_span !! 0%nat = Some rs /\ heap_div_span !! 1%nat = Some es
     /\ append 0 [AElement 1] heap_div_span = (heap_div_span, Throw err)
     /\ err = (if void rs then VoidElement
               else if negb (escapable rs) then RawTextNoContents
               else match parent es with
                    | Some _ => AlreadyAChild
                    | None => if raw rs then RawTextNoElementChildren
                              else CyclicReference
                    end)
     /\ (0%nat <> 1%nat -> is_Some (parent es))
     /\ In err [VoidElement; RawTextNoContents; AlreadyAChild;
                RawTextNoElementChildren; CyclicReference]
     /\ (err = CyclicReference <->
         0%nat = 1%nat /\ exists s, heap_div_span !! 1%nat = Some s /\ parent s = None
                  /\ void s = false /\ escapable s = true /\ raw s = false))
  /\ append 1 [AElement 0] heap_div_span = (heap_div_span, Throw CyclicReference).
Proof.
  assert (Hc : onAncestorChain heap_div_span 0 1).
  { eapply chain_up; [reflexivity..|]. by eapply chain_self. }
  split.
  - exact (proj1 (C5_append_on_ancestor_chain heap_div_span 0 1) Hc).
  - apply (proj2 (C5_append_on_ancestor_chain heap_div_span 1 0) Hc).
    + eexists. split; [reflexivity|]. by vm_compute.
    + eexists. split; [reflexivity|]. by vm_compute.
Defined.

(** ** Writing [innerText] *)

Lemma neverThrows_lift_Stuck {A} : neverThrows (@lift A Stuck).
Proof. by intros h e. Qed.

Lemma neverThrows_remove this : neverThrows (remove this).
Proof.
  apply neverThrows_bind; [apply neverThrows_getShadow|]. intros shadow.
  destruct (parent shadow); [|apply neverThrows_ret].
  apply neverThrows_bind; [apply neverThrows_modify|].
  intros; apply neverThrows_modify.
Qed.

Lemma neverThrows_clearLoop n this i : neverThrows (clearLoop n this i).
Proof.
  revert i. induction n as [|n IH]; intros i; cbn; [apply neverThrows_ret|].
  apply neverThrows_bind; [apply neverThrows_getShadow|]. intros shadow.
  destruct (children shadow !! i) as [[[c|s]|]|]; try apply IH.
  apply neverThrows_bind; [apply neverThrows_remove|]. intros; apply IH.
Qed.

Lemma neverThrows_clear this : neverThrows (clear this).
Proof.
  apply neverThrows_bind; [apply neverThrows_getShadow|]. intros shadow.
  apply neverThrows_bind; [apply neverThrows_clearLoop|].
  intros; apply neverThrows_modify.
Qed.

Lemma modify_Ret_inv o f h h' u :
  modify o f h = (h', Ret u) ->
  exists shadow, h !! o = Some shadow /\ h' = <[o := f shadow]> h.
Proof.
  unfold modify. destruct (h !! o) as [shadow|]; [|done].
  intros [= <- _]. eauto.
Qed.

(** When [clear] returns, the children array of the receiver is empty. *)
Lemma clear_Ret_children this h h' u :
  clear this h = (h', Ret u) ->
  exists shadow, h' !! this = Some shadow /\ children shadow = [].
Proof.
  unfold clear. intros H.
  apply bind_Ret_inv in H as (shadow & h1 & _ & H).
  apply bind_Ret_inv in H as ([] & h2 & _ & H).
  apply modify_Ret_inv in H as (s2 & Hs2 & ->).
  exists (with_children [] s2). split; [|done].
  apply list_lookup_insert_eq. by eapply lookup_lt_Some.
Qed.

(** The setter is not atomic: when it throws, the error is one of [append]
    and the children array of the receiver has already been emptied. *)
Lemma set_innerText_Throw_children this text h h' err :
  set_innerText this text h = (h', Throw err) ->
  (clear this h).2 = Ret tt
  /\ append this [AText text] (clear this h).1 = (h', Throw err)
  /\ h' = (clear this h).1
  /\ exists shadow, h' !! this = Some shadow /\ children shadow = [].
Proof.
  unfold set_innerText. intros H.
  apply bind_Throw_inv in H as [H|([] & h1 & Hc & Ha)].
  { pose proof (neverThrows_clear this h err) as X. rewrite H in X. by destruct X. }
  rewrite Hc. cbn [fst snd].
  apply append_Throw_heap in Ha as Heq. subst h1.
  split; [done|]. split; [done|]. split; [done|].
  by eapply clear_Ret_children.
Qed.

(** C10 (what holds, and where the source falls short).  The setter is
    not atomic: whenever it throws, [clear] has returned, the error is that
    of the [append] of the text, and the heap is the one [clear] left, with
    the children array of the receiver empty.  But [clear] does not detach
    every child.  With [p] listing [b], [x], [b] as its children, [b] with the
    recorded position of the slot of [x], writing the invalid text U+0000 to
    [p.innerText] throws 'Invalid text data' after [clear] has run: the
    children of [p] are emptied, [b] is detached, but [x] still names [p] as
    its parent, because [b.remove ()] made the hole in the slot of [x] and
    the loop then skipped it. *)
Theorem C10_innerText_setter_leaves_child_attached :
  (forall this text h h' err,
     set_innerText this text h = (h', Throw err) ->
     (clear this h).2 = Ret tt
     /\ append this [AText text] (clear this h).1 = (h', Throw err)
     /\ h' = (clear this h).1
     /\ exists shadow, h' !! this = Some shadow /\ children shadow = [])
  /\ (get_children 0 heap_reappended).2 = Ret [CElement 2; CElement 3; CElement 2]
  /\ (get_parentElement 3 heap_reappended).2 = Ret (Some 0%nat)
  /\ exists h',
       set_innerText 0 [0x0] heap_reappended = (h', Throw InvalidTextData)
       /\ (get_children 0 h').2 = Ret []
       /\ (get_parentElement 2 h').2 = Ret None
       /\ (get_parentElement 3 h').2 = Ret (Some 0%nat).
Proof.
  split; [apply set_innerText_Throw_children|].
  split; [by vm_compute|]. split; [by vm_compute|].
  eexists. split; [vm_compute; reflexivity|]. by vm_compute.
Qed.

(** C10 on that heap: the general part applies to it. *)
Lemma C10_innerText_setter_leaves_child_attached_witness :
  (clear 0 heap_reappended).2 = Ret tt
  /\ append 0 [AText [0x0]] (clear 0 heap_reappended).1
     = ((clear 0 heap_reappended).1, Throw InvalidTextData)
  /\ (clear 0 heap_reappended).1 = (clear 0 heap_reappended).1
  /\ exists shadow,
       (clear 0 heap_reappended).1 !! 0%nat = Some shadow /\ children shadow = [].
Proof.
  apply (proj1 C10_innerText_setter_leaves_child_attached 0%nat [0x0]
           heap_reappended (clear 0 heap_reappended).1 InvalidTextData).
  by vm_compute.
Defined.

(** ** Invariants of reachable heaps *)

Lemma evolves_refl h : evolves h h.
Proof.
  split; [done|]. intros o s' Hl. rewrite Hl. done.
Qed.

Lemma evolves_trans h1 h2 h3 : evolves h1 h2 -> evolves h2 h3 -> evolves h1 h3.
Proof.
  intros [Hlen1 H1] [Hlen2 H2]. split; [lia|].
  intros o s3 Hl3. specialize (H2 o s3 Hl3).
  destruct (h2 !! o) as [s2|] eqn:Hl2.
  - specialize (H1 o s2 Hl2). destruct H2 as [Hst Hwf].
    destruct (h1 !! o) as [s1|]; [|tauto].
    destruct H1 as [Hst1 Hwf1]. split; [congruence|tauto].
  - apply lookup_ge_None in Hl2.
    rewrite (proj2 (lookup_ge_None h1 o)); [done|lia].
Qed.

Lemma sound_readOnly {A} (m : M A) : readOnly m -> sound m.
Proof. intros H h. rewrite H. apply evolves_refl. Qed.

Lemma sound_ret {A} (a : A) : sound (ret a).
Proof. apply sound_readOnly, readOnly_ret. Qed.

Lemma sound_throw {A} e : sound (@throw A e).
Proof. apply sound_readOnly, readOnly_throw. Qed.

Lemma sound_getShadow o : sound (getShadow o).
Proof. apply sound_readOnly, readOnly_getShadow. Qed.

Lemma sound_bind {A B} (m : M A) (k : A -> M B) :
  sound m -> (forall a, sound (k a)) -> sound (bind m k).
Proof.
  intros Hm Hk h. rewrite bind_unfold. specialize (Hm h).
  destruct (m h) as [h1 [a| | |]]; cbn in *; try done.
  eapply evolves_trans; [exact Hm|apply Hk].
Qed.

Lemma evolves_insert h o s f :
  h !! o = Some s -> static (f s) = static s -> (wf_shadow s -> wf_shadow (f s)) ->
  evolves h (<[o := f s]> h).
Proof.
  intros Hl Hst Hwf. split; [by rewrite length_insert|].
  intros o' s' Hl'. destruct (decide (o = o')) as [<-|Hne].
  - rewrite list_lookup_insert_eq in Hl' by (by eapply lookup_lt_Some).
    injection Hl' as <-. rewrite Hl. done.
  - rewrite list_lookup_insert_ne in Hl' by done. rewrite Hl'. done.
Qed.

Lemma sound_modify o f :
  (forall s, static (f s) = static s /\ (wf_shadow s -> wf_shadow (f s))) ->
  sound (modify o f).
Proof.
  intros Hf h. unfold modify. destruct (h !! o) as [s|] eqn:Hl; cbn.
  - apply evolves_insert; [done|apply Hf..].
  - apply evolves_refl.
Qed.

Lemma wf_with_parent p i s : wf_shadow s -> wf_shadow (with_parent p i s).
Proof. intros []. by constructor. Qed.

Lemma deleteSlot_entries i a :
  Forall (fun c => isElementEntry c = false) a ->
  Forall (fun c => isElementEntry c = false) (deleteSlot i a).
Proof.
  intros H. destruct i as [i|]; cbn; [|done].
  apply Forall_insert; done.
Qed.

Lemma wf_with_children_deleteSlot i s :
  wf_shadow s -> wf_shadow (with_children (deleteSlot i (children s)) s).
Proof.
  intros []. constructor; cbn; try done.
  - intros Hv. rewrite wf_void_children0 by done. by destruct i.
  - intros Hr. by apply deleteSlot_entries, wf_raw_children0.
Qed.

Lemma wf_with_children_nil s : wf_shadow s -> wf_shadow (with_children [] s).
Proof. intros []. by constructor. Qed.

Lemma sound_remove this : sound (remove this).
Proof.
  apply sound_bind; [apply sound_getShadow|]. intros shadow.
  destruct (parent shadow); [|apply sound_ret].
  apply sound_bind.
  - apply sound_modify. intros s. split; [done|apply wf_with_children_deleteSlot].
  - intros _. apply sound_modify. intros s. split; [done|apply wf_with_parent].
Qed.

Lemma sound_clearLoop n this i : sound (clearLoop n this i).
Proof.
  revert i. induction n as [|n IH]; intros i; cbn; [apply sound_ret|].
  apply sound_bind; [apply sound_getShadow|]. intros shadow.
  destruct (children shadow !! i) as [[[c|s]|]|]; try apply IH.
  apply sound_bind; [apply sound_remove|]. intros; apply IH.
Qed.

Lemma sound_clear this : sound (clear this).
Proof.
  apply sound_bind; [apply sound_getShadow|]. intros shadow.
  apply sound_bind; [apply sound_clearLoop|]. intros _.
  apply sound_modify. intros s. split; [done|apply wf_with_children_nil].
Qed.

Lemma str_eqb_eq a b : str_eqb a b = true <-> a = b.
Proof.
  revert b. induction a as [|x a IH]; intros [|y b]; cbn; try done.
  rewrite andb_true_iff, Z.eqb_eq, IH. split.
  - by intros [-> ->].
  - by intros [= -> ->].
Qed.

Lemma str_eqb_refl a : str_eqb a a = true.
Proof. by apply str_eqb_eq. Qed.

Lemma includes_In l s : includes l s = true <-> In s l.
Proof.
  unfold includes. rewrite existsb_exists. split.
  - intros (x & Hx & He). apply str_eqb_eq in He. by subst.
  - intros H. exists s. split; [done|apply str_eqb_refl].
Qed.

Lemma setProperty_keys k v o x :
  x ∈ ownKeys (setProperty k v o) -> x = k \/ x ∈ ownKeys o.
Proof.
  unfold ownKeys. induction o as [|[k' v'] o IH]; cbn.
  - rewrite list_elem_of_singleton. tauto.
  - destruct (str_eqb k' k) eqn:E; cbn; rewrite !elem_of_cons.
    + apply str_eqb_eq in E. subst. tauto.
    + intros [->|H]; [tauto|]. destruct (IH H); tauto.
Qed.

Lemma setProperty_NoDup k v o :
  NoDup (ownKeys o) -> NoDup (ownKeys (setProperty k v o)).
Proof.
  unfold ownKeys. induction o as [|[k' v'] o IH]; cbn; intros Hnd.
  - apply NoDup_singleton.
  - apply NoDup_cons in Hnd as [Hni Hnd].
    destruct (str_eqb k' k) eqn:E; cbn.
    + apply str_eqb_eq in E. subst. by apply NoDup_cons.
    + apply NoDup_cons. split; [|by apply IH].
      intros Hin. apply setProperty_keys in Hin as [->|Hin]; [|done].
      by rewrite str_eqb_refl in E.
Qed.

Lemma setProperty_Forall (P : js_string * js_string -> Prop) k v o :
  P (k, v) -> Forall P o -> Forall P (setProperty k v o).
Proof.
  intros Hkv. induction 1 as [|[k' v'] o Hx Ho IH]; cbn.
  - by constructor.
  - destruct (str_eqb k' k); by constructor.
Qed.

Lemma deleteProperty_NoDup k o :
  NoDup (ownKeys o) -> NoDup (ownKeys (deleteProperty k o)).
Proof.
  unfold ownKeys, deleteProperty. induction o as [|[k' v'] o IH]; [done|].
  intros Hnd. cbn in Hnd. apply NoDup_cons in Hnd as [Hni Hnd].
  rewrite filter_cons. case_decide; cbn; [|by apply IH].
  apply NoDup_cons. split; [|by apply IH].
  intros Hin. apply Hni. apply list_elem_of_fmap in Hin as (kv & -> & Hin).
  apply list_elem_of_filter in Hin as [_ Hin].
  apply list_elem_of_fmap. eauto.
Qed.

Lemma wf_with_attributes a s :
  NoDup (ownKeys a) ->
  Forall (fun kv => validateToken kv.1 = true /\ validateText kv.2 = true) a ->
  wf_shadow s -> wf_shadow (with_attributes a s).
Proof. intros Hnd Hall []. by constructor. Qed.

Lemma sound_setAttribute this aname value : sound (setAttribute this aname value).
Proof.
  apply sound_bind; [apply sound_getShadow|]. intros shadow.
  destruct (validateToken aname) eqn:Hn; cbn [negb]; [|apply sound_throw].
  destruct (validateText value) eqn:Hv; cbn [negb]; [|apply sound_throw].
  apply sound_modify. intros s. split; [done|]. intros Hwf.
  apply wf_with_attributes; [| |done].
  - apply setProperty_NoDup. by destruct Hwf.
  - apply setProperty_Forall; [done|]. by destruct Hwf.
Qed.

Lemma sound_removeAttribute this aname : sound (removeAttribute this aname).
Proof.
  apply sound_modify. intros s. split; [done|]. intros Hwf.
  apply wf_with_attributes; [| |done].
  - apply deleteProperty_NoDup. by destruct Hwf.
  - destruct Hwf as [_ _ _ _ _ _ _ _ Hall]. rewrite Forall_forall in Hall.
    apply Forall_forall. intros kv Hin. apply Hall.
    unfold deleteProperty in Hin. by apply list_elem_of_filter in Hin as [_ Hin].
Qed.

Lemma evolves_alloc h s : wf_shadow s -> evolves h (h ++ [s]).
Proof.
  intros Hwf. split; [rewrite length_app; lia|].
  intros o s' Hl. destruct (h !! o) as [s0|] eqn:Hl0.
  - rewrite lookup_app_l in Hl by (by eapply lookup_lt_Some).
    assert (s' = s0) as -> by congruence. done.
  - apply lookup_ge_None in Hl0. rewrite lookup_app_r in Hl by done.
    destruct (o - length h)%nat; cbn in Hl; [|done]. by injection Hl as <-.
Qed.

Lemma sound_newElement tagName : sound (newElement tagName).
Proof.
  intros h. unfold newElement.
  destruct (validateToken tagName) eqn:Ht; cbn [negb fst]; [|apply evolves_refl].
  apply evolves_alloc. constructor; cbn; try done.
  - apply NoDup_nil_2.
Qed.

Lemma sound_attachChild this a : sound (attachChild this a).
Proof.
  destruct a as [c|s]; cbn; [|apply sound_ret].
  apply sound_bind; [apply sound_getShadow|]. intros shadow.
  apply sound_bind; [|intros; apply sound_ret].
  apply sound_modify. intros s. split; [done|apply wf_with_parent].
Qed.

Lemma sound_mapM {A B} (f : A -> M B) l : (forall x, sound (f x)) -> sound (mapM f l).
Proof.
  intros Hf. induction l as [|x l IH]; cbn; [apply sound_ret|].
  apply sound_bind; [apply Hf|]. intros y.
  apply sound_bind; [apply IH|]. intros; apply sound_ret.
Qed.

Lemma attachChild_Ret this a h h' c :
  attachChild this a h = (h', Ret c) -> c = argChild a.
Proof.
  destruct a as [e|s]; cbn.
  - intros H. apply bind_Ret_inv in H as (shadow & h1 & _ & H).
    apply bind_Ret_inv in H as ([] & h2 & _ & H). by injection H as _ <-.
  - by intros [= _ <-].
Qed.

(** What the second loop leaves on [tmp]: the arguments, in their order. *)
Lemma mapM_attachChild_Ret this args h h' tmp :
  mapM (attachChild this) args h = (h', Ret tmp) -> tmp = map argChild args.
Proof.
  revert h h' tmp. induction args as [|a args IH]; intros h h' tmp; cbn.
  - by intros [= _ <-].
  - intros H. apply bind_Ret_inv in H as (c & h1 & Hc & H).
    apply bind_Ret_inv in H as (cs & h2 & Hcs & H). injection H as _ <-.
    apply attachChild_Ret in Hc as ->. by rewrite (IH _ _ _ Hcs).
Qed.

Lemma forEach_Ret_all {A} (f : A -> M unit) l h :
  (forall x, readOnly (f x)) ->
  (forEach f l h).2 = Ret tt -> Forall (fun x => (f x h).2 = Ret tt) l.
Proof.
  intros Hro. induction l as [|x l IH]; cbn [forEach]; [constructor|].
  rewrite bind_unfold. pose proof (Hro x h) as Hx.
  destruct (f x h) as [h1 [[]| | |]] eqn:E; cbn in *; subst; try done.
  intros H. constructor; [by rewrite E|by apply IH].
Qed.

(** An Element argument that the first loop accepts is alive and without
    parent, is not the receiver, and the receiver is not of a raw-text
    category. *)
Lemma validateChild_element_Ret this c h :
  (validateChild this (AElement c) h).2 = Ret tt ->
  c <> this
  /\ (exists cs, h !! c = Some cs /\ parent cs = None)
  /\ exists shadow, h !! this = Some shadow /\ raw shadow = false.
Proof.
  rewrite validateChild_element_unfold.
  destruct (h !! c) as [cs|]; [|done]. destruct (parent cs) eqn:Hp; [done|].
  destruct (h !! this) as [shadow|]; [|done].
  destruct (raw shadow) eqn:Hr; [done|].
  rewrite ancestorWalk_unfold. destruct (Nat.eqb_spec this c); [done|].
  intros _. split; [done|]. split; eauto.
Qed.

Lemma sound_append this args : sound (append this args).
Proof.
  intros h. rewrite append_unfold.
  destruct (h !! this) as [shadow|] eqn:Hl; [|apply evolves_refl].
  destruct (void shadow) eqn:Hv; [apply evolves_refl|].
  destruct (negb (escapable shadow)); [apply evolves_refl|].
  destruct (forEach (validateChild this) args h).2 as [[]| | |] eqn:Hval;
    try apply evolves_refl.
  rewrite bind_unfold.
  pose proof (sound_mapM _ args (sound_attachChild this) h) as Hev.
  destruct (mapM (attachChild this) args h) as [h2 [tmp| | |]] eqn:Hm;
    cbn [fst snd] in *; try done.
  apply mapM_attachChild_Ret in Hm as ->.
  eapply evolves_trans; [exact Hev|].
  unfold modify. destruct (h2 !! this) as [s2|] eqn:Hl2; cbn [fst];
    [|apply evolves_refl].
  destruct Hev as [_ Hev]. specialize (Hev _ _ Hl2). rewrite Hl in Hev.
  destruct Hev as [Hst _]. injection Hst as _ _ Hv2 Hr2 _.
  apply (evolves_insert h2 this s2
    (fun s => with_children (children s ++ map Some (map argChild args)) s));
    [done|done|].
  intros []. constructor; cbn; try done.
  - congruence.
  - intros Hr. apply Forall_app. split; [by apply wf_raw_children0|].
    apply forEach_Ret_all in Hval; [|apply readOnly_validateChild].
    rewrite Forall_forall in Hval. apply Forall_forall. intros x Hx.
    apply list_elem_of_fmap in Hx as (ch & -> & Hch).
    apply list_elem_of_fmap in Hch as (a & -> & Ha).
    destruct a as [e|t]; [|done]. exfalso.
    destruct (validateChild_element_Ret _ _ _ (Hval _ Ha))
      as (_ & _ & sh' & Hsh' & Hraw').
    congruence.
Qed.

Lemma sound_set_innerText this text : sound (set_innerText this text).
Proof.
  apply sound_bind; [apply sound_clear|]. intros; apply sound_append.
Qed.

Lemma sound_Document_new : sound Document.new.
Proof.
  unfold Document.new, Document.createElement.
  repeat first
    [ apply sound_bind; [first [apply sound_newElement | apply sound_setAttribute
                               | apply sound_append]|]; intros ?
    | apply sound_ret ].
Qed.

Lemma sound_exec op h : evolves h (exec op h).
Proof.
  destruct op; cbn [exec].
  - apply sound_newElement.
  - apply sound_append.
  - apply sound_remove.
  - apply sound_clear.
  - apply sound_setAttribute.
  - apply sound_removeAttribute.
  - apply sound_set_innerText.
  - apply sound_Document_new.
  - apply sound_set_innerText.
Qed.

(** Every shadow of a reachable heap satisfies the invariants. *)
Lemma Reachable_wf h : Reachable h -> Forall wf_shadow h.
Proof.
  induction 1 as [|h op Hr IH]; [constructor|].
  destruct (sound_exec op h) as [_ Hev].
  apply Forall_lookup. intros o s' Hl. specialize (Hev _ _ Hl).
  destruct (h !! o) as [s|] eqn:Hl0; [|done].
  apply Hev. rewrite Forall_lookup in IH. by eapply IH.
Qed.

(** No operation changes the static properties of an object. *)
Lemma evolves_static h h' o s :
  evolves h h' -> h !! o = Some s ->
  exists s', h' !! o = Some s' /\ static s' = static s.
Proof.
  intros [Hlen Hev] Hl.
  destruct (lookup_lt_is_Some_2 h' o) as [s' Hl'].
  { apply lookup_lt_Some in Hl. lia. }
  exists s'. split; [done|]. specialize (Hev _ _ Hl'). rewrite Hl in Hev. tauto.
Qed.

Lemma Reachable_execAll ops h : Reachable h -> Reachable (execAll ops h).
Proof.
  revert h. induction ops as [|op ops IH]; intros h Hr; [done|].
  apply IH. by constructor.
Qed.

Lemma evolves_execAll ops h : evolves h (execAll ops h).
Proof.
  revert h. induction ops as [|op ops IH]; intros h; [apply evolves_refl|].
  eapply evolves_trans; [apply sound_exec|apply IH].
Qed.

(** ** Void elements *)

(** C8: in every heap a program can reach, an Element whose lower-cased name
    is in the void set has an empty children array; every [append] on it
    throws 'Void element' and leaves the heap as it is; and whatever is done
    next, the element is still there with an empty children array. *)
Theorem C8_void_children_stay_empty (h : Heap) (e : nat) (s : Shadow) :
  Reachable h -> h !! e = Some s ->
  In (toLowerCase (realName s)) VOID_ELEMENTS ->
  children s = []
  /\ (forall args, append e args h = (h, Throw VoidElement))
  /\ forall op, exists s',
       exec op h !! e = Some s' /\ realName s' = realName s /\ children s' = [].
Proof.
  intros Hr Hl Hin.
  assert (Hvoid : forall h' s', Reachable h' -> h' !! e = Some s' ->
            realName s' = realName s -> void s' = true /\ children s' = []).
  { intros h' s' Hr' Hl' Hn. apply Reachable_wf in Hr'.
    rewrite Forall_lookup in Hr'. destruct (Hr' _ _ Hl') as [].
    assert (void s' = true) as Hv.
    { rewrite wf_void0, wf_name0, Hn. by apply includes_In. }
    auto. }
  destruct (Hvoid h s Hr Hl eq_refl) as [Hv Hc].
  split; [done|]. split.
  - intros args. by rewrite append_unfold, Hl, Hv.
  - intros op.
    destruct (evolves_static _ _ _ _ (sound_exec op h) Hl) as (s' & Hl' & Hst).
    injection Hst as Hn _ _ _ _. exists s'. split; [done|]. split; [done|].
    eapply Hvoid; [by constructor|done..].
Qed.

(** C8 at [new Element ('br')]: [append ('x')] throws 'Void element'. *)
Lemma C8_void_children_stay_empty_witness :
  children (newShadow (js "br")) = []
  /\ (forall args, append 0 args (exec (OpNewElement (js "br")) [])
                   = (exec (OpNewElement (js "br")) [], Throw VoidElement))
  /\ forall op, exists s',
       exec op (exec (OpNewElement (js "br")) []) !! 0%nat = Some s'
       /\ realName s' = realName (newShadow (js "br")) /\ children s' = [].
Proof.
  apply (C8_void_children_stay_empty (exec (OpNewElement (js "br")) []) 0
           (newShadow (js "br"))).
  - apply reach_step, reach_init.
  - reflexivity.
  - vm_compute. tauto.
Defined.

(** ** The title of a Document *)

Lemma newElement_Ret_inv tagName h h' e :
  newElement tagName h = (h', Ret e) ->
  validateToken tagName = true /\ e = length h /\ h' = h ++ [newShadow tagName].
Proof.
  unfold newElement. destruct (validateToken tagName); cbn [negb]; [|done].
  by intros [= <- <-].
Qed.

(** The title Element of a new Document: alive, and a 'title'. *)
Lemma Document_new_title h0 h1 d :
  Document.new h0 = (h1, Ret d) ->
  exists s, h1 !! Document.title d = Some s
            /\ static s = static (newShadow (js "title")).
Proof.
  unfold Document.new, Document.createElement. intros H.
  do 10 (apply bind_Ret_inv in H as (? & ? & _ & H)).
  apply bind_Ret_inv in H as (t & ht & Ht & H).
  apply bind_Ret_inv in H as ([] & ha & Ha & H).
  injection H as <- <-. cbn [Document.title].
  apply newElement_Ret_inv in Ht as (_ & -> & ->).
  match type of Ha with
  | append ?p ?args ?hh = _ => pose proof (sound_append p args hh) as Hev
  end.
  rewrite Ha in Hev. eapply evolves_static; [exact Hev|].
  by rewrite lookup_app_r, Nat.sub_diag.
Qed.

(** On an array without Elements the loop of [clear] does nothing. *)
Lemma clearLoop_no_elements n this i h shadow :
  h !! this = Some shadow ->
  Forall (fun c => isElementEntry c = false) (children shadow) ->
  clearLoop n this i h = (h, Ret tt).
Proof.
  intros Hl Hall. revert i. induction n as [|n IH]; intros i; [done|].
  cbn [clearLoop]. unfold bind at 1. rewrite getShadow_unfold, Hl.
  destruct (children shadow !! i) as [[[c|s]|]|] eqn:Hi; try apply IH.
  rewrite Forall_lookup in Hall. by specialize (Hall _ _ Hi).
Qed.

(** The setter on an Element that takes text and holds no Element. *)
Lemma set_innerText_text_only this text h shadow :
  h !! this = Some shadow -> void shadow = false -> escapable shadow = true ->
  Forall (fun c => isElementEntry c = false) (children shadow) ->
  validateText text = true ->
  set_innerText this text h
  = (<[this := with_children [Some (CText text)] shadow]> h, Ret tt).
Proof.
  intros Hl Hv He Hall Ht.
  assert (Hlt : (this < length h)%nat) by (by eapply lookup_lt_Some).
  unfold set_innerText, clear.
  unfold bind at 1. unfold bind at 1. rewrite getShadow_unfold, Hl.
  unfold bind at 1. rewrite (clearLoop_no_elements _ _ _ _ _ Hl Hall).
  unfold modify at 1. rewrite Hl.
  rewrite append_unfold, list_lookup_insert_eq by done.
  cbn [void escapable with_children]. rewrite Hv, He. cbn [negb].
  destruct (forEach_one (validateChild this) (AText text)
              (<[this:=with_children [] shadow]> h)) as [-> _].
  cbn [validateChild]. rewrite Ht. cbn [negb ret snd].
  cbn [mapM attachChild]. unfold bind, ret, modify.
  rewrite list_lookup_insert_eq by done.
  by rewrite list_insert_insert_eq.
Qed.

(** The getter on an Element whose only child is a valid text. *)
Lemma get_innerText_one_text this text h shadow :
  h !! this = Some shadow -> children shadow = [Some (CText text)] ->
  validateText text = true ->
  get_innerText h this = Ret (escapeChain text).
Proof.
  intros Hl Hc Ht. unfold get_innerText. cbn [innerText_fuel].
  rewrite Hl, Hc. cbn [concatChildren]. rewrite (escapeText_valid _ Ht).
  cbn. by rewrite app_nil_r.
Qed.

Lemma escapeUnit_length c : (1 <= length (escapeUnit c))%nat.
Proof. unfold escapeUnit. eqb_cases c; cbn; lia. Qed.

Lemma escapeChain_length s : (length s <= length (escapeChain s))%nat.
Proof.
  rewrite escapeChain_flat_map. induction s as [|c s IH]; [done|].
  cbn [flat_map]. rewrite length_app. pose proof (escapeUnit_length c). cbn. lia.
Qed.

(** Escaping gives the string back exactly when there is nothing to
    escape. *)
Lemma escapeChain_fixed s :
  escapeChain s = s <-> Forall (fun c => ~ In c [0x26; 0x3C; 0x3E; 0x27; 0x22]) s.
Proof.
  induction s as [|c s IH]; [split; [constructor|done]|].
  rewrite Forall_cons, <- IH, !escapeChain_flat_map. cbn [flat_map].
  pose proof (escapeChain_length s) as Hlen. rewrite escapeChain_flat_map in Hlen.
  clear IH. remember (flat_map escapeUnit s) as t eqn:Et. clear Et.
  unfold escapeUnit. eqb_cases c.
  - split; [|intros [Hn _]; exfalso; apply Hn; cbn; tauto].
    intros [= H]. subst s. cbn in Hlen. lia.
  - split; [done|intros [Hn _]; exfalso; apply Hn; cbn; tauto].
  - split; [done|intros [Hn _]; exfalso; apply Hn; cbn; tauto].
  - split; [done|intros [Hn _]; exfalso; apply Hn; cbn; tauto].
  - split; [done|intros [Hn _]; exfalso; apply Hn; cbn; tauto].
  - cbn [app]. split.
    + intros [= H]. split; [|done].
      intros [?|[?|[?|[?|[?|[]]]]]]; congruence.
    + intros [_ ->]. done.
Qed.

(** C3, as the code has it.  For a Document made by [new Document ()] in
    any reachable heap, after any further operations, and for every string
    [s] that [validateText] accepts: setting the title to [s] returns, and
    reading the title then yields the escaped form of [s], the result of the
    five replacements of [escapeText]; that is [s] itself exactly when [s]
    has none of the five escaped characters. *)
Theorem C3_title_reads_back_escaped
    (h0 h1 : Heap) (d : Document.t) (ops : list Op) (s : js_string) :
  Reachable h0 -> Document.new h0 = (h1, Ret d) -> validateText s = true ->
  exists h3,
    Document.set_title d s (execAll ops h1) = (h3, Ret tt)
    /\ Document.get_title d h3 = (h3, Ret (escapeChain s))
    /\ (escapeChain s = s <->
        Forall (fun c => ~ In c [0x26; 0x3C; 0x3E; 0x27; 0x22]) s).
Proof.
  intros Hr Hnew Hs.
  destruct (Document_new_title _ _ _ Hnew) as (s1 & Hl1 & Hst1).
  assert (Hr1 : Reachable h1).
  { replace h1 with (exec OpNewDocument h0) by (cbn; by rewrite Hnew).
    by constructor. }
  destruct (evolves_static _ _ _ _ (evolves_execAll ops h1) Hl1)
    as (s2 & Hl2 & Hst2).
  pose proof (Reachable_wf _ (Reachable_execAll ops _ Hr1)) as Hwf.
  rewrite Forall_lookup in Hwf. specialize (Hwf _ _ Hl2).
  rewrite Hst1 in Hst2. injection Hst2 as _ _ Hv Hraw Hesc.
  change (void s2 = false) in Hv. change (raw s2 = true) in Hraw.
  change (escapable s2 = true) in Hesc.
  eexists. split; [|split; [|apply escapeChain_fixed]].
  - unfold Document.set_title.
    apply (set_innerText_text_only _ _ _ _ Hl2 Hv Hesc); [|done].
    by apply (wf_raw_children _ Hwf).
  - unfold Document.get_title. f_equal.
    apply (get_innerText_one_text _ s _ (with_children [Some (CText s)] s2));
      [|reflexivity|done].
    apply list_lookup_insert_eq. by eapply lookup_lt_Some.
Qed.

(** C3 as the specification states it fails at its own example: after
    [document.title = 'Hello & <you>'] the title reads
    'Hello &amp; &lt;you&gt;'. *)
Lemma C3_counterexample :
  validateText (js "Hello & <you>") = true
  /\ Document.new [] = (heap_document, Ret the_document)
  /\ exists h3,
       Document.set_title the_document (js "Hello & <you>") heap_document
       = (h3, Ret tt)
       /\ Document.get_title the_document h3
          = (h3, Ret (js "Hello &amp; &lt;you&gt;"))
       /\ js "Hello &amp; &lt;you&gt;" <> js "Hello & <you>".
Proof.
  split; [by vm_compute|]. split; [by vm_compute|].
  eexists. split; [vm_compute; reflexivity|]. split; [by vm_compute|].
  by vm_compute.
Qed.

(** C3 at the specification's example, on a fresh Document. *)
Lemma C3_title_reads_back_escaped_witness :
  exists h3,
    Document.set_title the_document (js "Hello & <you>")
      (execAll [] heap_document) = (h3, Ret tt)
    /\ Document.get_title the_document h3
       = (h3, Ret (escapeChain (js "Hello & <you>")))
    /\ (escapeChain (js "Hello & <you>") = js "Hello & <you>" <->
        Forall (fun c => ~ In c [0x26; 0x3C; 0x3E; 0x27; 0x22])
               (js "Hello & <you>")).
Proof.
  apply (C3_title_reads_back_escaped [] heap_document the_document []
           (js "Hello & <you>")).
  - apply reach_init.
  - by vm_compute.
  - by vm_compute.
Defined.

(** ** Sorting the attribute names *)

Lemma insertKey_Permutation k l : Permutation (insertKey k l) (k :: l).
Proof.
  induction l as [|k' l IH]; cbn; [done|].
  destruct (str_ltb k' k); [|done].
  rewrite IH. apply perm_swap.
Qed.

Lemma sortKeys_Permutation l : Permutation (sortKeys l) l.
Proof.
  induction l as [|k l IH]; cbn; [done|].
  rewrite insertKey_Permutation. by constructor.
Qed.

Lemma str_ltb_irrefl a : str_ltb a a = false.
Proof.
  induction a as [|x a IH]; cbn; [done|].
  rewrite Z.ltb_irrefl, Z.eqb_refl, IH. done.
Qed.

Lemma str_ltb_asym a b : str_ltb a b = true -> str_ltb b a = false.
Proof.
  revert b. induction a as [|x a IH]; intros [|y b]; cbn; try done.
  rewrite orb_true_iff, andb_true_iff, orb_false_iff, andb_false_iff.
  rewrite Z.ltb_lt, Z.eqb_eq, Z.ltb_ge, Z.eqb_neq.
  intros [Hlt|[-> Hab]]; [lia|]. split; [lia|]. right. by apply IH.
Qed.

Lemma str_ltb_trichotomy a b :
  str_ltb a b = true \/ a = b \/ str_ltb b a = true.
Proof.
  revert b. induction a as [|x a IH]; intros [|y b]; cbn; try tauto.
  destruct (Z.lt_trichotomy x y) as [H|[->|H]].
  - left. apply orb_true_iff. left. by apply Z.ltb_lt.
  - rewrite Z.ltb_irrefl, Z.eqb_refl. cbn.
    destruct (IH b) as [?|[->|?]]; tauto.
  - right. right. apply orb_true_iff. left. by apply Z.ltb_lt.
Qed.

Lemma insertKey_HdRel x k l :
  sortLe x k -> HdRel sortLe x l -> HdRel sortLe x (insertKey k l).
Proof.
  intros Hxk Hl. destruct l as [|k' l]; cbn; [by constructor|].
  inversion Hl; subst. destruct (str_ltb k' k); by constructor.
Qed.

Lemma insertKey_Sorted k l : Sorted sortLe l -> Sorted sortLe (insertKey k l).
Proof.
  induction 1 as [|k' l Hs IH Hhd]; cbn.
  - by repeat constructor.
  - destruct (str_ltb k' k) eqn:E.
    + constructor; [done|]. apply insertKey_HdRel; [|done].
      by apply str_ltb_asym.
    + constructor; [by constructor|]. by constructor.
Qed.

Lemma sortKeys_Sorted l : Sorted sortLe (sortKeys l).
Proof.
  induction l as [|k l IH]; cbn; [constructor|]. by apply insertKey_Sorted.
Qed.

(** Without repetitions, a sorted list is strictly ascending. *)
Lemma Sorted_strict l :
  NoDup l -> Sorted sortLe l -> Sorted (fun a b => str_ltb a b = true) l.
Proof.
  intros Hnd. induction 1 as [|a l Hs IH Hhd]; [constructor|].
  apply NoDup_cons in Hnd as [Hni Hnd]. constructor; [by apply IH|].
  destruct Hhd as [|b l Hab]; constructor.
  destruct (str_ltb_trichotomy a b) as [?|[->|Hba]]; [done| |].
  - exfalso. apply Hni. by left.
  - unfold sortLe in Hab. congruence.
Qed.

Lemma Sorted_weaken {A} (R R' : A -> A -> Prop) (P : A -> Prop) l :
  (forall a b, P a -> P b -> R a b -> R' a b) ->
  Forall P l -> Sorted R l -> Sorted R' l.
Proof.
  intros HR Hall. induction 1 as [|a l Hs IH Hhd]; [constructor|].
  apply Forall_cons in Hall as [Ha Hl]. constructor; [by apply IH|].
  destruct Hhd as [|b l Hab]; constructor.
  apply Forall_cons in Hl as [Hb _]. by apply HR.
Qed.

(** ** Names are ASCII *)

Lemma codePoints_below s :
  Forall (fun c => c < 0xD800) (codePoints s) -> codePoints s = s.
Proof.
  induction s as [|u s IH]; [done|]. cbn [codePoints].
  destruct s as [|l s']; [done|].
  destruct (isHighSurrogate u && isLowSurrogate l) eqn:E.
  - intros H. apply Forall_cons in H as [H _]. exfalso.
    apply andb_true_iff in E as [Eh El].
    unfold isHighSurrogate, isLowSurrogate in *.
    apply andb_true_iff in Eh as [Eh _]. apply andb_true_iff in El as [El _].
    apply Z.leb_le in Eh, El. lia.
  - intros H. apply Forall_cons in H as [_ H]. by rewrite IH.
Qed.

Lemma nameChar_below c : nameChar c = true -> c < 0xD800.
Proof.
  unfold nameChar. rewrite !orb_true_iff, !inRange_spec, !Z.eqb_eq. lia.
Qed.

Lemma nameStartChar_below c : nameStartChar c = true -> c < 0xD800.
Proof.
  unfold nameStartChar. rewrite !orb_true_iff, !inRange_spec, !Z.eqb_eq. lia.
Qed.

Lemma spanNameChars_spec cs a b :
  spanNameChars cs = (a, b) ->
  cs = a ++ b /\ Forall (fun c => nameChar c = true) a.
Proof.
  revert a b. induction cs as [|c cs IH]; intros a b; cbn.
  - intros [= <- <-]. by split.
  - destruct (nameChar c) eqn:E.
    + destruct (spanNameChars cs) as [a' b'] eqn:Es. intros [= <- <-].
      destruct (IH _ _ eq_refl) as [-> Hall]. split; [done|by constructor].
    + intros [= <- <-]. by split.
Qed.

Lemma validateToken_codePoints token :
  validateToken token = true -> codePoints token = token.
Proof.
  intros H. apply codePoints_below. unfold validateToken in H.
  destruct (codePoints token) as [|c rest]; [done|].
  apply andb_true_iff in H as [Hc H]. constructor; [by apply nameStartChar_below|].
  destruct (spanNameChars rest) as [a b] eqn:Es.
  apply spanNameChars_spec in Es as [-> Ha]. apply Forall_app. split.
  - eapply Forall_impl; [exact Ha|]. apply nameChar_below.
  - destruct b as [|d local]; [constructor|].
    apply andb_true_iff in H as [Hd Hl]. apply Z.eqb_eq in Hd. subst d.
    constructor; [lia|]. unfold ncName in Hl. destruct local as [|c2 r2]; [done|].
    apply andb_true_iff in Hl as [Hc2 Hr2]. constructor; [by apply nameStartChar_below|].
    apply Forall_forall. intros x Hx. apply nameChar_below.
    rewrite forallb_forall in Hr2. apply Hr2. by apply list_elem_of_In.
Qed.

(** ** Serializing the attributes *)

Lemma getProperty_In k o v : getProperty k o = Some v -> In (k, v) o.
Proof.
  induction o as [|[k' v'] o IH]; cbn; [done|].
  destruct (str_eqb k' k) eqn:E.
  - apply str_eqb_eq in E. intros [= ->]. left. by subst.
  - intros H. right. by apply IH.
Qed.

Lemma getProperty_own k o : In k (ownKeys o) -> is_Some (getProperty k o).
Proof.
  unfold ownKeys. induction o as [|[k' v'] o IH]; cbn; [done|].
  destruct (str_eqb k' k) eqn:E; [eauto|].
  intros [->|H]; [|by apply IH]. by rewrite str_eqb_refl in E.
Qed.

(** With its key, each value of the object: the object itself, when no key
    occurs twice. *)
Lemma entries_of_ownKeys o :
  NoDup (ownKeys o) ->
  map (fun k => (k, default [] (getProperty k o))) (ownKeys o) = o.
Proof.
  unfold ownKeys. induction o as [|[k v] o IH]; [done|].
  cbn [map fst]. intros Hnd. apply NoDup_cons in Hnd as [Hni Hnd].
  cbn [getProperty]. rewrite str_eqb_refl. cbn [default]. f_equal.
  rewrite <- (IH Hnd) at 2. apply map_ext_in. intros k' Hk'. f_equal.
  destruct (str_eqb k k') eqn:E; [|done].
  apply str_eqb_eq in E. subst. exfalso. apply Hni. by apply list_elem_of_In.
Qed.

Lemma serializeAttributes_spec o keys :
  Forall (fun kv => validateText kv.2 = true) o ->
  (forall k, In k keys -> In k (ownKeys o)) ->
  serializeAttributes o keys
  = Ret (flat_map renderAttribute
           (map (fun k => (k, default [] (getProperty k o))) keys)).
Proof.
  intros Hval. induction keys as [|k keys IH]; intros Hsub; [done|].
  cbn [serializeAttributes map flat_map].
  destruct (getProperty_own k o) as [v Hv]; [apply Hsub; by left|].
  rewrite Hv. cbn [default].
  rewrite Forall_forall in Hval.
  rewrite (escapeText_valid v).
  2:{ apply (Hval (k, v)). apply list_elem_of_In. by apply getProperty_In. }
  cbn [obind]. rewrite IH by (intros; apply Hsub; by right). cbn [obind].
  unfold renderAttribute at 2. cbn [fst snd]. by rewrite <- !app_assoc.
Qed.

(** C6: in every reachable heap, [get outerHTML] of an Element returns '<'
    and the real name, then the attributes, each as a tab, the name, '=',
    and the escaped value between single quotes, the names strictly ascending
    in code-point order, then '/>' for a void Element and otherwise '>', the
    inner HTML, and the closing tag (when [get innerHTML] returns).  For the
    'div' of the specification's example, whose [data-x] holds an apostrophe,
    a double quote, both angle brackets and an ampersand, the result is the
    string the specification gives. *)
Theorem C6_outerHTML_format :
  (forall (h : Heap) (e : nat) (s : Shadow) (inner : js_string),
     Reachable h -> h !! e = Some s ->
     (void s = false -> get_innerHTML h e = Ret inner) ->
     exists attrs,
       Permutation attrs (attributes s)
       /\ Sorted codePointLt (map fst attrs)
       /\ get_outerHTML h e
          = Ret (js "<" ++ realName s ++ flat_map renderAttribute attrs
                 ++ (if void s then js "/>"
                     else js ">" ++ inner ++ js "</" ++ realName s ++ js ">")))
  /\ ((let* e := newElement (js "div") in
       setAttribute e (js "data-x") (js "a'b" ++ [0x22] ++ js "c<d>e&f") >>
       fun h => (h, get_outerHTML h e)) []).2
     = Ret (js "<div" ++ TAB
            ++ js "data-x='a&apos;b&quot;c&lt;d&gt;e&amp;f'></div>").
Proof.
  split; [|by vm_compute].
  intros h e s inner Hr Hl Hin.
  apply Reachable_wf in Hr. rewrite Forall_lookup in Hr.
  destruct (Hr _ _ Hl) as [_ _ _ _ _ _ _ Hnd Hattrs].
  set (keys := sortKeys (ownKeys (attributes s))).
  exists (map (fun k => (k, default [] (getProperty k (attributes s)))) keys).
  assert (Hperm : Permutation keys (ownKeys (attributes s)))
    by apply sortKeys_Permutation.
  split; [|split].
  - eapply Permutation_trans; [apply Permutation_map, Hperm|].
    by rewrite (entries_of_ownKeys _ Hnd).
  - rewrite map_map. cbn [fst]. rewrite map_id.
    apply (Sorted_weaken (fun a b => str_ltb a b = true) codePointLt
             (fun k => validateToken k = true)).
    + intros a b Ha Hb Hab. unfold codePointLt.
      by rewrite !validateToken_codePoints.
    + apply Forall_forall. intros k Hk. rewrite Hperm in Hk.
      unfold ownKeys in Hk. apply list_elem_of_fmap in Hk as (kv & -> & Hkv).
      rewrite Forall_forall in Hattrs. by apply Hattrs.
    + apply Sorted_strict; [|apply sortKeys_Sorted]. by rewrite Hperm.
  - unfold get_outerHTML. cbn [outerHTML_fuel]. rewrite Hl.
    fold keys. rewrite serializeAttributes_spec.
    + cbn [obind]. destruct (void s) eqn:Hv; [done|].
      unfold get_innerHTML in Hin. rewrite Hl in Hin. by rewrite (Hin eq_refl).
    + eapply Forall_impl; [exact Hattrs|]. by intros kv [_ ?].
    + intros k Hk. apply list_elem_of_In. rewrite <- Hperm.
      by apply list_elem_of_In.
Qed.

(** C6 at the root of a fresh Document, whose two attributes were set in
    the order [xmlns], [xmlns:xlink]. *)
Lemma C6_outerHTML_format_witness :
  exists attrs,
    Permutation attrs
      [(js "xmlns", Document.XHTML_NS); (js "xmlns:xlink", Document.XLINK_NS)]
    /\ Sorted codePointLt (map fst attrs)
    /\ get_outerHTML heap_document 0
       = Ret (js "<" ++ js "html" ++ flat_map renderAttribute attrs
              ++ js ">"
              ++ js "<head><meta" ++ TAB
              ++ js "charset='UTF-8'/><title></title></head><body></body>"
              ++ js "</" ++ js "html" ++ js ">").
Proof.
  assert (Hr : Reachable heap_document).
  { apply (reach_step [] OpNewDocument reach_init). }
  exact (proj1 C6_outerHTML_format heap_document 0%nat
           (default (newShadow []) (heap_document !! 0%nat)) _ Hr eq_refl
           (fun _ => eq_refl)).
Defined.

(** ** A successful [append] of one Element *)

Lemma bind_Ret {A B} (m : M A) (k : A -> M B) h h' a :
  m h = (h', Ret a) -> bind m k h = k a h'.
Proof. intros H. unfold bind. by rewrite H. Qed.

Lemma modify_Ret o f h s :
  h !! o = Some s -> modify o f h = (<[o := f s]> h, Ret tt).
Proof. intros H. unfold modify. by rewrite H. Qed.

Lemma append_one_element_Ret this c h s cs :
  h !! this = Some s -> void s = false -> escapable s = true -> raw s = false ->
  h !! c = Some cs -> parent cs = None ->
  ancestorWalk (S (length h)) this c h = (h, Ret tt) ->
  append this [AElement c] h
  = (<[this := with_children (children s ++ [Some (CElement c)]) s]>
       (<[c := with_parent (Some this) (Some (length (children s))) cs]> h),
     Ret tt).
Proof.
  intros Hl Hv He Hr Hc Hp Hw.
  assert (Hne : c <> this).
  { intros ->. rewrite ancestorWalk_unfold, Nat.eqb_refl in Hw. done. }
  rewrite append_unfold, Hl, Hv, He. cbn [negb].
  destruct (forEach_one (validateChild this) (AElement c) h) as [-> _].
  rewrite validateChild_element_unfold, Hc, Hp, Hl, Hr, Hw. cbn [snd].
  cbn [mapM attachChild]. unfold bind, ret.
  rewrite getShadow_unfold, Hl. rewrite (modify_Ret _ _ _ _ Hc).
  rewrite (modify_Ret _ _ _ s); [done|].
  by rewrite list_lookup_insert_ne.
Qed.

(** ** Operations on the youngest objects *)

Lemma lookup_suffix (h0 l : Heap) k : (h0 ++ l) !! (length h0 + k)%nat = l !! k.
Proof. rewrite lookup_app_r by lia. f_equal. lia. Qed.

Lemma lookup_suffix_0 (h0 l : Heap) : (h0 ++ l) !! length h0 = l !! 0%nat.
Proof. rewrite <- (lookup_suffix h0 l 0). f_equal. lia. Qed.

Lemma newElement_suffix tagName (h0 l : Heap) :
  validateToken tagName = true ->
  newElement tagName (h0 ++ l)
  = (h0 ++ (l ++ [newShadow tagName]), Ret (length h0 + length l)%nat).
Proof.
  intros H. unfold newElement. rewrite H. cbn [negb].
  by rewrite length_app, <- app_assoc.
Qed.

Lemma setAttribute_suffix (h0 l : Heap) k s aname value :
  l !! k = Some s -> validateToken aname = true -> validateText value = true ->
  setAttribute (length h0 + k) aname value (h0 ++ l)
  = (h0 ++ <[k := with_attributes (setProperty aname value (attributes s)) s]> l,
     Ret tt).
Proof.
  intros Hl Hn Hv. unfold setAttribute, bind.
  rewrite getShadow_unfold, lookup_suffix, Hl, Hn, Hv. cbn [negb].
  erewrite modify_Ret by (by rewrite lookup_suffix).
  by rewrite insert_app_r.
Qed.

(** [append] of a parentless Element to an ordinary one, both among the
    youngest objects, when the walk up from the receiver ends at a root
    without meeting the argument. *)
Lemma append_suffix (h0 l : Heap) k j s cs m :
  l !! k = Some s -> void s = false -> escapable s = true -> raw s = false ->
  l !! j = Some cs -> parent cs = None ->
  walkSteps (h0 ++ l) (length h0 + j) (length h0 + k) m (Ret tt) ->
  append (length h0 + k) [AElement (length h0 + j)%nat] (h0 ++ l)
  = (h0 ++ <[k := with_children (children s ++ [Some (CElement (length h0 + j))]) s]>
             (<[j := with_parent (Some (length h0 + k)%nat)
                       (Some (length (children s))) cs]> l),
     Ret tt).
Proof.
  intros Hl Hv He Hr Hc Hp Hw.
  erewrite append_one_element_Ret;
    [|by rewrite lookup_suffix|done..|by rewrite lookup_suffix|done|].
  - by rewrite !insert_app_r.
  - apply (walkSteps_run _ _ _ _ _ Hw). by eapply walkSteps_bound.
Qed.

Lemma walkSteps_suffix_root (h0 l : Heap) k j s :
  l !! k = Some s -> parent s = None -> k <> j ->
  walkSteps (h0 ++ l) (length h0 + j) (length h0 + k) 1 (Ret tt).
Proof.
  intros Hl Hp Hne. eapply ws_root; [lia|by rewrite lookup_suffix|done].
Qed.

Lemma walkSteps_suffix_child (h0 l : Heap) k j p s ps :
  l !! k = Some s -> parent s = Some (length h0 + p)%nat -> k <> j ->
  l !! p = Some ps -> parent ps = None -> p <> j ->
  walkSteps (h0 ++ l) (length h0 + j) (length h0 + k) 2 (Ret tt).
Proof.
  intros Hl Hp Hne Hlp Hpp Hnp.
  eapply ws_up; [lia|by rewrite lookup_suffix|done|].
  by eapply walkSteps_suffix_root.
Qed.

(** [new Document ()], whatever is alive already. *)
Lemma Document_new_eval (h0 : Heap) :
  Document.new h0
  = (h0 ++ documentShadows (length h0),
     Ret (Document.mk (length h0) (length h0 + 1) (length h0 + 2)
            (length h0 + 3) (length h0 + 4))).
Proof.
  unfold Document.new, Document.createElement.
  rewrite <- (app_nil_r h0) at 1.
  erewrite bind_Ret; [|by apply newElement_suffix].
  cbn [length app].
  erewrite bind_Ret; [|by apply setAttribute_suffix].
  cbn [insert list_insert].
  erewrite bind_Ret; [|by apply setAttribute_suffix].
  cbn [insert list_insert].
  erewrite bind_Ret; [|by apply newElement_suffix].
  cbn [length app].
  erewrite bind_Ret;
    [|eapply append_suffix;
      [reflexivity..|eapply walkSteps_suffix_root; [reflexivity|reflexivity|lia]]].
  cbn [insert list_insert].
  erewrite bind_Ret; [|by apply newElement_suffix].
  cbn [length app].
  erewrite bind_Ret;
    [|eapply append_suffix;
      [reflexivity..|eapply walkSteps_suffix_root; [reflexivity|reflexivity|lia]]].
  cbn [insert list_insert].
  erewrite bind_Ret; [|by apply newElement_suffix].
  cbn [length app].
  erewrite bind_Ret; [|by apply setAttribute_suffix].
  cbn [insert list_insert].
  erewrite bind_Ret;
    [|eapply append_suffix;
      [reflexivity..
      |eapply (walkSteps_suffix_child _ _ _ _ 0);
         [reflexivity|reflexivity|lia|reflexivity|reflexivity|lia]]].
  cbn [insert list_insert].
  erewrite bind_Ret; [|by apply newElement_suffix].
  cbn [length app].
  erewrite bind_Ret;
    [|eapply append_suffix;
      [reflexivity..
      |eapply (walkSteps_suffix_child _ _ _ _ 0);
         [reflexivity|reflexivity|lia|reflexivity|reflexivity|lia]]].
  cbn [insert list_insert].
  unfold ret. rewrite !Nat.add_0_r. reflexivity.
Qed.

(** ** The markup of a new Document *)

Lemma outerHTML_fuel_unfold fuel h this :
  outerHTML_fuel (S fuel) h this =
  match h !! this with
  | None => Stuck
  | Some shadow =>
      obind (serializeAttributes (attributes shadow)
               (sortKeys (ownKeys (attributes shadow)))) (fun attrs =>
      if void shadow
      then Ret (js "<" ++ realName shadow ++ attrs ++ js "/>")
      else
        obind (concatChildren (outerHTML_fuel fuel h) (children shadow))
          (fun inner =>
        Ret (js "<" ++ realName shadow ++ attrs ++ js ">" ++ inner
             ++ js "</" ++ realName shadow ++ js ">")))
  end.
Proof. reflexivity. Qed.

Lemma outerHTML_meta (h0 : Heap) fuel :
  outerHTML_fuel (S fuel) (h0 ++ documentShadows (length h0)) (length h0 + 3)
  = Ret (js "<meta" ++ TAB ++ js "charset='UTF-8'/>").
Proof.
  rewrite outerHTML_fuel_unfold, lookup_suffix.
  change (documentShadows (length h0) !! 3%nat) with
    (Some (with_parent (Some (length h0 + 1)%nat) (Some 0%nat)
      (with_attributes [(js "charset", js "UTF-8")] (newShadow (js "meta"))))).
  cbn -[outerHTML_fuel]. reflexivity.
Qed.

Lemma outerHTML_title (h0 : Heap) fuel :
  outerHTML_fuel (S fuel) (h0 ++ documentShadows (length h0)) (length h0 + 4)
  = Ret (js "<title></title>").
Proof.
  rewrite outerHTML_fuel_unfold, lookup_suffix.
  change (documentShadows (length h0) !! 4%nat) with
    (Some (with_parent (Some (length h0 + 1)%nat) (Some 1%nat)
             (newShadow (js "title")))).
  cbn -[outerHTML_fuel]. reflexivity.
Qed.

Lemma outerHTML_body (h0 : Heap) fuel :
  outerHTML_fuel (S fuel) (h0 ++ documentShadows (length h0)) (length h0 + 2)
  = Ret (js "<body></body>").
Proof.
  rewrite outerHTML_fuel_unfold, lookup_suffix.
  change (documentShadows (length h0) !! 2%nat) with
    (Some (with_parent (Some (length h0)) (Some 1%nat) (newShadow (js "body")))).
  cbn -[outerHTML_fuel]. reflexivity.
Qed.

Lemma outerHTML_head (h0 : Heap) fuel :
  outerHTML_fuel (S (S fuel)) (h0 ++ documentShadows (length h0)) (length h0 + 1)
  = Ret (js "<head>" ++ js "<meta" ++ TAB ++ js "charset='UTF-8'/>"
         ++ js "<title></title>" ++ js "</head>").
Proof.
  rewrite outerHTML_fuel_unfold, lookup_suffix.
  change (documentShadows (length h0) !! 1%nat) with
    (Some (with_parent (Some (length h0)) (Some 0%nat)
             (with_children [Some (CElement (length h0 + 3));
                             Some (CElement (length h0 + 4))]
                (newShadow (js "head"))))).
  cbn -[outerHTML_fuel]. rewrite outerHTML_meta, outerHTML_title. reflexivity.
Qed.

Lemma outerHTML_html (h0 : Heap) fuel :
  outerHTML_fuel (S (S (S fuel))) (h0 ++ documentShadows (length h0)) (length h0)
  = Ret (js "<html" ++ TAB ++ js "xmlns='http://www.w3.org/1999/xhtml'"
         ++ TAB ++ js "xmlns:xlink='http://www.w3.org/1999/xlink'>"
         ++ js "<head>" ++ js "<meta" ++ TAB ++ js "charset='UTF-8'/>"
         ++ js "<title></title>" ++ js "</head>"
         ++ js "<body></body>" ++ js "</html>").
Proof.
  rewrite outerHTML_fuel_unfold, lookup_suffix_0.
  change (documentShadows (length h0) !! 0%nat) with
    (Some (with_children [Some (CElement (length h0 + 1));
                          Some (CElement (length h0 + 2))]
             (with_attributes [(js "xmlns", Document.XHTML_NS);
                               (js "xmlns:xlink", Document.XLINK_NS)]
                (newShadow (js "html"))))).
  cbn -[outerHTML_fuel]. rewrite outerHTML_head, outerHTML_body. reflexivity.
Qed.

(** C9: [new Document ()] returns whatever is alive already, and its
    [toString ()] is then the doctype '<!DOCTYPE', a tab, 'html>' followed by
    the 'html' Element with its two namespace attributes, holding a 'head'
    that holds exactly the 'meta' Element, printed as '<meta', a tab,
    charset='UTF-8'/>, and the empty 'title', and after it an empty 'body';
    '<head>' and '<body>' each occur once in that string. *)
Theorem C9_new_Document_toString (h0 : Heap) :
  exists h1 d,
    Document.new h0 = (h1, Ret d)
    /\ Document.toString d h1
       = Ret (js "<!DOCTYPE" ++ TAB ++ js "html>"
              ++ js "<html" ++ TAB ++ js "xmlns='http://www.w3.org/1999/xhtml'"
              ++ TAB ++ js "xmlns:xlink='http://www.w3.org/1999/xlink'>"
              ++ js "<head>" ++ js "<meta" ++ TAB ++ js "charset='UTF-8'/>"
              ++ js "<title></title>" ++ js "</head>"
              ++ js "<body></body>" ++ js "</html>")
    /\ forall markup, Document.toString d h1 = Ret markup ->
         isPrefix (js "<!DOCTYPE" ++ TAB ++ js "html>") markup = true
         /\ countOccurrences (js "<head>") markup = 1%nat
         /\ countOccurrences (js "<body>") markup = 1%nat.
Proof.
  eexists _, _. split; [apply Document_new_eval|].
  assert (Hs : Document.toString
                 (Document.mk (length h0) (length h0 + 1) (length h0 + 2)
                    (length h0 + 3) (length h0 + 4))
                 (h0 ++ documentShadows (length h0))
               = Ret (js "<!DOCTYPE" ++ TAB ++ js "html>"
              ++ js "<html" ++ TAB ++ js "xmlns='http://www.w3.org/1999/xhtml'"
              ++ TAB ++ js "xmlns:xlink='http://www.w3.org/1999/xlink'>"
              ++ js "<head>" ++ js "<meta" ++ TAB ++ js "charset='UTF-8'/>"
              ++ js "<title></title>" ++ js "</head>"
              ++ js "<body></body>" ++ js "</html>")).
  { unfold Document.toString, get_outerHTML. cbn [Document.html].
    rewrite length_app.
    replace (S (length h0 + length (documentShadows (length h0))))
      with (S (S (S (length h0 + 3)))) by (cbn [length documentShadows]; lia).
    rewrite outerHTML_html. reflexivity. }
  split; [exact Hs|].
  intros markup. rewrite Hs. intros [= <-]. by vm_compute.
Qed.

(** ** The fuel of the getters *)

Lemma concatChildren_mono elem elem' cs o :
  (forall c oc, elem c = oc -> oc <> Diverge -> elem' c = oc) ->
  concatChildren elem cs = o -> o <> Diverge -> concatChildren elem' cs = o.
Proof.
  intros He. revert o. induction cs as [|[[c|t]|] cs IH]; intros o; cbn; [done| | |by apply IH].
  - destruct (elem c) as [a| | |] eqn:Ec; cbn; intros <- Hd;
      try (by rewrite (He c _ Ec)).
    rewrite (He c _ Ec) by done. cbn.
    destruct (concatChildren elem cs) as [b| | |] eqn:Er; cbn in *;
      by rewrite (IH _ eq_refl).
  - destruct (escapeText t) as [a| | |]; cbn; intros <- Hd; try done.
    destruct (concatChildren elem cs) as [b| | |] eqn:Er; cbn in *;
      by rewrite (IH _ eq_refl).
Qed.

(** An outcome of [get outerHTML] other than running out of fuel does not
    depend on the fuel. *)
Lemma outerHTML_fuel_mono fuel fuel' h this o :
  (fuel <= fuel')%nat ->
  outerHTML_fuel fuel h this = o -> o <> Diverge ->
  outerHTML_fuel fuel' h this = o.
Proof.
  revert fuel' this o. induction fuel as [|fuel IH]; intros fuel' this o Hle.
  { cbn. by intros <-. }
  destruct fuel' as [|fuel']; [lia|]. rewrite !outerHTML_fuel_unfold.
  destruct (h !! this) as [s|]; [|done].
  destruct (serializeAttributes _ _) as [attrs| | |]; cbn; try done.
  destruct (void s); [done|].
  assert (Hmono : forall c oc, outerHTML_fuel fuel h c = oc -> oc <> Diverge ->
                   outerHTML_fuel fuel' h c = oc).
  { intros c oc Hc Hoc. apply (IH fuel' c oc); [lia|done..]. }
  destruct (concatChildren (outerHTML_fuel fuel h) (children s)) as [b| | |] eqn:Ec;
    cbn; intros <- Hd; try done;
    by rewrite (concatChildren_mono _ (outerHTML_fuel fuel' h) _ _ Hmono Ec).
Qed.

(** The same for [get innerText]. *)
Lemma innerText_fuel_mono fuel fuel' h this o :
  (fuel <= fuel')%nat ->
  innerText_fuel fuel h this = o -> o <> Diverge ->
  innerText_fuel fuel' h this = o.
Proof.
  revert fuel' this o. induction fuel as [|fuel IH]; intros fuel' this o Hle.
  { cbn. by intros <-. }
  destruct fuel' as [|fuel']; [lia|]. cbn [innerText_fuel].
  destruct (h !! this) as [s|]; [|done].
  apply concatChildren_mono. intros c oc Hc Hoc. apply (IH fuel' c oc); [lia|done..].
Qed.

(** ** Recorded positions *)

Lemma getShadow_Ret_inv o h h' s :
  getShadow o h = (h', Ret s) -> h' = h /\ h !! o = Some s.
Proof.
  unfold getShadow. destruct (h !! o); [|done]. by intros [= <- <-].
Qed.


Lemma recordedAt_insert_parent this i h c c' sc :
  h !! c = Some sc -> recordedAt this i h c' ->
  recordedAt this i (<[c := with_parent (Some this) (Some i) sc]> h) c'.
Proof.
  intros Hc (sc' & Hl & Hp & Hi). destruct (decide (c = c')) as [<-|Hne].
  - eexists. split; [apply list_lookup_insert_eq; by eapply lookup_lt_Some|done].
  - exists sc'. by rewrite list_lookup_insert_ne.
Qed.

(** One round of the second loop of [append]. *)
Lemma attachChild_step this a h h1 ch s :
  attachChild this a h = (h1, Ret ch) -> h !! this = Some s ->
  (exists s1, h1 !! this = Some s1 /\ children s1 = children s)
  /\ (forall c, recordedAt this (length (children s)) h c ->
                recordedAt this (length (children s)) h1 c)
  /\ (forall c, a = AElement c -> recordedAt this (length (children s)) h1 c).
Proof.
  intros H Hl. destruct a as [c|t]; cbn in H.
  - apply bind_Ret_inv in H as (s0 & h0 & Hg & H).
    apply getShadow_Ret_inv in Hg as [-> Hg].
    assert (s0 = s) as -> by congruence.
    apply bind_Ret_inv in H as ([] & h2 & Hm & H). injection H as <- _.
    apply modify_Ret_inv in Hm as (sc & Hc & ->).
    split; [|split].
    + destruct (decide (c = this)) as [->|Hne].
      * eexists. split; [apply list_lookup_insert_eq; by eapply lookup_lt_Some|].
        assert (sc = s) as -> by congruence. done.
      * exists s. by rewrite list_lookup_insert_ne.
    + intros c' Hc'. by apply recordedAt_insert_parent.
    + intros c' [= <-]. eexists.
      split; [apply list_lookup_insert_eq; by eapply lookup_lt_Some|done].
  - injection H as <- _. split; [eauto|]. split; [done|]. by intros c [=].
Qed.

(** The second loop of [append]: the children array of the receiver is as
    it was, and every Element argument names the receiver as its parent and
    the length of that array as its position. *)
Lemma mapM_attachChild_spec this args h h2 tmp s :
  mapM (attachChild this) args h = (h2, Ret tmp) -> h !! this = Some s ->
  (exists s2, h2 !! this = Some s2 /\ children s2 = children s)
  /\ (forall c, recordedAt this (length (children s)) h c ->
                recordedAt this (length (children s)) h2 c)
  /\ (forall c, In (AElement c) args -> recordedAt this (length (children s)) h2 c).
Proof.
  revert h h2 tmp s. induction args as [|a args IH]; intros h h2 tmp s H Hl.
  - injection H as <- _. split; [eauto|]. split; [done|]. by intros c [].
  - cbn [mapM] in H. apply bind_Ret_inv in H as (ch & h1 & Ha & H).
    apply bind_Ret_inv in H as (chs & h3 & Hm & H). injection H as <- _.
    destruct (attachChild_step _ _ _ _ _ _ Ha Hl) as ((s1 & Hl1 & Hc1) & Hk1 & Hn1).
    destruct (IH _ _ _ _ Hm Hl1) as ((s2 & Hl2 & Hc2) & Hk2 & Hn2).
    rewrite Hc1 in Hc2, Hk2, Hn2.
    split; [eauto|]. split; [by auto|].
    intros c [->|Hin]; [|by auto]. apply Hk2. by apply Hn1.
Qed.

(** What a successful [append] leaves: the arguments at the end of the
    children array, in their order, and on every Element argument the
    receiver as parent and, as position, the length the array had before the
    call. *)
Lemma append_Ret_spec this args h h' :
  append this args h = (h', Ret tt) ->
  exists s s',
    h !! this = Some s /\ h' !! this = Some s'
    /\ children s' = children s ++ map Some (map argChild args)
    /\ forall c, In (AElement c) args -> recordedAt this (length (children s)) h' c.
Proof.
  rewrite append_unfold. destruct (h !! this) as [s|] eqn:Hl; [|done].
  destruct (void s); [done|]. destruct (negb (escapable s)); [done|].
  destruct (forEach (validateChild this) args h).2 as [[]| | |]; try done.
  intros H. apply bind_Ret_inv in H as (tmp & h2 & Hm & H).
  pose proof (mapM_attachChild_Ret _ _ _ _ _ Hm) as ->.
  destruct (mapM_attachChild_spec _ _ _ _ _ _ Hm Hl) as ((s2 & Hl2 & Hc2) & _ & Hn).
  apply modify_Ret_inv in H as (s2' & Hl2' & ->).
  assert (s2' = s2) as -> by congruence.
  assert (Hlt : (this < length h2)%nat) by (by eapply lookup_lt_Some).
  eexists s, _. split; [done|]. split; [by apply list_lookup_insert_eq|].
  split; [cbn; by rewrite Hc2|].
  intros c Hin. destruct (Hn c Hin) as (sc & Hsc & Hp & Hi).
  destruct (decide (this = c)) as [<-|Hne].
  - eexists. split; [by apply list_lookup_insert_eq|].
    assert (sc = s2) as -> by congruence. done.
  - exists sc. by rewrite list_lookup_insert_ne.
Qed.

(** C1 (a defect of the source).  After a successful
    [append], the argument number [k] of the call sits in slot [n + k] of the
    children array, where [n] is the length before the call, but every
    Element argument has the recorded position [n]: the recorded position is
    the slot for the first argument only.  So after [p.append (a, b)] both
    [a] and [b] have recorded position 0, though [b] sits in slot 1, and
    [b.remove ()] makes a hole of slot 0: the filtered children of [p] are
    then [[b]]; [a] has disappeared from the view (and still names [p] as its
    parent), and [b], the element removed, is still listed. *)
Theorem C1_remove_after_append_of_two :
  (forall this args h h',
     append this args h = (h', Ret tt) ->
     exists s s',
       h !! this = Some s /\ h' !! this = Some s'
       /\ forall (k : nat) c, args !! k = Some (AElement c) ->
            children s' !! (length (children s) + k)%nat = Some (Some (CElement c))
            /\ recordedAt this (length (children s)) h' c)
  /\ heap_two_at_once !! 0%nat ≫= (fun s => Some (children s))
     = Some [Some (CElement 1); Some (CElement 2)]
  /\ heap_two_at_once !! 1%nat ≫= parentIndex = Some 0%nat
  /\ heap_two_at_once !! 2%nat ≫= parentIndex = Some 0%nat
  /\ ((remove 2 >>
       let* cs := get_children 0 in
       let* pa := get_parentElement 1 in
       let* pb := get_parentElement 2 in
       ret (cs, pa, pb)) heap_two_at_once).2
     = Ret ([CElement 2], Some 0%nat, None).
Proof.
  split; [|vm_compute; repeat split].
  intros this args h h' H.
  destruct (append_Ret_spec _ _ _ _ H) as (s & s' & Hl & Hl' & Hc & Hrec).
  exists s, s'. split; [done|]. split; [done|]. intros k c Hk. split.
  - rewrite Hc, lookup_app_r by lia.
    replace (length (children s) + k - length (children s))%nat with k by lia.
    by rewrite !list_lookup_fmap, Hk.
  - apply Hrec. apply list_elem_of_In. by eapply list_elem_of_lookup_2.
Qed.

(** C1 at [p.append (a, b)]: [b] is in slot 1 and has recorded position 0. *)
Lemma C1_remove_after_append_of_two_witness :
  exists s s',
    heap_three_apart !! 0%nat = Some s
    /\ heap_two_at_once !! 0%nat = Some s'
    /\ forall (k : nat) c, [AElement 1; AElement 2] !! k = Some (AElement c) ->
         children s' !! (length (children s) + k)%nat = Some (Some (CElement c))
         /\ recordedAt 0 (length (children s)) heap_two_at_once c.
Proof.
  apply (proj1 C1_remove_after_append_of_two 0%nat [AElement 1; AElement 2]).
  by vm_compute.
Defined.

(** ** Attributes *)

Lemma getProperty_setProperty_eq k v o : getProperty k (setProperty k v o) = Some v.
Proof.
  induction o as [|[k' v'] o IH]; cbn.
  - by rewrite str_eqb_refl.
  - destruct (str_eqb k' k) eqn:E; cbn; [by rewrite str_eqb_refl|by rewrite E].
Qed.

Lemma getProperty_setProperty_ne k k' v o :
  k' <> k -> getProperty k' (setProperty k v o) = getProperty k' o.
Proof.
  intros Hne. induction o as [|[k0 v0] o IH]; cbn.
  - destruct (str_eqb k k') eqn:E; [|done]. apply str_eqb_eq in E. congruence.
  - destruct (str_eqb k0 k) eqn:E; cbn.
    + apply str_eqb_eq in E. subst k0.
      destruct (str_eqb k k') eqn:E'; [|done]. apply str_eqb_eq in E'. congruence.
    + by rewrite IH.
Qed.

Lemma getProperty_deleteProperty_eq k o : getProperty k (deleteProperty k o) = None.
Proof.
  unfold deleteProperty. induction o as [|[k' v'] o IH]; [done|].
  rewrite filter_cons. cbn [fst]. case_decide as E; [|done].
  cbn. by rewrite E.
Qed.

Lemma getProperty_deleteProperty_ne k k' o :
  k' <> k -> getProperty k' (deleteProperty k o) = getProperty k' o.
Proof.
  intros Hne. unfold deleteProperty. induction o as [|[k0 v0] o IH]; [done|].
  rewrite filter_cons. cbn [fst]. case_decide as E; cbn.
  - by rewrite IH.
  - rewrite IH. apply not_false_is_true in E. apply str_eqb_eq in E. subst k0.
    destruct (str_eqb k k') eqn:E'; [|done]. apply str_eqb_eq in E'. congruence.
Qed.

Lemma deleteProperty_absent k o : getProperty k o = None -> deleteProperty k o = o.
Proof.
  unfold deleteProperty. induction o as [|[k' v'] o IH]; [done|].
  intros H. cbn in H. destruct (str_eqb k' k) eqn:E; [done|].
  rewrite filter_cons. cbn [fst]. rewrite decide_True by done. by rewrite IH.
Qed.

Lemma existsb_ownKeys k o :
  existsb (str_eqb k) (ownKeys o) = bool_decide (is_Some (getProperty k o)).
Proof.
  unfold ownKeys. induction o as [|[k' v'] o IH]; [done|].
  cbn [map fst existsb getProperty]. rewrite IH.
  destruct (str_eqb k k') eqn:E.
  - apply str_eqb_eq in E. subst. by rewrite str_eqb_refl.
  - destruct (str_eqb k' k) eqn:E'; [|done].
    apply str_eqb_eq in E'. subst. by rewrite str_eqb_refl in E.
Qed.

Lemma with_attributes_same s : with_attributes (attributes s) s = s.
Proof. by destruct s. Qed.

Lemma getAttribute_unfold this aname h :
  getAttribute this aname h =
  match h !! this with
  | Some s => (h, Ret (getProperty aname (attributes s)))
  | None => (h, Stuck)
  end.
Proof. unfold getAttribute, bind. rewrite getShadow_unfold. by destruct (h !! this). Qed.

Lemma hasAttribute_unfold this aname h :
  hasAttribute this aname h =
  match h !! this with
  | Some s => (h, Ret (bool_decide (is_Some (getProperty aname (attributes s)))))
  | None => (h, Stuck)
  end.
Proof.
  unfold hasAttribute, bind. rewrite getShadow_unfold.
  destruct (h !! this); [|done]. unfold ret. by rewrite existsb_ownKeys.
Qed.

(** X1: an accepted [setAttribute] is read back by [getAttribute] and
    [hasAttribute]; it leaves every other attribute of the Element, its
    children and parent link, and every other object as they were. *)
Theorem X1_setAttribute_getAttribute (h : Heap) (this : nat) (s : Shadow)
    (aname value : js_string) :
  h !! this = Some s ->
  validateToken aname = true -> validateText value = true ->
  exists h',
    setAttribute this aname value h = (h', Ret tt)
    /\ getAttribute this aname h' = (h', Ret (Some value))
    /\ hasAttribute this aname h' = (h', Ret true)
    /\ (forall other, other <> aname ->
          (getAttribute this other h').2 = (getAttribute this other h).2
          /\ (hasAttribute this other h').2 = (hasAttribute this other h).2)
    /\ (forall o, o <> this -> h' !! o = h !! o)
    /\ exists s', h' !! this = Some s' /\ children s' = children s
                  /\ parent s' = parent s /\ parentIndex s' = parentIndex s
                  /\ static s' = static s.
Proof.
  intros Hl Hn Hv.
  assert (Hlt : (this < length h)%nat) by (by eapply lookup_lt_Some).
  exists (<[this := with_attributes (setProperty aname value (attributes s)) s]> h).
  split.
  { unfold setAttribute, bind. rewrite getShadow_unfold, Hl, Hn, Hv. cbn [negb].
    unfold modify. by rewrite Hl. }
  rewrite !getAttribute_unfold, !hasAttribute_unfold.
  rewrite list_lookup_insert_eq by done. cbn [attributes with_attributes].
  rewrite getProperty_setProperty_eq.
  split; [done|]. split; [done|]. split; [|split].
  - intros other Hne. rewrite !getAttribute_unfold, !hasAttribute_unfold.
    rewrite list_lookup_insert_eq, Hl by done. cbn [attributes with_attributes snd].
    by rewrite getProperty_setProperty_ne.
  - intros o Hne. by rewrite list_lookup_insert_ne.
  - eexists. split; [reflexivity|done].
Qed.

(** X1 on a fresh 'div': [data-x] set to 'v' is read back. *)
Lemma X1_setAttribute_getAttribute_witness :
  exists h',
    setAttribute 0 (js "data-x") (js "v") [newShadow (js "div")] = (h', Ret tt)
    /\ getAttribute 0 (js "data-x") h' = (h', Ret (Some (js "v")))
    /\ hasAttribute 0 (js "data-x") h' = (h', Ret true)
    /\ (forall other, other <> js "data-x" ->
          (getAttribute 0 other h').2
            = (getAttribute 0 other [newShadow (js "div")]).2
          /\ (hasAttribute 0 other h').2
            = (hasAttribute 0 other [newShadow (js "div")]).2)
    /\ (forall o, o <> 0%nat -> h' !! o = [newShadow (js "div")] !! o)
    /\ exists s', h' !! 0%nat = Some s'
                  /\ children s' = children (newShadow (js "div"))
                  /\ parent s' = parent (newShadow (js "div"))
                  /\ parentIndex s' = parentIndex (newShadow (js "div"))
                  /\ static s' = static (newShadow (js "div")).
Proof.
  apply (X1_setAttribute_getAttribute [newShadow (js "div")] 0
           (newShadow (js "div")) (js "data-x") (js "v")); reflexivity.
Defined.

(** X2: on an existing Element, [setAttribute] throws 'Unsafe atttribute
    name' whenever the name is no Name-Token (whatever the value), throws
    'Unsafe atttribute value' whenever the name is one and the value is no
    Text, and returns otherwise; and a [setAttribute] that throws has changed
    nothing and throws one of these two errors, for that reason. *)
Theorem X2_setAttribute_rejects :
  (forall (h h' : Heap) (this : nat) (aname value : js_string) (e : TypeError),
     setAttribute this aname value h = (h', Throw e) ->
     h' = h
     /\ ((validateToken aname = false /\ e = UnsafeAttributeName)
         \/ (validateToken aname = true /\ validateText value = false
             /\ e = UnsafeAttributeValue)))
  /\ (forall (h : Heap) (this : nat) (s : Shadow) (aname value : js_string),
        h !! this = Some s ->
        (validateToken aname = false ->
         setAttribute this aname value h = (h, Throw UnsafeAttributeName))
        /\ (validateToken aname = true -> validateText value = false ->
            setAttribute this aname value h = (h, Throw UnsafeAttributeValue))
        /\ (validateToken aname = true -> validateText value = true ->
            exists h', setAttribute this aname value h = (h', Ret tt))).
Proof.
  split.
  - intros h h' this aname value e.
    unfold setAttribute, bind. rewrite getShadow_unfold.
    destruct (h !! this) as [s|]; [|done].
    destruct (validateToken aname); cbn [negb].
    + destruct (validateText value); cbn [negb].
      * unfold modify. by destruct (h !! this).
      * intros [= <- <-]. split; [done|]. right. done.
    + intros [= <- <-]. split; [done|]. left. done.
  - intros h this s aname value Hl.
    unfold setAttribute. rewrite bind_unfold, getShadow_unfold, Hl.
    cbn [fst snd]. split; [|split].
    + by intros ->.
    + by intros -> ->.
    + intros -> ->. cbn [negb]. unfold modify. rewrite Hl. by eexists.
Qed.

(** X2 on the 'div' of [heap_two_apart], an attribute name with a space and
    an invalid value: the name is what is reported. *)
Lemma X2_setAttribute_rejects_witness :
  setAttribute 0 (js "a b") [0x0] heap_two_apart
  = (heap_two_apart, Throw UnsafeAttributeName).
Proof.
  apply (proj1 (proj2 X2_setAttribute_rejects heap_two_apart 0%nat
                  (newShadow (js "div")) (js "a b") [0x0] eq_refl)).
  reflexivity.
Defined.

(** X3: [removeAttribute] never throws and validates nothing.  Afterwards
    the attribute is absent, every other attribute and every other object is
    as before; removing an attribute that is not set leaves the whole heap as
    it was. *)
Theorem X3_removeAttribute (h : Heap) (this : nat) (s : Shadow) (aname : js_string) :
  h !! this = Some s ->
  exists h',
    removeAttribute this aname h = (h', Ret tt)
    /\ getAttribute this aname h' = (h', Ret None)
    /\ hasAttribute this aname h' = (h', Ret false)
    /\ (forall other, other <> aname ->
          (getAttribute this other h').2 = (getAttribute this other h).2)
    /\ (forall o, o <> this -> h' !! o = h !! o)
    /\ ((hasAttribute this aname h).2 = Ret false -> h' = h).
Proof.
  intros Hl.
  assert (Hlt : (this < length h)%nat) by (by eapply lookup_lt_Some).
  exists (<[this := with_attributes (deleteProperty aname (attributes s)) s]> h).
  split; [unfold removeAttribute, modify; by rewrite Hl|].
  rewrite !getAttribute_unfold, !hasAttribute_unfold.
  rewrite list_lookup_insert_eq, Hl by done. cbn [attributes with_attributes snd].
  rewrite getProperty_deleteProperty_eq.
  split; [done|]. split; [done|]. split; [|split].
  - intros other Hne. rewrite !getAttribute_unfold.
    rewrite list_lookup_insert_eq, Hl by done. cbn [attributes with_attributes snd].
    by rewrite getProperty_deleteProperty_ne.
  - intros o Hne. by rewrite list_lookup_insert_ne.
  - intros [= Hn]. apply bool_decide_eq_false in Hn.
    rewrite deleteProperty_absent, with_attributes_same.
    + by apply list_insert_id.
    + destruct (getProperty aname (attributes s)); [|done]. by destruct Hn.
Qed.

(** X3 on a 'div' without attributes. *)
Lemma X3_removeAttribute_witness :
  exists h',
    removeAttribute 0 (js "id") [newShadow (js "div")] = (h', Ret tt)
    /\ getAttribute 0 (js "id") h' = (h', Ret None)
    /\ hasAttribute 0 (js "id") h' = (h', Ret false)
    /\ (forall other, other <> js "id" ->
          (getAttribute 0 other h').2
          = (getAttribute 0 other [newShadow (js "div")]).2)
    /\ (forall o, o <> 0%nat -> h' !! o = [newShadow (js "div")] !! o)
    /\ ((hasAttribute 0 (js "id") [newShadow (js "div")]).2 = Ret false ->
        h' = [newShadow (js "div")]).
Proof.
  apply (X3_removeAttribute [newShadow (js "div")] 0 (newShadow (js "div")) (js "id")).
  reflexivity.
Defined.

(** ** The language of [validateToken] *)

Lemma spanNameChars_stop a d b :
  Forall (fun c => nameChar c = true) a -> nameChar d = false ->
  spanNameChars (a ++ d :: b) = (a, d :: b).
Proof.
  intros Ha Hd. induction Ha as [|c a Hc Ha IH]; cbn.
  - by rewrite Hd.
  - by rewrite Hc, IH.
Qed.

Lemma spanNameChars_all a :
  Forall (fun c => nameChar c = true) a -> spanNameChars a = (a, []).
Proof.
  induction 1 as [|c a Hc Ha IH]; cbn; [done|]. by rewrite Hc, IH.
Qed.

Lemma ncName_inv cs :
  ncName cs = true ->
  exists c rest, cs = c :: rest /\ nameStartChar c = true
                 /\ Forall (fun x => nameChar x = true) rest.
Proof.
  destruct cs as [|c rest]; [done|]. cbn. intros H.
  apply andb_true_iff in H as [Hc Hr]. exists c, rest. split; [done|].
  split; [done|]. apply Forall_forall. intros x Hx.
  rewrite forallb_forall in Hr. apply Hr. by apply list_elem_of_In.
Qed.

Lemma forallb_Forall_nameChar rest :
  Forall (fun x => nameChar x = true) rest -> forallb nameChar rest = true.
Proof.
  intros H. apply forallb_forall. intros x Hx.
  rewrite Forall_forall in H. apply H. by apply list_elem_of_In.
Qed.

Lemma validateToken_shape token :
  validateToken token = true ->
  ncName (codePoints token) = true
  \/ exists prefix local,
       codePoints token = prefix ++ 0x3A :: local
       /\ ncName prefix = true /\ ncName local = true.
Proof.
  unfold validateToken.
  destruct (codePoints token) as [|c rest]; [done|].
  intros H. apply andb_true_iff in H as [Hc H].
  destruct (spanNameChars rest) as [a b] eqn:Es.
  apply spanNameChars_spec in Es as [-> Ha].
  destruct b as [|d local].
  - left. rewrite app_nil_r. cbn. rewrite Hc. by apply forallb_Forall_nameChar.
  - right. apply andb_true_iff in H as [Hd Hl]. apply Z.eqb_eq in Hd. subst d.
    exists (c :: a), local. split; [done|]. split; [|done].
    cbn. rewrite Hc. by apply forallb_Forall_nameChar.
Qed.

(** X4: [validateToken] accepts a string exactly when its code points are a
    name, or a name, a colon and a name, where a name is a letter or
    underscore followed by letters, digits, '-', '_' and '.': the language of
    the anchored pattern of the source. *)
Theorem X4_validateToken_language (token : js_string) :
  validateToken token = true <->
  ncName (codePoints token) = true
  \/ exists prefix local,
       codePoints token = prefix ++ 0x3A :: local
       /\ ncName prefix = true /\ ncName local = true.
Proof.
  split; [apply validateToken_shape|]. unfold validateToken.
  intros [H|(prefix & local & -> & Hp & Hl)].
  - apply ncName_inv in H as (c & rest & -> & Hc & Hr).
    by rewrite Hc, (spanNameChars_all _ Hr).
  - apply ncName_inv in Hp as (c & rest & -> & Hc & Hr). cbn [app].
    rewrite Hc, (spanNameChars_stop rest 0x3A local Hr) by done.
    by rewrite Hl.
Qed.

Lemma nameChar_plain c :
  nameChar c = true \/ c = 0x3A ->
  ~ In c [0x9; 0xA; 0xD; 0x20; 0x22; 0x26; 0x27; 0x2F; 0x3C; 0x3D; 0x3E]
  /\ textChar c = true /\ c < 0xD800.
Proof.
  unfold nameChar. rewrite !orb_true_iff, !inRange_spec, !Z.eqb_eq.
  intros H. split; [cbn; lia|]. split; [apply textChar_spec|]; lia.
Qed.

Lemma validateToken_chars token :
  validateToken token = true ->
  token <> [] /\ Forall (fun c => nameChar c = true \/ c = 0x3A) token.
Proof.
  intros H. pose proof (validateToken_codePoints _ H) as Hcp.
  apply validateToken_shape in H. rewrite Hcp in H.
  destruct H as [H|(prefix & local & -> & Hp & Hl)].
  - apply ncName_inv in H as (c & rest & -> & Hc & Hr). split; [done|].
    constructor.
    + left. unfold nameStartChar in Hc. unfold nameChar.
      rewrite !orb_true_iff in *. tauto.
    + eapply Forall_impl; [exact Hr|]. tauto.
  - apply ncName_inv in Hp as (c & rest & -> & Hc & Hr).
    apply ncName_inv in Hl as (c2 & rest2 & -> & Hc2 & Hr2). split; [done|].
    assert (Hstart : forall x, nameStartChar x = true -> nameChar x = true).
    { intros x. unfold nameStartChar, nameChar. rewrite !orb_true_iff. tauto. }
    cbn [app]. constructor; [left; by apply Hstart|]. apply Forall_app. split.
    + eapply Forall_impl; [exact Hr|]. tauto.
    + constructor; [by right|]. constructor; [left; by apply Hstart|].
      eapply Forall_impl; [exact Hr2|]. tauto.
Qed.

(** X5: a string that [validateToken] accepts is not empty and is pure
    ASCII: each of its code units is a letter A-Z or a-z, a digit, a hyphen,
    an underscore, a dot or a colon, hence below U+0080, and the code units
    are the code points.  So it has no white space, control character, quote,
    ampersand, slash, angle bracket or equals sign; it is accepted by
    [validateText], and is left as it is by the replacements of
    [escapeText]. *)
Theorem X5_validateToken_safe (token : js_string) :
  validateToken token = true ->
  token <> []
  /\ codePoints token = token
  /\ Forall (fun c => 0x41 <= c <= 0x5A \/ 0x61 <= c <= 0x7A \/ 0x30 <= c <= 0x39
                      \/ c = 0x2D \/ c = 0x5F \/ c = 0x2E \/ c = 0x3A) token
  /\ Forall (fun c => 0x20 < c < 0x7F) token
  /\ Forall (fun c => ~ In c [0x9; 0xA; 0xD; 0x20; 0x22; 0x26; 0x27; 0x2F;
                              0x3C; 0x3D; 0x3E]) token
  /\ validateText token = true
  /\ escapeText token = Ret token.
Proof.
  intros H. pose proof (validateToken_codePoints _ H) as Hcp.
  destruct (validateToken_chars _ H) as [Hne Hall].
  assert (Hset : Forall (fun c => 0x41 <= c <= 0x5A \/ 0x61 <= c <= 0x7A
                                  \/ 0x30 <= c <= 0x39
                                  \/ c = 0x2D \/ c = 0x5F \/ c = 0x2E \/ c = 0x3A)
                        token).
  { eapply Forall_impl; [exact Hall|]. intros c. unfold nameChar.
    rewrite !orb_true_iff, !inRange_spec, !Z.eqb_eq. tauto. }
  assert (Hplain : Forall (fun c => ~ In c [0x9; 0xA; 0xD; 0x20; 0x22; 0x26;
                                           0x27; 0x2F; 0x3C; 0x3D; 0x3E]) token).
  { eapply Forall_impl; [exact Hall|]. intros c Hc. by apply nameChar_plain. }
  assert (Hv : validateText token = true).
  { apply validateText_spec. rewrite Hcp.
    eapply Forall_impl; [exact Hall|]. intros c Hc. by apply nameChar_plain. }
  split; [done|]. split; [done|]. split; [done|].
  split; [eapply Forall_impl; [exact Hset|]; cbn; lia|].
  split; [done|]. split; [done|].
  rewrite (escapeText_valid _ Hv). f_equal. apply escapeChain_fixed.
  eapply Forall_impl; [exact Hplain|]. cbn. tauto.
Qed.

(** X5 at the attribute name 'xmlns:xlink'. *)
Lemma X5_validateToken_safe_witness :
  js "xmlns:xlink" <> []
  /\ codePoints (js "xmlns:xlink") = js "xmlns:xlink"
  /\ Forall (fun c => 0x41 <= c <= 0x5A \/ 0x61 <= c <= 0x7A \/ 0x30 <= c <= 0x39
                      \/ c = 0x2D \/ c = 0x5F \/ c = 0x2E \/ c = 0x3A)
            (js "xmlns:xlink")
  /\ Forall (fun c => 0x20 < c < 0x7F) (js "xmlns:xlink")
  /\ Forall (fun c => ~ In c [0x9; 0xA; 0xD; 0x20; 0x22; 0x26; 0x27; 0x2F;
                              0x3C; 0x3D; 0x3E]) (js "xmlns:xlink")
  /\ validateText (js "xmlns:xlink") = true
  /\ escapeText (js "xmlns:xlink") = Ret (js "xmlns:xlink").
Proof. apply (X5_validateToken_safe (js "xmlns:xlink")). reflexivity. Defined.

(** ** Surrogates and control characters in [validateText] *)

Lemma codePoints_cons_plain u s :
  isHighSurrogate u = false -> codePoints (u :: s) = u :: codePoints s.
Proof. intros H. cbn [codePoints]. destruct s as [|l s']; [done|]. by rewrite H. Qed.

Lemma codePoints_cons_pair hi lo s :
  isHighSurrogate hi = true -> isLowSurrogate lo = true ->
  codePoints (hi :: lo :: s)
  = (0x10000 + (hi - 0xD800) * 0x400 + (lo - 0xDC00)) :: codePoints s.
Proof. intros Hh Hl. cbn [codePoints]. by rewrite Hh, Hl. Qed.

Lemma surrogate_not_textChar u : 0xD800 <= u <= 0xDFFF -> textChar u = false.
Proof.
  intros H. destruct (textChar u) eqn:E; [|done]. apply textChar_spec in E. lia.
Qed.

Lemma isHighSurrogate_spec u : isHighSurrogate u = true <-> 0xD800 <= u <= 0xDBFF.
Proof. apply inRange_spec. Qed.

Lemma isLowSurrogate_spec u : isLowSurrogate u = true <-> 0xDC00 <= u <= 0xDFFF.
Proof. apply inRange_spec. Qed.

Lemma textChar_not_high c : textChar c = true -> isHighSurrogate c = false.
Proof.
  intros H. destruct (isHighSurrogate c) eqn:E; [|done].
  apply isHighSurrogate_spec in E. apply textChar_spec in H. lia.
Qed.

Lemma validateText_bad_first c s :
  isHighSurrogate c = false -> textChar c = false -> validateText (c :: s) = false.
Proof.
  intros Hh Ht. unfold validateText.
  rewrite (codePoints_cons_plain _ _ Hh). cbn. by rewrite Ht.
Qed.

Lemma validateText_cons_pair hi lo s :
  isHighSurrogate hi = true -> isLowSurrogate lo = true ->
  validateText (hi :: lo :: s) = validateText s.
Proof.
  intros Hh Hl. unfold validateText.
  rewrite (codePoints_cons_pair _ _ _ Hh Hl). cbn [forallb].
  apply isHighSurrogate_spec in Hh. apply isLowSurrogate_spec in Hl.
  replace (textChar _) with true; [done|].
  symmetry. apply textChar_spec. lia.
Qed.

Lemma validateText_high_lone hi s :
  isHighSurrogate hi = true ->
  match s with next :: _ => isLowSurrogate next = false | [] => True end ->
  validateText (hi :: s) = false.
Proof.
  intros Hh Hs. unfold validateText.
  assert (Hcp : codePoints (hi :: s) = hi :: codePoints s).
  { cbn [codePoints]. destruct s as [|next s']; [done|].
    by rewrite Hs, andb_false_r. }
  rewrite Hcp. cbn. apply isHighSurrogate_spec in Hh.
  rewrite surrogate_not_textChar; [done|lia].
Qed.

Lemma not_high c : ~ 0xD800 <= c <= 0xDBFF -> isHighSurrogate c = false.
Proof.
  intros H. destruct (isHighSurrogate c) eqn:E; [|done].
  by apply isHighSurrogate_spec in E.
Qed.

Lemma not_textChar c :
  ~ (c = 0x9 \/ c = 0xA \/ c = 0xD \/ 0x20 <= c <= 0xD7FF
     \/ c = 0xE000 \/ c = 0xFFFD \/ 0x10000 <= c <= 0x10FFFF) ->
  textChar c = false.
Proof.
  intros H. destruct (textChar c) eqn:E; [|done]. by apply textChar_spec in E.
Qed.

(** X6: how [validateText] treats surrogates and control characters.  A
    high surrogate followed by a low one counts as one valid character; a
    low surrogate at the start, or a high surrogate not followed by a low
    one, makes the string invalid; so does a leading control character other
    than tab, line feed and carriage return, and U+FFFE or U+FFFF. *)
Theorem X6_validateText_surrogates :
  (forall hi lo s,
     isHighSurrogate hi = true -> isLowSurrogate lo = true ->
     validateText (hi :: lo :: s) = validateText s)
  /\ (forall lo s, isLowSurrogate lo = true -> validateText (lo :: s) = false)
  /\ (forall hi s,
        isHighSurrogate hi = true ->
        match s with next :: _ => isLowSurrogate next = false | [] => True end ->
        validateText (hi :: s) = false)
  /\ (forall c s,
        0 <= c < 0x20 -> c <> 0x9 -> c <> 0xA -> c <> 0xD ->
        validateText (c :: s) = false)
  /\ (forall c s, c = 0xFFFE \/ c = 0xFFFF -> validateText (c :: s) = false).
Proof.
  split; [apply validateText_cons_pair|].
  split; [|split; [apply validateText_high_lone|split]].
  - intros lo s Hl. apply isLowSurrogate_spec in Hl.
    apply validateText_bad_first; [apply not_high|apply not_textChar]; lia.
  - intros c s Hc H9 HA HD.
    apply validateText_bad_first; [apply not_high|apply not_textChar]; lia.
  - intros c s Hc.
    apply validateText_bad_first; [apply not_high|apply not_textChar]; lia.
Qed.

(** X6 at U+1F600 (a pair), at a lone low and a lone high surrogate, at
    U+0000 and at U+FFFE. *)
Lemma X6_validateText_surrogates_witness :
  validateText [0xD83D; 0xDE00; 0x41] = validateText [0x41]
  /\ validateText [0xDE00; 0x41] = false
  /\ validateText [0xD83D; 0x41] = false
  /\ validateText [0x0; 0x41] = false
  /\ validateText [0xFFFE] = false.
Proof.
  destruct X6_validateText_surrogates as (H1 & H2 & H3 & H4 & H5).
  split; [by apply H1|]. split; [by apply H2|]. split; [by apply H3|].
  split; [apply H4; lia|]. apply H5. by left.
Defined.

(** The code points of two strings put together, when the first is valid
    (so that it does not end in half a pair). *)
Lemma codePoints_app a b :
  validateText a = true -> codePoints (a ++ b) = codePoints a ++ codePoints b.
Proof.
  remember (length a) as n eqn:Hn. revert a Hn.
  induction n as [n IH] using lt_wf_ind. intros a -> Ha.
  destruct a as [|u a]; [done|].
  destruct (isHighSurrogate u) eqn:Hu.
  - destruct a as [|lo a].
    { apply validateText_spec in Ha. cbn in Ha. inversion Ha as [|? ? Hx _]; subst.
      apply textChar_not_high in Hx. congruence. }
    destruct (isLowSurrogate lo) eqn:Hlo.
    + cbn [app]. rewrite !(codePoints_cons_pair _ _ _ Hu Hlo). cbn [app]. f_equal.
      apply (IH (length a)); [cbn; lia|done|].
      by rewrite <- (validateText_cons_pair u lo a).
    + rewrite (validateText_high_lone u (lo :: a)) in Ha; done.
  - cbn [app]. rewrite !(codePoints_cons_plain _ _ Hu). cbn [app]. f_equal.
    apply (IH (length a)); [cbn; lia|done|].
    unfold validateText in *. rewrite (codePoints_cons_plain _ _ Hu) in Ha.
    cbn in Ha. by apply andb_true_iff in Ha as [_ Ha].
Qed.

(** ** What [escapeText] returns *)

Lemma validateText_app a b :
  validateText a = true -> validateText b = true -> validateText (a ++ b) = true.
Proof.
  intros Ha Hb. unfold validateText. rewrite (codePoints_app _ _ Ha).
  rewrite forallb_app. unfold validateText in Ha, Hb. by rewrite Ha, Hb.
Qed.

Lemma escapeChain_app a b : escapeChain (a ++ b) = escapeChain a ++ escapeChain b.
Proof. rewrite !escapeChain_flat_map. apply flat_map_app. Qed.

(** X7: escaping two valid texts one after the other gives the escape of the
    two put together: [escapeText] returns on each of them and on their
    concatenation, and the third result is the first two joined. *)
Theorem X7_escapeText_concat (a b : js_string) :
  validateText a = true -> validateText b = true ->
  exists ea eb,
    escapeText a = Ret ea /\ escapeText b = Ret eb
    /\ escapeText (a ++ b) = Ret (ea ++ eb).
Proof.
  intros Ha Hb. exists (escapeChain a), (escapeChain b).
  rewrite !escapeText_valid by (done || by apply validateText_app).
  by rewrite escapeChain_app.
Qed.

(** X7 at 'a<' and '>b'. *)
Lemma X7_escapeText_concat_witness :
  exists ea eb,
    escapeText (js "a<") = Ret ea /\ escapeText (js ">b") = Ret eb
    /\ escapeText (js "a<" ++ js ">b") = Ret (ea ++ eb).
Proof. apply (X7_escapeText_concat (js "a<") (js ">b")); reflexivity. Defined.

Lemma escapeUnit_cases c :
  (In c [0x26; 0x3C; 0x3E; 0x27; 0x22] /\ In (escapeUnit c) [AMP; LT; GT; APOS; QUOT])
  \/ (~ In c [0x26; 0x3C; 0x3E; 0x27; 0x22] /\ escapeUnit c = [c]).
Proof.
  unfold escapeUnit. eqb_cases c; try (left; cbn; tauto).
  right. split; [|done]. intros [?|[?|[?|[?|[?|[]]]]]]; congruence.
Qed.

Lemma escapeUnit_no_markup c :
  Forall (fun x => ~ In x [0x3C; 0x3E; 0x27; 0x22]) (escapeUnit c).
Proof.
  destruct (escapeUnit_cases c) as [[_ H]|[Hc ->]].
  - destruct H as [<-|[<-|[<-|[<-|[<-|[]]]]]];
      repeat constructor; cbn; lia.
  - constructor; [|constructor]. intros H. apply Hc. cbn in *. tauto.
Qed.

(** X8: what [escapeText] returns has no '<', '>', apostrophe or double
    quote, and is a sequence of pieces, one for each code unit of the input:
    one of the five entities for an escaped character, the code unit itself
    for any other. *)
Theorem X8_escapeText_output (s e : js_string) :
  escapeText s = Ret e ->
  Forall (fun c => ~ In c [0x3C; 0x3E; 0x27; 0x22]) e
  /\ exists pieces,
       e = concat pieces
       /\ Forall2 (fun c piece =>
             (In c [0x26; 0x3C; 0x3E; 0x27; 0x22]
              /\ In piece [AMP; LT; GT; APOS; QUOT])
             \/ (~ In c [0x26; 0x3C; 0x3E; 0x27; 0x22] /\ piece = [c]))
            s pieces.
Proof.
  intros H. apply escapeText_Ret in H as [_ ->]. rewrite escapeChain_flat_map.
  split.
  - induction s as [|c s IH]; [constructor|]. cbn [flat_map].
    apply Forall_app. split; [apply escapeUnit_no_markup|done].
  - exists (map escapeUnit s). split.
    + induction s as [|c s IH]; [done|]. cbn. by rewrite IH.
    + induction s as [|c s IH]; [constructor|]. cbn [map].
      constructor; [apply escapeUnit_cases|done].
Qed.

(** X8 at the text of the specification's title example. *)
Lemma X8_escapeText_output_witness :
  Forall (fun c => ~ In c [0x3C; 0x3E; 0x27; 0x22]) (js "Hello &amp; &lt;you&gt;")
  /\ exists pieces,
       js "Hello &amp; &lt;you&gt;" = concat pieces
       /\ Forall2 (fun c piece =>
             (In c [0x26; 0x3C; 0x3E; 0x27; 0x22]
              /\ In piece [AMP; LT; GT; APOS; QUOT])
             \/ (~ In c [0x26; 0x3C; 0x3E; 0x27; 0x22] /\ piece = [c]))
            (js "Hello & <you>") pieces.
Proof.
  apply (X8_escapeText_output (js "Hello & <you>") (js "Hello &amp; &lt;you&gt;")).
  reflexivity.
Defined.

(** ** [remove] *)

Lemma remove_unfold this h :
  remove this h =
  match h !! this with
  | None => (h, Stuck)
  | Some s =>
      match parent s with
      | None => (h, Ret tt)
      | Some p =>
          match h !! p with
          | None => (h, Stuck)
          | Some ps =>
              let h1 := <[p := with_children
                                 (deleteSlot (parentIndex s) (children ps)) ps]> h in
              match h1 !! this with
              | None => (h1, Stuck)
              | Some s1 => (<[this := with_parent None None s1]> h1, Ret tt)
              end
          end
      end
  end.
Proof.
  unfold remove, bind. rewrite getShadow_unfold.
  destruct (h !! this) as [s|]; [|done]. destruct (parent s) as [p|]; [|done].
  unfold modify at 1. destruct (h !! p) as [ps|]; [|done]. cbn zeta.
  unfold modify. by destruct (_ !! this).
Qed.

Lemma deleteSlot_length i a : length (deleteSlot i a) = length a.
Proof. destruct i; [apply length_insert|done]. Qed.




(** ** What a successful [append] does *)

Lemma attachChild_frame this a h h1 ch o so :
  attachChild this a h = (h1, Ret ch) -> h !! o = Some so ->
  exists so1,
    h1 !! o = Some so1
    /\ children so1 = children so /\ attributes so1 = attributes so
    /\ static so1 = static so
    /\ (a <> AElement o -> so1 = so).
Proof.
  intros H Hl. destruct a as [c|t]; cbn in H.
  - apply bind_Ret_inv in H as (s0 & h0 & Hg & H).
    apply getShadow_Ret_inv in Hg as [-> Hg].
    apply bind_Ret_inv in H as ([] & h2 & Hm & H). injection H as <- _.
    apply modify_Ret_inv in Hm as (sc & Hc & ->).
    destruct (decide (c = o)) as [->|Hne].
    + eexists. split; [apply list_lookup_insert_eq; by eapply lookup_lt_Some|].
      assert (sc = so) as -> by congruence. done.
    + exists so. by rewrite list_lookup_insert_ne.
  - injection H as <- _. eauto 10.
Qed.

Lemma mapM_attachChild_frame this args h h2 tmp o so :
  mapM (attachChild this) args h = (h2, Ret tmp) -> h !! o = Some so ->
  exists so2,
    h2 !! o = Some so2
    /\ children so2 = children so /\ attributes so2 = attributes so
    /\ static so2 = static so
    /\ (~ In (AElement o) args -> so2 = so).
Proof.
  revert h h2 tmp so. induction args as [|a args IH]; intros h h2 tmp so H Hl.
  - injection H as <- _. eauto 10.
  - cbn [mapM] in H. apply bind_Ret_inv in H as (ch & h1 & Ha & H).
    apply bind_Ret_inv in H as (chs & h3 & Hm & H). injection H as <- _.
    destruct (attachChild_frame _ _ _ _ _ _ _ Ha Hl) as (so1 & Hl1 & Hc1 & Ha1 & Hs1 & Hn1).
    destruct (IH _ _ _ _ Hm Hl1) as (so2 & Hl2 & Hc2 & Ha2 & Hs2 & Hn2).
    exists so2. split; [done|]. split; [congruence|]. split; [congruence|].
    split; [congruence|]. intros Hni.
    rewrite Hn2, Hn1; [done| |]; intros Hin; apply Hni; [by left|by right].
Qed.

Lemma attachChild_length this a h h1 ch :
  attachChild this a h = (h1, Ret ch) -> length h1 = length h.
Proof.
  destruct a as [c|t]; cbn; intros H.
  - apply bind_Ret_inv in H as (s0 & h0 & Hg & H).
    apply getShadow_Ret_inv in Hg as [-> Hg].
    apply bind_Ret_inv in H as ([] & h4 & Hm & H). injection H as <- _.
    apply modify_Ret_inv in Hm as (sc & Hc & ->). apply length_insert.
  - by injection H as <- _.
Qed.

Lemma mapM_attachChild_length this args h h2 tmp :
  mapM (attachChild this) args h = (h2, Ret tmp) -> length h2 = length h.
Proof.
  revert h h2 tmp. induction args as [|a args IH]; intros h h2 tmp H.
  - by injection H as <- _.
  - cbn [mapM] in H. apply bind_Ret_inv in H as (ch & h1 & Ha & H).
    apply bind_Ret_inv in H as (chs & h3 & Hm & H). injection H as <- _.
    rewrite (IH _ _ _ Hm). by eapply attachChild_length.
Qed.

Lemma omap_id_Some {A} (l : list A) : omap id (map Some l) = l.
Proof. induction l as [|x l IH]; [done|]. cbn. by rewrite IH. Qed.

Lemma forEach_validateChild_Ret this args h :
  (forEach (validateChild this) args h).2 = Ret tt ->
  (forall t, In (AText t) args -> validateText t = true)
  /\ (forall c, In (AElement c) args ->
        c <> this
        /\ (exists cs, h !! c = Some cs /\ parent cs = None)
        /\ exists s, h !! this = Some s /\ raw s = false).
Proof.
  intros H. apply forEach_Ret_all in H; [|apply readOnly_validateChild].
  rewrite Forall_forall in H. split.
  - intros t Hin. apply list_elem_of_In in Hin. specialize (H _ Hin).
    cbn in H. by destruct (validateText t).
  - intros c Hin. apply list_elem_of_In in Hin.
    by apply validateChild_element_Ret, H.
Qed.

(** The conditions and effect of a successful [append], kept for the
    properties below. *)
Lemma append_Ret_effect this args h h' :
  append this args h = (h', Ret tt) ->
  exists s s',
    h !! this = Some s /\ void s = false /\ escapable s = true
    /\ (forEach (validateChild this) args h).2 = Ret tt
    /\ h' !! this = Some s'
    /\ children s' = children s ++ map Some (map argChild args)
    /\ length h' = length h
    /\ (forall c, In (AElement c) args ->
          recordedAt this (length (children s)) h' c)
    /\ forall o so, h !! o = Some so ->
         exists so', h' !! o = Some so'
           /\ attributes so' = attributes so /\ static so' = static so
           /\ (o <> this -> children so' = children so)
           /\ (~ In (AElement o) args ->
               parent so' = parent so /\ parentIndex so' = parentIndex so).
Proof.
  intros H.
  destruct (append_Ret_spec _ _ _ _ H) as (s & s' & Hl & Hl' & Hc & Hrec).
  exists s, s'. revert H. rewrite append_unfold, Hl.
  destruct (void s) eqn:Hv; [done|].
  destruct (escapable s) eqn:He; cbn [negb]; [|done].
  destruct (forEach (validateChild this) args h).2 as [[]| | |] eqn:Hval; try done.
  intros H. apply bind_Ret_inv in H as (tmp & h2 & Hm & H).
  apply modify_Ret_inv in H as (s2 & Hl2 & ->).
  do 6 (split; [done|]). split.
  { rewrite length_insert. by eapply mapM_attachChild_length. }
  split; [done|].
  intros o so Ho.
  destruct (mapM_attachChild_frame _ _ _ _ _ _ _ Hm Ho) as (so2 & Ho2 & Hc2 & Ha2 & Hs2 & Hn2).
  destruct (decide (this = o)) as [<-|Hne].
  - eexists. split; [apply list_lookup_insert_eq; by eapply lookup_lt_Some|].
    assert (s2 = so2) as -> by congruence.
    split; [done|]. split; [done|]. split; [done|].
    intros Hni. by rewrite (Hn2 Hni).
  - exists so2. rewrite list_lookup_insert_ne by done.
    split; [done|]. split; [done|]. split; [done|]. split; [done|].
    intros Hni. by rewrite (Hn2 Hni).
Qed.

Lemma get_children_unfold this h :
  get_children this h =
  match h !! this with
  | Some s => (h, Ret (omap id (children s)))
  | None => (h, Stuck)
  end.
Proof. unfold get_children, bind. rewrite getShadow_unfold. by destruct (h !! this). Qed.

(** X10: when [append] returns, the receiver was neither void nor a
    script/style element, every text argument was valid, and every Element
    argument was another object without parent (and the receiver of no
    raw-text category).  Afterwards the children of the receiver are the
    former ones followed by the arguments in their order, every Element
    argument names the receiver as its parent, no object was created, and
    nothing else has changed: all attributes and static properties, the
    children of every other object, and the parent link of every object that
    is not an argument. *)
Theorem X10_append_effect (this : nat) (args : list Arg) (h h' : Heap) :
  append this args h = (h', Ret tt) ->
  exists s,
    h !! this = Some s /\ void s = false /\ escapable s = true
    /\ (forall t, In (AText t) args -> validateText t = true)
    /\ (forall c, In (AElement c) args ->
          c <> this /\ raw s = false
          /\ exists cs, h !! c = Some cs /\ parent cs = None)
    /\ get_children this h' = (h', Ret (omap id (children s) ++ map argChild args))
    /\ (forall c, In (AElement c) args ->
          get_parentElement c h' = (h', Ret (Some this)))
    /\ length h' = length h
    /\ forall o so, h !! o = Some so ->
         exists so', h' !! o = Some so'
           /\ attributes so' = attributes so /\ static so' = static so
           /\ (o <> this -> children so' = children so)
           /\ (~ In (AElement o) args ->
               parent so' = parent so /\ parentIndex so' = parentIndex so).
Proof.
  intros H.
  destruct (append_Ret_effect _ _ _ _ H)
    as (s & s' & Hl & Hv & He & Hval & Hl' & Hc & Hlen & Hrec & Hframe).
  destruct (forEach_validateChild_Ret _ _ _ Hval) as [Htexts Helems].
  exists s. do 3 (split; [done|]). split; [done|]. split.
  { intros c Hin. destruct (Helems c Hin) as (Hne & Hcs & s0 & Hs0 & Hr).
    assert (s0 = s) as -> by congruence. done. }
  split.
  { rewrite get_children_unfold, Hl', Hc, omap_app. by rewrite omap_id_Some. }
  split; [|done].
  intros c Hin. destruct (Hrec c Hin) as (sc & Hsc & Hp & _).
  by rewrite get_parentElement_unfold, Hsc, Hp.
Qed.

(** X10 at [p.append (a, b)]. *)
Lemma X10_append_effect_witness :
  exists s,
    heap_three_apart !! 0%nat = Some s /\ void s = false /\ escapable s = true
    /\ (forall t, In (AText t) [AElement 1; AElement 2] -> validateText t = true)
    /\ (forall c, In (AElement c) [AElement 1; AElement 2] ->
          c <> 0%nat /\ raw s = false
          /\ exists cs, heap_three_apart !! c = Some cs /\ parent cs = None)
    /\ get_children 0 heap_two_at_once
       = (heap_two_at_once,
          Ret (omap id (children s) ++ map argChild [AElement 1; AElement 2]))
    /\ (forall c, In (AElement c) [AElement 1; AElement 2] ->
          get_parentElement c heap_two_at_once = (heap_two_at_once, Ret (Some 0%nat)))
    /\ length heap_two_at_once = length heap_three_apart
    /\ forall o so, heap_three_apart !! o = Some so ->
         exists so', heap_two_at_once !! o = Some so'
           /\ attributes so' = attributes so /\ static so' = static so
           /\ (o <> 0%nat -> children so' = children so)
           /\ (~ In (AElement o) [AElement 1; AElement 2] ->
               parent so' = parent so /\ parentIndex so' = parentIndex so).
Proof.
  apply (X10_append_effect 0 [AElement 1; AElement 2] heap_three_apart
           heap_two_at_once).
  by vm_compute.
Defined.

(** X11: an Element that was the first argument of a successful [append]
    can be removed again: [remove] then returns, the Element has no parent,
    and the children of the receiver are the former ones followed by the
    other arguments of that call. *)
Theorem X11_append_then_remove (this c : nat) (rest : list Arg) (h h1 : Heap) :
  append this (AElement c :: rest) h = (h1, Ret tt) ->
  exists s h2,
    h !! this = Some s
    /\ remove c h1 = (h2, Ret tt)
    /\ get_parentElement c h2 = (h2, Ret None)
    /\ get_children this h2
       = (h2, Ret (omap id (children s) ++ map argChild rest)).
Proof.
  intros H.
  destruct (append_Ret_effect _ _ _ _ H)
    as (s & s' & Hl & Hv & He & Hval & Hl' & Hc & Hlen & Hrec & Hframe).
  destruct (Hrec c (or_introl eq_refl)) as (sc & Hsc & Hp & Hi).
  assert (Hlt : (this < length h1)%nat) by (by eapply lookup_lt_Some).
  assert (Hltc : (c < length h1)%nat) by (by eapply lookup_lt_Some).
  set (D := deleteSlot (parentIndex sc) (children s')).
  assert (HD : omap id D = omap id (children s) ++ map argChild rest).
  { unfold D. rewrite Hi, Hc. cbn [deleteSlot map].
    rewrite insert_app_r_alt by lia. rewrite Nat.sub_diag. cbn [insert list_insert].
    rewrite omap_app. cbn. by rewrite omap_id_Some. }
  exists s. rewrite remove_unfold, Hsc, Hp, Hl'. cbn zeta. fold D.
  destruct (decide (this = c)) as [<-|Hne].
  - rewrite list_lookup_insert_eq by done.
    eexists. split; [done|]. split; [reflexivity|].
    rewrite get_parentElement_unfold, get_children_unfold.
    rewrite list_lookup_insert_eq by (by rewrite length_insert).
    by rewrite <- HD.
  - rewrite list_lookup_insert_ne, Hsc by done.
    eexists. split; [done|]. split; [reflexivity|].
    rewrite get_parentElement_unfold, get_children_unfold.
    rewrite list_lookup_insert_eq by (by rewrite length_insert).
    rewrite list_lookup_insert_ne, list_lookup_insert_eq by done.
    by rewrite <- HD.
Qed.

(** X11 at [p.append (e)] of the sample heap. *)
Lemma X11_append_then_remove_witness :
  exists s h2,
    heap_two_apart !! 0%nat = Some s
    /\ remove 1 heap_div_span = (h2, Ret tt)
    /\ get_parentElement 1 h2 = (h2, Ret None)
    /\ get_children 0 h2 = (h2, Ret (omap id (children s) ++ map argChild [])).
Proof.
  apply (X11_append_then_remove 0 1 [] heap_two_apart heap_div_span).
  by vm_compute.
Defined.

(** ** [clear] *)

Lemma holesOf_refl a : holesOf a a.
Proof. split; [done|]. by left. Qed.

Lemma holesOf_trans a b c : holesOf a b -> holesOf b c -> holesOf a c.
Proof.
  intros [Hl1 H1] [Hl2 H2]. split; [congruence|]. intros i.
  destruct (H2 i) as [Hq | Hq]; rewrite Hq; [apply H1|by right].
Qed.

Lemma holesOf_deleteSlot i a : holesOf a (deleteSlot i a).
Proof.
  split; [apply deleteSlot_length|]. intros j. destruct i as [i|]; [|by left].
  cbn. destruct (decide (i = j)) as [<-|Hne].
  - destruct (decide (i < length a)%nat).
    + right. by apply list_lookup_insert_eq.
    + left. by rewrite list_insert_ge by lia.
  - left. by apply list_lookup_insert_ne.
Qed.

Lemma detaches_refl E h : detaches E h h.
Proof.
  split; [done|]. intros o so Hl. exists so. split; [done|].
  split; [done|]. split; [done|]. split; [apply holesOf_refl|]. by left.
Qed.

Lemma detaches_trans E h1 h2 h3 :
  detaches E h1 h2 -> detaches E h2 h3 -> detaches E h1 h3.
Proof.
  intros [Hlen1 H1] [Hlen2 H2]. split; [congruence|]. intros o s1 Hl1.
  destruct (H1 _ _ Hl1) as (s2 & Hl2 & Ha2 & Hs2 & Hh2 & Hp2).
  destruct (H2 _ _ Hl2) as (s3 & Hl3 & Ha3 & Hs3 & Hh3 & Hp3).
  exists s3. split; [done|]. split; [congruence|]. split; [congruence|].
  split; [by eapply holesOf_trans|].
  destruct Hp3 as [[Hp3 Hi3]|Hp3]; [|by right].
  destruct Hp2 as [[Hp2 Hi2]|(Hp2 & Hi2 & Hin)]; [left|right]; split; try congruence.
  split; [congruence|done].
Qed.

Lemma detaches_insert E h o so so' :
  h !! o = Some so ->
  attributes so' = attributes so -> static so' = static so ->
  holesOf (children so) (children so') ->
  ((parent so' = parent so /\ parentIndex so' = parentIndex so)
   \/ (parent so' = None /\ parentIndex so' = None /\ In (Some (CElement o)) E)) ->
  detaches E h (<[o := so']> h).
Proof.
  intros Hl Ha Hs Hh Hp. split; [apply length_insert|]. intros o' s Hl'.
  destruct (decide (o = o')) as [<-|Hne].
  - exists so'. rewrite list_lookup_insert_eq by (by eapply lookup_lt_Some).
    assert (s = so) as -> by congruence. done.
  - exists s. rewrite list_lookup_insert_ne by done.
    split; [done|]. split; [done|]. split; [done|].
    split; [apply holesOf_refl|]. by left.
Qed.

(** What [remove] does to the heap, whatever its outcome. *)
Lemma detaches_remove E c h :
  In (Some (CElement c)) E -> detaches E h (remove c h).1.
Proof.
  intros Hin. rewrite remove_unfold.
  destruct (h !! c) as [s|] eqn:Hl; [|apply detaches_refl].
  destruct (parent s) as [p|] eqn:Hp; [|apply detaches_refl].
  destruct (h !! p) as [ps|] eqn:Hlp; [|apply detaches_refl]. cbn zeta.
  assert (H1 : detaches E h
            (<[p := with_children (deleteSlot (parentIndex s) (children ps)) ps]> h)).
  { apply (detaches_insert _ _ _ ps); try done.
    - apply holesOf_deleteSlot.
    - by left. }
  destruct (<[p := _]> h !! c) as [s1|] eqn:Hl1; cbn [fst]; [|done].
  eapply detaches_trans; [exact H1|].
  apply (detaches_insert _ _ _ s1); try done.
  - apply holesOf_refl.
  - right. done.
Qed.

(** The loop of [clear]: while the live children array of the receiver is
    the array [E] with holes, it does what [detaches E] allows. *)
Lemma detaches_clearLoop E n this i h :
  (forall s, h !! this = Some s -> holesOf E (children s)) ->
  detaches E h (clearLoop n this i h).1.
Proof.
  revert i h. induction n as [|n IH]; intros i h HE; [apply detaches_refl|].
  cbn [clearLoop]. rewrite bind_unfold, getShadow_unfold.
  destruct (h !! this) as [s|] eqn:Hl; cbn [fst snd]; [|apply detaches_refl].
  specialize (HE s eq_refl) as HEs.
  destruct (children s !! i) as [[[c|t]|]|] eqn:Hi;
    try (apply IH; intros s0; rewrite Hl; apply HE).
  assert (Hin : In (Some (CElement c)) E).
  { destruct HEs as [_ HEs]. destruct (HEs i) as [Hsame|Hhole]; [|congruence].
    apply list_elem_of_In. eapply list_elem_of_lookup_2. by rewrite <- Hsame. }
  rewrite bind_unfold. pose proof (detaches_remove E c h Hin) as Hd.
  destruct (remove c h) as [h1 [[]| | |]]; cbn [fst snd] in *; try done.
  eapply detaches_trans; [exact Hd|]. apply IH.
  intros s1 Hl1. destruct Hd as [_ Hd].
  destruct (Hd _ _ Hl) as (s1' & Hl1' & _ & _ & Hh & _).
  assert (s1' = s1) as -> by congruence. by eapply holesOf_trans.
Qed.

(** X12: [clear] never throws.  When it returns, the children array of the
    receiver is empty, no object has appeared or disappeared, attributes and
    static properties are what they were, the children arrays of the other
    objects have at most got holes, and every Element either has the parent
    link and recorded position it had, or has lost both and is an entry of
    the former children array of the receiver: an Element that the array
    does not list keeps its parent. *)
Theorem X12_clear_effect (this : nat) (h h' : Heap) (s : Shadow) :
  h !! this = Some s -> clear this h = (h', Ret tt) ->
  (forall h0 h1 e, clear this h0 <> (h1, Throw e))
  /\ get_children this h' = (h', Ret [])
  /\ length h' = length h
  /\ forall o so, h !! o = Some so ->
       exists so',
         h' !! o = Some so'
         /\ attributes so' = attributes so /\ static so' = static so
         /\ (o <> this -> holesOf (children so) (children so'))
         /\ ((parent so' = parent so /\ parentIndex so' = parentIndex so)
             \/ (parent so' = None /\ parentIndex so' = None
                 /\ In (Some (CElement o)) (children s))).
Proof.
  intros Hl H. split.
  { intros h0 h1 e H0. by destruct (neverThrows_clear this h0 e); rewrite H0. }
  destruct (clear_Ret_children _ _ _ _ H) as (s' & Hl' & Hc').
  split; [by rewrite get_children_unfold, Hl', Hc'|].
  unfold clear in H. apply bind_Ret_inv in H as (s0 & h0 & Hg & H).
  apply getShadow_Ret_inv in Hg as [-> Hg]. assert (s0 = s) as -> by congruence.
  apply bind_Ret_inv in H as ([] & h2 & Hloop & H).
  apply modify_Ret_inv in H as (s2 & Hl2 & ->).
  pose proof (detaches_clearLoop (children s) (length (children s)) this 0 h) as Hd.
  rewrite Hloop in Hd. cbn [fst] in Hd.
  destruct Hd as [Hlen Hd].
  { intros s1 Hs1. assert (s1 = s) as -> by congruence. apply holesOf_refl. }
  split; [by rewrite length_insert|].
  intros o so Ho. destruct (Hd _ _ Ho) as (so2 & Ho2 & Ha & Hs & Hh & Hp).
  destruct (decide (this = o)) as [<-|Hne].
  - eexists. split; [apply list_lookup_insert_eq; by eapply lookup_lt_Some|].
    assert (so2 = s2) as -> by congruence.
    assert (so = s) as -> by congruence. done.
  - exists so2. by rewrite list_lookup_insert_ne.
Qed.

(** X12 at the 'html' element of a new document. *)
Lemma X12_clear_effect_witness :
  exists s h',
    heap_document !! 0%nat = Some s /\ clear 0 heap_document = (h', Ret tt)
    /\ (forall h0 h1 e, clear 0 h0 <> (h1, Throw e))
    /\ get_children 0 h' = (h', Ret [])
    /\ length h' = length heap_document
    /\ forall o so, heap_document !! o = Some so ->
         exists so',
           h' !! o = Some so'
           /\ attributes so' = attributes so /\ static so' = static so
           /\ (o <> 0%nat -> holesOf (children so) (children so'))
           /\ ((parent so' = parent so /\ parentIndex so' = parentIndex so)
               \/ (parent so' = None /\ parentIndex so' = None
                   /\ In (Some (CElement o)) (children s))).
Proof.
  eexists _, _. split; [reflexivity|]. split; [reflexivity|].
  apply (X12_clear_effect 0 heap_document); reflexivity.
Defined.

(** ** Text, script and style, and the chains of parents *)

Lemma depth_alive h o n : depth h o n -> (o < length h)%nat.
Proof. intros [? s Hl _|? s ? ? Hl _ _]; by eapply lookup_lt_Some. Qed.

Lemma depth_functional h o n m : depth h o n -> depth h o m -> n = m.
Proof.
  intros H. revert m. induction H as [o s Hl Hp|o s p n Hl Hp _ IH]; intros m Hm.
  - destruct Hm as [|? s' p' ? Hl' Hp']; [done|congruence].
  - destruct Hm as [? s' Hl' Hp'|? s' p' m Hl' Hp' Hm]; [congruence|].
    f_equal. apply IH. congruence.
Qed.

(** An ancestor is not deeper than its descendant. *)
Lemma depth_chain h a e n :
  onAncestorChain h a e -> depth h e n -> exists m, (m <= n)%nat /\ depth h a m.
Proof.
  intros H. revert n. induction H as [e s Hl|a e s p Hl Hp _ IH]; intros n Hn.
  - exists n. split; [lia|done].
  - destruct Hn as [? s' Hl' Hp'|? s' p' n Hl' Hp' Hn]; [congruence|].
    assert (p' = p) as -> by congruence.
    destruct (IH _ Hn) as (m & Hm & Hd). exists m. split; [lia|done].
Qed.

Lemma depth_app h l o n : depth h o n -> depth (h ++ l) o n.
Proof.
  induction 1 as [o s Hl Hp|o s p n Hl Hp _ IH].
  - eapply depth_root; [by apply lookup_app_l_Some|done].
  - eapply depth_up; [by apply lookup_app_l_Some|done|done].
Qed.

Lemma loosens_refl h : loosens h h.
Proof.
  split; [done|]. intros o so Hl. exists so. split; [done|]. split; [done|].
  split; [left; apply holesOf_refl|by left].
Qed.

Lemma loosens_lookup h h' o so' :
  loosens h h' -> h' !! o = Some so' ->
  exists so, h !! o = Some so /\ static so' = static so
    /\ (holesOf (children so) (children so') \/ children so' = [])
    /\ (parent so' = parent so \/ parent so' = None).
Proof.
  intros [Hlen H] Hl'. destruct (lookup_lt_is_Some_2 h o) as [so Hl].
  { rewrite <- Hlen. by eapply lookup_lt_Some. }
  destruct (H _ _ Hl) as (so'' & Hl'' & Hrest).
  assert (so'' = so') as -> by congruence. by exists so.
Qed.

Lemma depth_loosens h h' o n :
  loosens h h' -> depth h o n -> exists m, depth h' o m.
Proof.
  intros [_ H]. induction 1 as [o s Hl Hp|o s p n Hl Hp _ [m IH]].
  - destruct (H _ _ Hl) as (s' & Hl' & _ & _ & Hp'). exists 0%nat.
    eapply depth_root; [done|]. destruct Hp' as [Hq|Hq]; rewrite Hq; done.
  - destruct (H _ _ Hl) as (s' & Hl' & _ & _ & [Hp'|Hp']).
    + exists (S m). eapply (depth_up _ _ s' p); [done|congruence|done].
    + exists 0%nat. by eapply depth_root.
Qed.

Lemma tidy_loosens h h' : tidy h -> loosens h h' -> tidy h'.
Proof.
  intros [Ht Hr Hc Hd] Hlo. split.
  - intros o s' Hl'.
    destruct (loosens_lookup _ _ _ _ Hlo Hl') as (s & Hl & _ & [[_ Hh]|Hh] & _);
      [|rewrite Hh; constructor].
    apply Forall_lookup. intros i x Hx. destruct (Hh i) as [Hi|Hi].
    + specialize (Ht _ _ Hl). rewrite Forall_lookup in Ht. apply (Ht i).
      congruence.
    + by assert (x = None) as -> by congruence.
  - intros o s' Hl' He.
    destruct (loosens_lookup _ _ _ _ Hlo Hl') as (s & Hl & Hst & [[Hlen _]|Hh] & _);
      [|done].
    injection Hst as _ _ _ _ He'. rewrite (Hr _ _ Hl) in Hlen by congruence.
    by apply nil_length_inv.
  - intros o s' c Hl' Hin.
    destruct (loosens_lookup _ _ _ _ Hlo Hl') as (s & Hl & _ & [[_ Hh]|Hh] & _);
      [|by rewrite Hh in Hin].
    destruct Hlo as [-> _]. apply (Hc o s c Hl).
    apply list_elem_of_In, list_elem_of_lookup in Hin as [i Hi].
    apply list_elem_of_In. destruct (Hh i) as [Hi'|Hi']; [|congruence].
    eapply list_elem_of_lookup_2. by rewrite <- Hi'.
  - intros o s' Hl'.
    destruct (loosens_lookup _ _ _ _ Hlo Hl') as (s & Hl & _).
    destruct (Hd _ _ Hl) as [n Hn]. by eapply depth_loosens.
Qed.

Lemma detaches_loosens E h h' : detaches E h h' -> loosens h h'.
Proof.
  intros [Hlen H]. split; [done|]. intros o so Hl.
  destruct (H _ _ Hl) as (so' & Hl' & _ & Hst & Hh & Hp). exists so'.
  split; [done|]. split; [done|]. split; [by left|].
  destruct Hp as [[Hp _]|[Hp _]]; [by left|by right].
Qed.

Lemma loosens_trans h1 h2 h3 : loosens h1 h2 -> loosens h2 h3 -> loosens h1 h3.
Proof.
  intros [Hlen1 H1] [Hlen2 H2]. split; [congruence|]. intros o s1 Hl1.
  destruct (H1 _ _ Hl1) as (s2 & Hl2 & Hs2 & Hh2 & Hp2).
  destruct (H2 _ _ Hl2) as (s3 & Hl3 & Hs3 & Hh3 & Hp3).
  exists s3. split; [done|]. split; [congruence|]. split.
  - destruct Hh3 as [Hh3|Hh3]; [|by right]. destruct Hh2 as [Hh2|Hh2].
    + left. by eapply holesOf_trans.
    + right. destruct Hh3 as [Hlen _]. rewrite Hh2 in Hlen.
      by apply nil_length_inv.
  - destruct Hp3 as [Hp3|Hp3]; [|by right].
    destruct Hp2 as [Hp2|Hp2]; [left|right]; congruence.
Qed.

Lemma loosens_insert h o so so' :
  h !! o = Some so -> static so' = static so ->
  holesOf (children so) (children so') \/ children so' = [] ->
  parent so' = parent so \/ parent so' = None ->
  loosens h (<[o := so']> h).
Proof.
  intros Hl Hs Hh Hp. split; [apply length_insert|]. intros o' s Hl'.
  destruct (decide (o = o')) as [<-|Hne].
  - exists so'. rewrite list_lookup_insert_eq by (by eapply lookup_lt_Some).
    assert (s = so) as -> by congruence. done.
  - exists s. rewrite list_lookup_insert_ne by done.
    split; [done|]. split; [done|]. split; [left; apply holesOf_refl|by left].
Qed.

Lemma keeps_ret {A} (a : A) : keeps (ret a).
Proof. by intros h. Qed.

Lemma keeps_bind {A B} (m : M A) (k : A -> M B) :
  keeps m -> (forall a, keeps (k a)) -> keeps (bind m k).
Proof.
  intros Hm Hk h Hh. rewrite bind_unfold. specialize (Hm h Hh).
  destruct (m h) as [h1 [a| | |]]; cbn [fst snd] in *; try done. by apply Hk.
Qed.

Lemma keeps_remove this : keeps (remove this).
Proof.
  intros h Hh. eapply tidy_loosens; [exact Hh|].
  apply (detaches_loosens [Some (CElement this)]), detaches_remove. by left.
Qed.

Lemma keeps_clear this : keeps (clear this).
Proof.
  intros h Hh. eapply tidy_loosens; [exact Hh|].
  unfold clear. rewrite bind_unfold, getShadow_unfold.
  destruct (h !! this) as [s|] eqn:Hl; cbn [fst snd]; [|apply loosens_refl].
  rewrite bind_unfold.
  pose proof (detaches_clearLoop (children s) (length (children s)) this 0 h) as Hd.
  destruct (clearLoop _ this 0 h) as [h1 [[]| | |]]; cbn [fst snd] in *;
    try (apply (detaches_loosens (children s)), Hd; intros s1 Hs1;
         assert (s1 = s) as -> by congruence; apply holesOf_refl).
  eapply loosens_trans.
  - apply (detaches_loosens (children s)), Hd. intros s1 Hs1.
    assert (s1 = s) as -> by congruence. apply holesOf_refl.
  - unfold modify. destruct (h1 !! this) as [s1|] eqn:Hl1; cbn [fst];
      [|apply loosens_refl].
    apply (loosens_insert _ _ s1); try done; [by right|by left].
Qed.

Lemma keeps_setAttribute this aname value : keeps (setAttribute this aname value).
Proof.
  intros h Hh. eapply tidy_loosens; [exact Hh|].
  unfold setAttribute. rewrite bind_unfold, getShadow_unfold.
  destruct (h !! this) as [s|] eqn:Hl; cbn [fst snd]; [|apply loosens_refl].
  destruct (negb (validateToken aname)); [apply loosens_refl|].
  destruct (negb (validateText value)); [apply loosens_refl|].
  unfold modify. rewrite Hl. cbn [fst].
  apply (loosens_insert _ _ s); try done; [left; apply holesOf_refl|by left].
Qed.

Lemma keeps_removeAttribute this aname : keeps (removeAttribute this aname).
Proof.
  intros h Hh. eapply tidy_loosens; [exact Hh|].
  unfold removeAttribute, modify.
  destruct (h !! this) as [s|] eqn:Hl; cbn [fst snd]; [|apply loosens_refl].
  apply (loosens_insert _ _ s); try done; [left; apply holesOf_refl|by left].
Qed.

Lemma keeps_newElement tagName : keeps (newElement tagName).
Proof.
  intros h [Ht Hr Hc Hd]. unfold newElement.
  destruct (negb (validateToken tagName)); cbn [fst]; [done|].
  split.
  - intros o s Hl. apply lookup_app_Some in Hl as [Hl|[_ Hl]]; [by eapply Ht|].
    apply list_lookup_singleton_Some in Hl as [_ <-]. constructor.
  - intros o s Hl. apply lookup_app_Some in Hl as [Hl|[_ Hl]]; [by eapply Hr|].
    by apply list_lookup_singleton_Some in Hl as [_ <-].
  - intros o s c Hl Hin. rewrite length_app. cbn.
    apply lookup_app_Some in Hl as [Hl|[_ Hl]].
    + specialize (Hc _ _ _ Hl Hin). lia.
    + by apply list_lookup_singleton_Some in Hl as [_ <-].
  - intros o s Hl. apply lookup_app_Some in Hl as [Hl|[Hge Hl]].
    + destruct (Hd _ _ Hl) as [n Hn]. exists n. by apply depth_app.
    + apply list_lookup_singleton_Some in Hl as [Ho <-]. exists 0%nat.
      eapply (depth_root _ _ (newShadow tagName)); [|done].
      assert (o = length h) as -> by lia. by apply list_lookup_middle.
Qed.

(** An Element argument that the first loop of [append] accepts is not on
    the chain of parents of the receiver. *)
Lemma validateChild_not_ancestor this c h :
  (validateChild this (AElement c) h).2 = Ret tt -> ~ onAncestorChain h c this.
Proof.
  intros H Hch. rewrite validateChild_element_unfold in H.
  destruct (h !! c) as [cs|]; [|done]. destruct (parent cs); [done|].
  destruct (h !! this) as [s|]; [|done]. destruct (raw s); [done|].
  by rewrite (onAncestorChain_walk _ _ _ Hch) in H.
Qed.

Lemma Arg_eq_dec (a b : Arg) : {a = b} + {a <> b}.
Proof.
  decide equality; [apply Nat.eq_dec|apply (List.list_eq_dec Z.eq_dec)].
Defined.

Lemma mapM_attachChild_total this args h :
  is_Some (h !! this) ->
  (forall c, In (AElement c) args -> is_Some (h !! c)) ->
  exists h2 tmp, mapM (attachChild this) args h = (h2, Ret tmp).
Proof.
  revert h. induction args as [|a args IH]; intros h Hthis Hargs; cbn [mapM].
  - by eexists _, _.
  - assert (exists h1 ch, attachChild this a h = (h1, Ret ch)) as (h1 & ch & Ha).
    { destruct a as [c|t]; cbn [attachChild]; [|by eexists _, _].
      destruct Hthis as [s Hs]. destruct (Hargs c) as [sc Hsc]; [by left|].
      rewrite bind_unfold, getShadow_unfold, Hs. cbn [fst snd].
      rewrite bind_unfold. unfold modify. rewrite Hsc. cbn. by eexists _, _. }
    destruct (IH h1) as (h2 & tmp & Hm).
    + destruct Hthis as [s Hs].
      destruct (attachChild_frame _ _ _ _ _ _ _ Ha Hs) as (s1 & -> & _). done.
    + intros c Hc. destruct (Hargs c) as [sc Hsc]; [by right|].
      destruct (attachChild_frame _ _ _ _ _ _ _ Ha Hsc) as (s1 & -> & _). done.
    + rewrite (bind_Ret _ _ _ _ _ Ha), (bind_Ret _ _ _ _ _ Hm). by eexists _, _.
Qed.

(** [append] either returns, or leaves the heap as it was. *)
Lemma append_cases this args h :
  (exists h', append this args h = (h', Ret tt)) \/ (append this args h).1 = h.
Proof.
  rewrite append_unfold.
  destruct (h !! this) as [s|] eqn:Hl; [|by right].
  destruct (void s); [by right|]. destruct (negb (escapable s)); [by right|].
  destruct (forEach (validateChild this) args h).2 as [[]| | |] eqn:Hval;
    try by right.
  left. apply forEach_validateChild_Ret in Hval as [_ Hval].
  destruct (mapM_attachChild_total this args h) as (h2 & tmp & Hm); [done| |].
  { intros c Hc. destruct (Hval c Hc) as (_ & (cs & -> & _) & _). done. }
  rewrite (bind_Ret _ _ _ _ _ Hm).
  destruct (mapM_attachChild_frame _ _ _ _ _ _ _ Hm Hl) as (s2 & Hl2 & _).
  rewrite (modify_Ret _ _ _ _ Hl2). by eexists.
Qed.

Lemma keeps_append this args : keeps (append this args).
Proof.
  intros h [Ht Hr Hc Hd].
  destruct (append_cases this args h) as [[h' H]|H]; [|by rewrite H].
  rewrite H. cbn [fst].
  destruct (append_Ret_effect _ _ _ _ H)
    as (s & s' & Hl & Hv & He & Hval & Hl' & Hch & Hlen & Hrec & Hfr).
  pose proof (forEach_validateChild_Ret _ _ _ Hval) as [Htext Helem].
  assert (Hback : forall o so', h' !! o = Some so' ->
            exists so, h !! o = Some so /\ static so' = static so
              /\ (o <> this -> children so' = children so)).
  { intros o so' Ho'. destruct (lookup_lt_is_Some_2 h o) as [so Ho].
    { rewrite <- Hlen. by eapply lookup_lt_Some. }
    destruct (Hfr _ _ Ho) as (so'' & Ho'' & _ & Hst & Hc' & _).
    assert (so'' = so') as -> by congruence. by exists so. }
  split.
  - intros o so' Ho'. destruct (Hback _ _ Ho') as (so & Ho & _ & Hsame).
    destruct (decide (o = this)) as [->|Hne]; [|rewrite Hsame by done; eauto].
    assert (so' = s') as -> by congruence. rewrite Hch.
    apply Forall_app. split; [by eapply Ht|].
    apply Forall_forall. intros x Hx.
    apply list_elem_of_fmap in Hx as (ch & -> & Hx).
    apply list_elem_of_fmap in Hx as (a & -> & Ha).
    destruct a as [c|t]; [done|]. cbn. apply Htext. by apply list_elem_of_In.
  - intros o so' Ho' Hesc. destruct (Hback _ _ Ho') as (so & Ho & Hst & Hsame).
    injection Hst as _ _ _ _ Hesc'.
    destruct (decide (o = this)) as [->|Hne]; [congruence|].
    rewrite Hsame by done. eapply Hr; [done|congruence].
  - intros o so' c Ho' Hin. rewrite Hlen.
    destruct (Hback _ _ Ho') as (so & Ho & _ & Hsame).
    destruct (decide (o = this)) as [->|Hne];
      [|rewrite Hsame in Hin by done; eauto].
    assert (so' = s') as -> by congruence. rewrite Hch in Hin.
    apply in_app_or in Hin as [Hin|Hin]; [exact (Hc _ _ _ Hl Hin)|].
    apply in_map_iff in Hin as (ch & [= ->] & Hin).
    apply in_map_iff in Hin as (a & Ha & Hin).
    destruct a as [c'|t]; [|done]. injection Ha as ->.
    destruct (Helem _ Hin) as (_ & (cs & Hcs & _) & _). by eapply lookup_lt_Some.
  - assert (Hkeep : forall x n, depth h x n ->
              (forall c, In (AElement c) args -> ~ onAncestorChain h c x) ->
              depth h' x n).
    { induction 1 as [x sx Hx Hp|x sx p n Hx Hp _ IH]; intros Hno.
      - destruct (Hfr _ _ Hx) as (sx' & Hx' & _ & _ & _ & Hpar).
        destruct Hpar as [Hpar _].
        { intros Hin. apply (Hno _ Hin). by eapply chain_self. }
        eapply depth_root; [done|congruence].
      - destruct (Hfr _ _ Hx) as (sx' & Hx' & _ & _ & _ & Hpar).
        destruct Hpar as [Hpar _].
        { intros Hin. apply (Hno _ Hin). by eapply chain_self. }
        eapply (depth_up _ _ sx' p); [done|congruence|]. apply IH.
        intros c Hin Hon. apply (Hno _ Hin). by eapply chain_up. }
    destruct (Hd _ _ Hl) as [nthis Hnthis].
    assert (Hthis : depth h' this nthis).
    { apply Hkeep; [done|]. intros c Hin. apply validateChild_not_ancestor.
      apply forEach_Ret_all in Hval; [|apply readOnly_validateChild].
      rewrite Forall_forall in Hval. apply Hval. by apply list_elem_of_In. }
    assert (Hall : forall x n, depth h x n -> exists m, depth h' x m).
    { induction 1 as [x sx Hx Hp|x sx p n Hx Hp _ [m IH]].
      - destruct (in_dec Arg_eq_dec (AElement x) args) as [Hin|Hnin].
        + destruct (Hrec _ Hin) as (sx' & Hx' & Hp' & _).
          exists (S nthis). by eapply (depth_up _ _ sx' this).
        + destruct (Hfr _ _ Hx) as (sx' & Hx' & _ & _ & _ & Hpar).
          destruct (Hpar Hnin) as [Hpar' _]. exists 0%nat.
          eapply depth_root; [done|congruence].
      - destruct (in_dec Arg_eq_dec (AElement x) args) as [Hin|Hnin].
        + destruct (Hrec _ Hin) as (sx' & Hx' & Hp' & _).
          exists (S nthis). by eapply (depth_up _ _ sx' this).
        + destruct (Hfr _ _ Hx) as (sx' & Hx' & _ & _ & _ & Hpar).
          destruct (Hpar Hnin) as [Hpar' _]. exists (S m).
          eapply (depth_up _ _ sx' p); [done|congruence|done]. }
    intros o so' Ho'. destruct (Hback _ _ Ho') as (so & Ho & _).
    destruct (Hd _ _ Ho) as [n Hn]. by eapply Hall.
Qed.

Lemma keeps_set_innerText this text : keeps (set_innerText this text).
Proof.
  apply keeps_bind; [apply keeps_clear|]. intros; apply keeps_append.
Qed.

Lemma keeps_Document_new : keeps Document.new.
Proof.
  unfold Document.new, Document.createElement.
  repeat first
    [ apply keeps_ret | apply keeps_newElement | apply keeps_setAttribute
    | apply keeps_append | apply keeps_bind | intros ? ].
Qed.

Lemma tidy_exec op h : tidy h -> tidy (exec op h).
Proof.
  destruct op; cbn [exec].
  - apply keeps_newElement.
  - apply keeps_append.
  - apply keeps_remove.
  - apply keeps_clear.
  - apply keeps_setAttribute.
  - apply keeps_removeAttribute.
  - apply keeps_set_innerText.
  - apply keeps_Document_new.
  - apply keeps_set_innerText.
Qed.

Lemma Reachable_tidy h : Reachable h -> tidy h.
Proof.
  induction 1 as [|h op _ IH]; [|by apply tidy_exec].
  split; intros;
    match goal with H : [] !! _ = Some _ |- _ => by rewrite lookup_nil in H end.
Qed.

(** X13: in every heap a program can reach, a script or style element has
    an empty children array: its [innerHTML] and [innerText] are empty,
    every [append] on it, even one without arguments, throws 'Raw text
    elements should not have contents', and so does every assignment to its
    [innerText]; the heap stays as it is. *)
Theorem X13_script_style_stay_empty (h : Heap) (e : nat) (s : Shadow) :
  Reachable h -> h !! e = Some s ->
  In (toLowerCase (realName s)) RAW_TEXT_ELEMENTS ->
  children s = []
  /\ get_innerHTML h e = Ret [] /\ get_innerText h e = Ret []
  /\ (forall args, append e args h = (h, Throw RawTextNoContents))
  /\ forall text, set_innerText e text h = (h, Throw RawTextNoContents).
Proof.
  intros Hr Hl Hin. pose proof (Reachable_tidy _ Hr) as [_ Hraw _ _].
  apply Reachable_wf in Hr. rewrite Forall_lookup in Hr.
  destruct (Hr _ _ Hl) as [_ Hname Hvoid _ Hesc _ _ _ _].
  rewrite <- Hname in Hin.
  assert (He : escapable s = false).
  { rewrite Hesc. by apply negb_false_iff, includes_In. }
  assert (Hv : void s = false).
  { rewrite Hvoid. destruct Hin as [<-|[<-|[]]]; reflexivity. }
  pose proof (Hraw _ _ Hl He) as Hc.
  assert (Happ : forall args, append e args h = (h, Throw RawTextNoContents)).
  { intros args. by rewrite append_unfold, Hl, Hv, He. }
  split; [done|]. split; [by unfold get_innerHTML; rewrite Hl, Hc|].
  split; [by unfold get_innerText; cbn; rewrite Hl, Hc|]. split; [done|].
  intros text. unfold set_innerText.
  assert (Hclear : clear e h = (h, Ret tt)).
  { unfold clear. rewrite bind_unfold, getShadow_unfold, Hl. cbn [fst snd].
    rewrite Hc. cbn [length clearLoop]. rewrite bind_unfold. cbn [ret fst snd].
    rewrite (modify_Ret _ _ _ _ Hl). f_equal. apply list_insert_id.
    rewrite Hl. f_equal. destruct s; cbn in *. by subst. }
  by rewrite (bind_Ret _ _ _ _ _ Hclear).
Qed.

(** X13 at [new Element ('script')]. *)
Lemma X13_script_style_stay_empty_witness :
  children (newShadow (js "script")) = []
  /\ get_innerHTML (exec (OpNewElement (js "script")) []) 0 = Ret []
  /\ get_innerText (exec (OpNewElement (js "script")) []) 0 = Ret []
  /\ (forall args, append 0 args (exec (OpNewElement (js "script")) [])
                   = (exec (OpNewElement (js "script")) [], Throw RawTextNoContents))
  /\ forall text, set_innerText 0 text (exec (OpNewElement (js "script")) [])
                  = (exec (OpNewElement (js "script")) [], Throw RawTextNoContents).
Proof.
  apply (X13_script_style_stay_empty (exec (OpNewElement (js "script")) []) 0
           (newShadow (js "script"))).
  - apply reach_step, reach_init.
  - reflexivity.
  - vm_compute. tauto.
Defined.

(** ** Serialization throws no [TypeError] *)

Lemma concatChildren_no_throw elem cs :
  Forall (fun c => textEntry c = true) cs ->
  (forall c, In (Some (CElement c)) cs ->
     elem c = Diverge \/ exists t, elem c = Ret t) ->
  concatChildren elem cs = Diverge \/ exists t, concatChildren elem cs = Ret t.
Proof.
  induction 1 as [|x cs Hx _ IH]; intros Helem; cbn [concatChildren]; [eauto|].
  destruct IH as [IH|[t IH]]; [intros c Hc; apply Helem; by right| |].
  - destruct x as [[c|t]|]; [| |by left].
    + destruct (Helem c) as [->|[a ->]]; [by left|by left|]. cbn. rewrite IH.
      by left.
    + cbn in Hx. rewrite (escapeText_valid _ Hx). cbn. rewrite IH. by left.
  - destruct x as [[c|a]|]; [| |eauto].
    + destruct (Helem c) as [->|[a ->]]; [by left|by left|]. cbn. rewrite IH.
      cbn. eauto.
    + cbn in Hx. rewrite (escapeText_valid _ Hx). cbn. rewrite IH. cbn. eauto.
Qed.

Lemma serializeAttributes_wf s :
  wf_shadow s ->
  exists t, serializeAttributes (attributes s) (sortKeys (ownKeys (attributes s)))
            = Ret t.
Proof.
  intros [_ _ _ _ _ _ _ _ Hvalues]. eexists. apply serializeAttributes_spec.
  - eapply Forall_impl; [exact Hvalues|]. by intros kv [_ ?].
  - intros k Hk. apply list_elem_of_In. rewrite <- (sortKeys_Permutation _).
    by apply list_elem_of_In.
Qed.

Lemma outerHTML_fuel_no_throw h fuel e :
  Forall wf_shadow h -> tidy h -> (e < length h)%nat ->
  outerHTML_fuel fuel h e = Diverge \/ exists t, outerHTML_fuel fuel h e = Ret t.
Proof.
  intros Hwf Ht. revert e. induction fuel as [|fuel IH]; intros e He; [by left|].
  rewrite outerHTML_fuel_unfold.
  destruct (lookup_lt_is_Some_2 h e He) as [s Hl]. rewrite Hl.
  rewrite Forall_lookup in Hwf.
  destruct (serializeAttributes_wf s (Hwf _ _ Hl)) as [attrs ->]. cbn [obind].
  destruct (void s); [eauto|].
  destruct (concatChildren_no_throw (outerHTML_fuel fuel h) (children s))
    as [->|[t ->]]; cbn [obind]; eauto.
  - by eapply tidy_text.
  - intros c Hc. apply IH. by eapply tidy_children.
Qed.

Lemma innerText_fuel_no_throw h fuel e :
  tidy h -> (e < length h)%nat ->
  innerText_fuel fuel h e = Diverge \/ exists t, innerText_fuel fuel h e = Ret t.
Proof.
  intros Ht. revert e. induction fuel as [|fuel IH]; intros e He; [by left|].
  cbn [innerText_fuel].
  destruct (lookup_lt_is_Some_2 h e He) as [s Hl]. rewrite Hl.
  apply concatChildren_no_throw.
  - by eapply tidy_text.
  - intros c Hc. apply IH. by eapply tidy_children.
Qed.

(** ** When serialization returns *)

Lemma shallowb_alive n h o : shallowb n h o = true -> (o < length h)%nat.
Proof.
  destruct n as [|n]; [done|]. cbn [shallowb].
  destruct (h !! o) as [s|] eqn:Hl; [|done]. intros _. by eapply lookup_lt_Some.
Qed.

Lemma shallowb_mono n m h o :
  shallowb n h o = true -> (n <= m)%nat -> shallowb m h o = true.
Proof.
  revert m o. induction n as [|n IH]; intros m o; [done|].
  destruct m as [|m]; [lia|]. cbn [shallowb].
  destruct (h !! o) as [s|]; [|done]. intros H Hle.
  rewrite forallb_forall in H |- *. intros c Hc. specialize (H c Hc).
  destruct c as [[e|t]|]; [|done..]. apply IH; [done|lia].
Qed.

Lemma forallb_false_exists {A} (f : A -> bool) l :
  forallb f l = false -> exists x, In x l /\ f x = false.
Proof.
  induction l as [|x l IH]; [done|]. cbn [forallb].
  destruct (f x) eqn:E; cbn [andb].
  - intros H. destruct (IH H) as (y & Hy & Hf). exists y. split; [by right|done].
  - intros _. exists x. split; [by left|done].
Qed.

(** An Element that is shallow for [S k] and not for [k] heads a chain of
    [S k] Elements of which the [i]-th is shallow for [S i] and not for
    [i]. *)
Lemma shallowb_chain h k e :
  shallowb (S k) h e = true -> shallowb k h e = false ->
  exists l : list nat,
    length l = S k
    /\ forall i x, l !! i = Some x ->
         shallowb (S i) h x = true /\ shallowb i h x = false.
Proof.
  revert e. induction k as [|k IH]; intros e Hyes Hno.
  - exists [e]. split; [done|]. intros [|i] x; [|done]. by intros [= <-].
  - pose proof Hyes as Hyes'. pose proof Hno as Hno'.
    cbn [shallowb] in Hyes', Hno.
    destruct (h !! e) as [s|] eqn:Hl; [|done].
    apply forallb_false_exists in Hno as (c & Hc & Hno).
    rewrite forallb_forall in Hyes'. specialize (Hyes' c Hc).
    destruct c as [[x|t]|]; cbv beta iota in Hno, Hyes'; [|done..].
    destruct (IH x Hyes' Hno) as (l & Hlen & Hall).
    exists (l ++ [e]). split; [rewrite length_app; cbn; lia|].
    intros i y Hi. apply lookup_app_Some in Hi as [Hi|[Hge Hi]]; [by apply Hall|].
    apply list_lookup_singleton_Some in Hi as [Hi <-].
    assert (i = S k) as -> by lia. done.
Qed.

(** The depth that matters is bounded by the number of objects: an Element
    that is shallow for some level is shallow for [length h]. *)
Lemma shallowb_bound h n e :
  shallowb n h e = true -> shallowb (length h) h e = true.
Proof.
  induction n as [|k IH]; [done|]. intros Hyes.
  destruct (shallowb k h e) eqn:Hk; [by apply IH|].
  destruct (shallowb_chain h k e Hyes Hk) as (l & Hlen & Hall).
  assert (Hnd : NoDup l).
  { apply NoDup_alt. intros i j x Hi Hj.
    destruct (Hall _ _ Hi) as [Hi1 Hi2]. destruct (Hall _ _ Hj) as [Hj1 Hj2].
    destruct (decide (i = j)) as [|Hne]; [done|]. exfalso.
    destruct (decide (i < j)%nat).
    - rewrite (shallowb_mono (S i) j h x Hi1) in Hj2 by lia. done.
    - rewrite (shallowb_mono (S j) i h x Hj1) in Hi2 by lia. done. }
  assert (Hsub : l ⊆+ seq 0 (length h)).
  { apply NoDup_submseteq; [done|]. intros x Hx. apply elem_of_seq.
    apply list_elem_of_lookup in Hx as [i Hi]. destruct (Hall _ _ Hi) as [Hx _].
    apply shallowb_alive in Hx. lia. }
  apply submseteq_length in Hsub. rewrite length_seq, Hlen in Hsub.
  apply (shallowb_mono (S k)); [done|lia].
Qed.

Lemma concatChildren_Ret_iff elem cs :
  Forall (fun c => textEntry c = true) cs ->
  (exists t, concatChildren elem cs = Ret t)
  <-> forall c, In (Some (CElement c)) cs -> exists a, elem c = Ret a.
Proof.
  induction 1 as [|x cs Hx _ IH]; cbn [concatChildren].
  - split; [by intros _ c []|eauto].
  - destruct x as [[c|t]|].
    + split.
      * intros [r Hr]. destruct (elem c) as [a| | |] eqn:Ha; try done.
        cbn [obind] in Hr.
        destruct (concatChildren elem cs) as [b| | |] eqn:Hb; try done.
        intros c' [[= <-]|Hin]; [eauto|]. apply IH; eauto.
      * intros Hall. destruct (Hall c) as [a ->]; [by left|]. cbn [obind].
        destruct (proj2 IH) as [b ->]; [intros c' Hc'; apply Hall; by right|].
        cbn. eauto.
    + cbn in Hx. rewrite (escapeText_valid _ Hx). cbn [obind]. split.
      * intros [r Hr].
        destruct (concatChildren elem cs) as [b| | |] eqn:Hb; try done.
        intros c' [[=]|Hin]. apply IH; eauto.
      * intros Hall.
        destruct (proj2 IH) as [b ->]; [intros c' Hc'; apply Hall; by right|].
        cbn. eauto.
    + rewrite IH. split.
      * intros Hall c' [[=]|Hin]. by apply Hall.
      * intros Hall c' Hin. apply Hall. by right.
Qed.

Lemma shallowb_S_iff n h o s :
  h !! o = Some s ->
  shallowb (S n) h o = true
  <-> forall c, In (Some (CElement c)) (children s) -> shallowb n h c = true.
Proof.
  intros Hl. cbn [shallowb]. rewrite Hl, forallb_forall. split.
  - intros H c Hc. apply (H _ Hc).
  - intros H [[c|t]|] Hc; [by apply H|done..].
Qed.

(** With [n] levels allowed, [get outerHTML] returns exactly when the
    Element is shallow for [n]. *)
Lemma outerHTML_fuel_Ret_iff h n e :
  Forall wf_shadow h -> tidy h ->
  (exists t, outerHTML_fuel n h e = Ret t) <-> shallowb n h e = true.
Proof.
  intros Hwf Ht. revert e. induction n as [|n IH]; intros e.
  { split; [by intros [t Ht']|done]. }
  rewrite outerHTML_fuel_unfold.
  destruct (h !! e) as [s|] eqn:Hl.
  2:{ cbn [shallowb]. rewrite Hl. split; [by intros [t Ht']|done]. }
  rewrite (shallowb_S_iff _ _ _ _ Hl).
  rewrite Forall_lookup in Hwf. pose proof (Hwf _ _ Hl) as Hs.
  destruct (serializeAttributes_wf s Hs) as [attrs ->]. cbn [obind].
  destruct (void s) eqn:Hv.
  { rewrite (wf_void_children _ Hs Hv). split; [by intros _ c []|eauto]. }
  transitivity (exists b, concatChildren (outerHTML_fuel n h) (children s) = Ret b).
  - split.
    + intros [t Hr].
      destruct (concatChildren (outerHTML_fuel n h) (children s)) as [b| | |];
        try done. eauto.
    + intros [b ->]. cbn. eauto.
  - rewrite (concatChildren_Ret_iff (outerHTML_fuel n h) (children s))
      by (by eapply tidy_text).
    split; intros H c Hc; apply IH; by apply H.
Qed.

Lemma innerText_fuel_Ret_iff h n e :
  tidy h ->
  (exists t, innerText_fuel n h e = Ret t) <-> shallowb n h e = true.
Proof.
  intros Ht. revert e. induction n as [|n IH]; intros e.
  { split; [by intros [t Ht']|done]. }
  cbn [innerText_fuel].
  destruct (h !! e) as [s|] eqn:Hl.
  2:{ cbn [shallowb]. rewrite Hl. split; [by intros [t Ht']|done]. }
  rewrite (shallowb_S_iff _ _ _ _ Hl).
  rewrite (concatChildren_Ret_iff (innerText_fuel n h) (children s))
    by (by eapply tidy_text).
  split; intros H c Hc; apply IH; by apply H.
Qed.

(** An Element that is not shallow for [S (length h)] is shallow for no
    level: the Elements below it nest without end. *)
Lemma shallowb_never h e :
  shallowb (S (length h)) h e = false -> forall n, shallowb n h e = false.
Proof.
  intros Hno n. destruct (shallowb n h e) eqn:Hn; [|done].
  apply shallowb_bound in Hn.
  by rewrite (shallowb_mono _ (S (length h)) _ _ Hn) in Hno by lia.
Qed.

(** X14: in every heap a program can reach, the children arrays hold only
    valid text and Elements that exist, and the attribute values are valid
    text.  So on an existing Element the getters [outerHTML], [innerHTML]
    and [innerText] never throw 'Invalid text data', nor any other
    [TypeError].  With [n] levels allowed to the recursion, [outerHTML] and
    [innerText] return a string exactly when the Elements nest less than [n]
    deep below the receiver, and are still descending otherwise; so a getter
    returns a string, or its recursion has no end at any depth.  The second
    case exists: in the heap of [cycle_program], which a program reaches,
    [p] lists [b] and [b] lists [p], and the recursion never ends (a
    JavaScript engine stops it with a RangeError). *)
Theorem X14_serialization_outcomes :
  (forall (h : Heap) (e : nat) (s : Shadow),
     Reachable h -> h !! e = Some s ->
     Forall (fun c => textEntry c = true) (children s)
     /\ (forall c, In (Some (CElement c)) (children s) -> is_Some (h !! c))
     /\ Forall (fun kv => validateText kv.2 = true) (attributes s)
     /\ (forall fuel,
           outerHTML_fuel fuel h e = Diverge
           \/ exists t, outerHTML_fuel fuel h e = Ret t)
     /\ (forall fuel,
           innerText_fuel fuel h e = Diverge
           \/ exists t, innerText_fuel fuel h e = Ret t)
     /\ (forall fuel,
           (exists t, outerHTML_fuel fuel h e = Ret t) <-> shallowb fuel h e = true)
     /\ (forall fuel,
           (exists t, innerText_fuel fuel h e = Ret t) <-> shallowb fuel h e = true)
     /\ ((exists t, get_outerHTML h e = Ret t)
         \/ forall fuel, outerHTML_fuel fuel h e = Diverge)
     /\ ((exists t, get_innerText h e = Ret t)
         \/ forall fuel, innerText_fuel fuel h e = Diverge)
     /\ ((exists t, get_innerHTML h e = Ret t)
         \/ forall fuel,
              concatChildren (outerHTML_fuel fuel h) (children s) = Diverge))
  /\ Reachable heap_cycle
  /\ get_children 0 heap_cycle = (heap_cycle, Ret [CElement 2])
  /\ get_children 2 heap_cycle = (heap_cycle, Ret [CElement 0])
  /\ forall fuel,
       outerHTML_fuel fuel heap_cycle 0 = Diverge
       /\ innerText_fuel fuel heap_cycle 0 = Diverge.
Proof.
  assert (Hgen : forall h e s, Reachable h -> h !! e = Some s ->
            (forall fuel,
               outerHTML_fuel fuel h e = Diverge
               \/ exists t, outerHTML_fuel fuel h e = Ret t)
            /\ (forall fuel,
                  innerText_fuel fuel h e = Diverge
                  \/ exists t, innerText_fuel fuel h e = Ret t)
            /\ (forall fuel,
                  (exists t, outerHTML_fuel fuel h e = Ret t)
                  <-> shallowb fuel h e = true)
            /\ (forall fuel,
                  (exists t, innerText_fuel fuel h e = Ret t)
                  <-> shallowb fuel h e = true)).
  { intros h e s Hr Hl. pose proof (Reachable_tidy _ Hr) as Ht.
    pose proof (Reachable_wf _ Hr) as Hwf.
    pose proof (lookup_lt_Some _ _ _ Hl) as He.
    split; [intros fuel; by apply outerHTML_fuel_no_throw|].
    split; [intros fuel; by apply innerText_fuel_no_throw|].
    split; [intros fuel; by apply outerHTML_fuel_Ret_iff|].
    intros fuel. by apply innerText_fuel_Ret_iff. }
  split.
  - intros h e s Hr Hl. destruct (Hgen h e s Hr Hl) as (Ho & Hi & Hoi & Hii).
    pose proof (Reachable_tidy _ Hr) as Ht.
    pose proof (Reachable_wf _ Hr) as Hwf.
    split; [by eapply tidy_text|]. split.
    { intros c Hc. apply lookup_lt_is_Some_2. by eapply tidy_children. }
    split.
    { rewrite Forall_lookup in Hwf.
      destruct (Hwf _ _ Hl) as [_ _ _ _ _ _ _ _ Hvalues].
      eapply Forall_impl; [exact Hvalues|]. by intros kv [_ ?]. }
    do 4 (split; [done|]).
    split; [|split].
    + unfold get_outerHTML.
      destruct (shallowb (S (length h)) h e) eqn:Hs; [left; by apply Hoi|].
      right. intros fuel. destruct (Ho fuel) as [|Hret]; [done|].
      apply Hoi in Hret. by rewrite (shallowb_never _ _ Hs) in Hret.
    + unfold get_innerText.
      destruct (shallowb (S (length h)) h e) eqn:Hs; [left; by apply Hii|].
      right. intros fuel. destruct (Hi fuel) as [|Hret]; [done|].
      apply Hii in Hret. by rewrite (shallowb_never _ _ Hs) in Hret.
    + unfold get_innerHTML. rewrite Hl.
      assert (Hdich : forall fuel,
                concatChildren (outerHTML_fuel fuel h) (children s) = Diverge
                \/ exists t, concatChildren (outerHTML_fuel fuel h) (children s)
                             = Ret t).
      { intros fuel. apply concatChildren_no_throw; [by eapply tidy_text|].
        intros c Hc. apply outerHTML_fuel_no_throw; [done..|].
        by eapply tidy_children. }
      destruct (Hdich (length h)) as [Hd|Hret]; [|by left].
      right. intros fuel. destruct (Hdich fuel) as [|Hret]; [done|]. exfalso.
      assert (Hnot : ~ exists t, concatChildren (outerHTML_fuel (length h) h)
                                   (children s) = Ret t).
      { rewrite Hd. by intros [t Ht']. }
      apply Hnot. apply concatChildren_Ret_iff; [by eapply tidy_text|].
      intros c Hc. apply outerHTML_fuel_Ret_iff; [done..|].
      apply (shallowb_bound h fuel). apply outerHTML_fuel_Ret_iff; [done..|].
      apply (proj1 (concatChildren_Ret_iff _ _ (tidy_text _ Ht _ _ Hl)) Hret c Hc).
  - assert (Hr : Reachable heap_cycle)
      by exact (Reachable_execAll cycle_program [] reach_init).
    split; [done|]. split; [reflexivity|]. split; [reflexivity|].
    assert (Hl : heap_cycle !! 0%nat
                 = Some (with_parent (Some 2%nat) (Some 0%nat)
                           (with_children [None; Some (CElement 2)]
                              (newShadow (js "div"))))) by reflexivity.
    destruct (Hgen _ _ _ Hr Hl) as (Ho & Hi & Hoi & Hii).
    assert (Hno : forall n, shallowb n heap_cycle 0 = false)
      by (apply shallowb_never; by vm_compute).
    intros fuel. split.
    + destruct (Ho fuel) as [|Hret]; [done|]. apply Hoi in Hret.
      by rewrite Hno in Hret.
    + destruct (Hi fuel) as [|Hret]; [done|]. apply Hii in Hret.
      by rewrite Hno in Hret.
Qed.

(** X14 at the 'html' element of a new document. *)
Lemma X14_serialization_outcomes_witness :
  exists s,
    heap_document !! 0%nat = Some s
    /\ Forall (fun c => textEntry c = true) (children s)
    /\ (forall c, In (Some (CElement c)) (children s) -> is_Some (heap_document !! c))
    /\ Forall (fun kv => validateText kv.2 = true) (attributes s)
    /\ (forall fuel,
          outerHTML_fuel fuel heap_document 0 = Diverge
          \/ exists t, outerHTML_fuel fuel heap_document 0 = Ret t)
    /\ (forall fuel,
          innerText_fuel fuel heap_document 0 = Diverge
          \/ exists t, innerText_fuel fuel heap_document 0 = Ret t)
    /\ (forall fuel,
          (exists t, outerHTML_fuel fuel heap_document 0 = Ret t)
          <-> shallowb fuel heap_document 0 = true)
    /\ (forall fuel,
          (exists t, innerText_fuel fuel heap_document 0 = Ret t)
          <-> shallowb fuel heap_document 0 = true)
    /\ ((exists t, get_outerHTML heap_document 0 = Ret t)
        \/ forall fuel, outerHTML_fuel fuel heap_document 0 = Diverge)
    /\ ((exists t, get_innerText heap_document 0 = Ret t)
        \/ forall fuel, innerText_fuel fuel heap_document 0 = Diverge)
    /\ ((exists t, get_innerHTML heap_document 0 = Ret t)
        \/ forall fuel,
             concatChildren (outerHTML_fuel fuel heap_document) (children s)
             = Diverge).
Proof.
  eexists. split; [reflexivity|].
  apply (proj1 X14_serialization_outcomes heap_document 0%nat); [|reflexivity].
  exact (reach_step [] OpNewDocument reach_init).
Defined.

(** ** The chains of parents end *)

Lemma depth_walk h child x n :
  depth h x n -> exists k o, walkSteps h child x k o /\ o <> Diverge.
Proof.
  induction 1 as [x s Hl Hp|x s p n Hl Hp _ (k & o & IH & Ho)].
  - destruct (decide (x = child)) as [Heq|Hne].
    + exists 1%nat, (Throw CyclicReference). split; [by apply ws_found|done].
    + exists 1%nat, (Ret tt). split; [by eapply ws_root|done].
  - destruct (decide (x = child)) as [Heq|Hne].
    + exists 1%nat, (Throw CyclicReference). split; [by apply ws_found|done].
    + exists (S k), o. split; [by eapply ws_up|done].
Qed.

Lemma validateChild_no_Diverge this a h :
  tidy h -> (validateChild this a h).2 <> Diverge.
Proof.
  intros Ht. destruct a as [c|t].
  - rewrite validateChild_element_unfold.
    destruct (h !! c) as [cs|]; [|done]. destruct (parent cs); [done|].
    destruct (h !! this) as [s|] eqn:Hl; [|done]. destruct (raw s); [done|].
    destruct (tidy_depth _ Ht _ _ Hl) as [n Hn].
    destruct (depth_walk h c _ _ Hn) as (k & o & Hw & Ho).
    rewrite (walkSteps_run _ _ _ _ _ Hw); [done|]. by eapply walkSteps_bound.
  - cbn. by destruct (negb (validateText t)).
Qed.

Lemma forEach_validateChild_no_Diverge this args h :
  tidy h -> (forEach (validateChild this) args h).2 <> Diverge.
Proof.
  intros Ht. induction args as [|a args IH]; cbn [forEach]; [done|].
  rewrite bind_unfold. pose proof (readOnly_validateChild this a h) as Hro.
  pose proof (validateChild_no_Diverge this a h Ht) as Hnd.
  destruct (validateChild this a h) as [h1 [[]| | |]]; cbn [fst snd] in *;
    subst; done.
Qed.

(** X15: in every heap a program can reach, the parent of an Element exists
    and the Element is not on the chain of parents of its own parent: no
    Element is its own ancestor.  So the loop of [append] that climbs from
    the receiver to the root always ends: no [append] fails to terminate. *)
Theorem X15_parent_chains_end (h : Heap) :
  Reachable h ->
  (forall o s p,
     h !! o = Some s -> parent s = Some p ->
     is_Some (h !! p) /\ ~ onAncestorChain h o p)
  /\ (forall o s, h !! o = Some s -> exists n, depth h o n)
  /\ forall this args, (append this args h).2 <> Diverge.
Proof.
  intros Hr. pose proof (Reachable_tidy _ Hr) as Ht. split; [|split].
  - intros o s p Hl Hp. destruct (tidy_depth _ Ht _ _ Hl) as [n Hn].
    destruct Hn as [? s' Hl' Hp'|? s' p' n Hl' Hp' Hn]; [congruence|].
    assert (p' = p) as -> by congruence. split.
    + apply lookup_lt_is_Some_2. by eapply depth_alive.
    + intros Hch. destruct (depth_chain _ _ _ _ Hch Hn) as (m & Hm & Hd).
      assert (m = S n) by (eapply depth_functional; [exact Hd|by eapply depth_up]).
      lia.
  - by apply tidy_depth.
  - intros this args. rewrite append_unfold.
    destruct (h !! this) as [s|] eqn:Hl; [|done].
    destruct (void s); [done|]. destruct (negb (escapable s)); [done|].
    pose proof (forEach_validateChild_no_Diverge this args h Ht) as Hnd.
    destruct (forEach (validateChild this) args h).2 as [[]| | |] eqn:Hval;
      try done.
    apply forEach_validateChild_Ret in Hval as [_ Hval].
    destruct (mapM_attachChild_total this args h) as (h2 & tmp & Hm); [done| |].
    { intros c Hc. destruct (Hval c Hc) as (_ & (cs & -> & _) & _). done. }
    rewrite (bind_Ret _ _ _ _ _ Hm).
    destruct (mapM_attachChild_frame _ _ _ _ _ _ _ Hm Hl) as (s2 & Hl2 & _).
    by rewrite (modify_Ret _ _ _ _ Hl2).
Qed.

(** X15 at a new document. *)
Lemma X15_parent_chains_end_witness :
  (forall o s p,
     heap_document !! o = Some s -> parent s = Some p ->
     is_Some (heap_document !! p) /\ ~ onAncestorChain heap_document o p)
  /\ (forall o s, heap_document !! o = Some s -> exists n, depth heap_document o n)
  /\ forall this args, (append this args heap_document).2 <> Diverge.
Proof.
  apply X15_parent_chains_end. exact (reach_step [] OpNewDocument reach_init).
Defined.

(** ** [ownerDocument] *)

Lemma depth_bound h o n : depth h o n -> (n <= length h)%nat.
Proof.
  intros H.
  assert (Hw : walkSteps h (length h) o (S n) (Ret tt)).
  { induction H as [o s Hl Hp|o s p n Hl Hp _ IH].
    - eapply ws_root; [|done..]. apply lookup_lt_Some in Hl. lia.
    - eapply ws_up; [|done..]. apply lookup_lt_Some in Hl. lia. }
  apply walkSteps_bound in Hw. lia.
Qed.

(** With more fuel than the depth of the Element, [get ownerDocument]
    returns, and what it returns does not depend on the fuel. *)
Lemma ownerDocument_fuel_depth document h o n :
  depth h o n ->
  exists r, forall fuel, (n < fuel)%nat -> ownerDocument_fuel document fuel h o = Ret r.
Proof.
  induction 1 as [o s Hl Hp|o s p n Hl Hp _ [r IH]].
  - exists (document o). intros [|fuel] Hf; [lia|]. cbn. by rewrite Hl, Hp.
  - exists r. intros [|fuel] Hf; [lia|]. cbn. rewrite Hl, Hp. apply IH. lia.
Qed.

(** A heap that keeps the parent links along the chain of [o] keeps the
    depth and the owner document of [o]. *)
Lemma ownerDocument_fuel_same document h h' o n :
  depth h o n ->
  (forall x sx, onAncestorChain h x o -> h !! x = Some sx ->
     exists sx', h' !! x = Some sx' /\ parent sx' = parent sx) ->
  depth h' o n
  /\ forall fuel, ownerDocument_fuel document fuel h' o
                  = ownerDocument_fuel document fuel h o.
Proof.
  induction 1 as [o s Hl Hp|o s p n Hl Hp Hd IH]; intros Hsame.
  - destruct (Hsame o s) as (s' & Hl' & Hp'); [by eapply chain_self|done|].
    split; [eapply depth_root; [done|congruence]|].
    intros [|fuel]; [done|]. cbn. rewrite Hl, Hl', Hp', Hp. done.
  - destruct (Hsame o s) as (s' & Hl' & Hp'); [by eapply chain_self|done|].
    destruct IH as [Hd' IH].
    { intros x sx Hx. apply Hsame. by eapply chain_up. }
    split; [eapply (depth_up _ _ s' p); [done|congruence|done]|].
    intros [|fuel]; [done|]. cbn. rewrite Hl, Hl', Hp', Hp. apply IH.
Qed.

(** X16: an Element that a successful [append] attaches takes the owner
    document of the receiver.  In a heap that a program can reach,
    [get ownerDocument] returns on the receiver, before and after the call
    the same; it returns the same on every Element argument after the call,
    whereas before the call, the argument being without parent, it returned
    the [document] property of the argument itself. *)
Theorem X16_append_ownerDocument (document : nat -> option Document.t)
    (this c : nat) (args : list Arg) (h h' : Heap) :
  Reachable h -> append this args h = (h', Ret tt) -> In (AElement c) args ->
  exists r,
    get_ownerDocument document h this = Ret r
    /\ get_ownerDocument document h' this = Ret r
    /\ get_ownerDocument document h' c = Ret r
    /\ get_ownerDocument document h c = Ret (document c).
Proof.
  intros Hr H Hin. pose proof (Reachable_tidy _ Hr) as Ht.
  destruct (append_Ret_effect _ _ _ _ H)
    as (s & s' & Hl & _ & _ & Hval & Hl' & _ & Hlen & Hrec & Hfr).
  destruct (tidy_depth _ Ht _ _ Hl) as [n Hn].
  destruct (ownerDocument_fuel_same document h h' this n Hn) as [Hn' Hsame].
  { intros x sx Hx Hlx. destruct (Hfr _ _ Hlx) as (sx' & Hlx' & _ & _ & _ & Hpar).
    exists sx'. split; [done|]. apply Hpar. intros Hxin.
    apply forEach_Ret_all in Hval; [|apply readOnly_validateChild].
    rewrite Forall_forall in Hval.
    apply (validateChild_not_ancestor this x h); [|done].
    apply Hval. by apply list_elem_of_In. }
  destruct (ownerDocument_fuel_depth document _ _ _ Hn) as [r Hret].
  pose proof (depth_bound _ _ _ Hn) as Hb.
  exists r. unfold get_ownerDocument. rewrite Hlen.
  split; [apply Hret; lia|]. split; [rewrite Hsame; apply Hret; lia|].
  destruct (Hrec _ Hin) as (sc' & Hc' & Hp' & _).
  destruct (forEach_validateChild_Ret _ _ _ Hval) as [_ Helem].
  destruct (Helem _ Hin) as (_ & (sc & Hc & Hp) & _).
  split.
  - assert (Hdc : depth h' c (S n)) by (by eapply (depth_up _ _ sc' this)).
    pose proof (depth_bound _ _ _ Hdc) as Hbc. rewrite Hlen in Hbc.
    cbn [ownerDocument_fuel]. rewrite Hc', Hp', Hsame. apply Hret. lia.
  - cbn [ownerDocument_fuel]. by rewrite Hc, Hp.
Qed.

(** X16 at [p.append (e)], the 'div' [p] being the root of no document. *)
Lemma X16_append_ownerDocument_witness :
  exists r,
    get_ownerDocument (fun _ => None) heap_two_apart 0 = Ret r
    /\ get_ownerDocument (fun _ => None) heap_div_span 0 = Ret r
    /\ get_ownerDocument (fun _ => None) heap_div_span 1 = Ret r
    /\ get_ownerDocument (fun _ => None) heap_two_apart 1 = Ret None.
Proof.
  apply (X16_append_ownerDocument (fun _ => None) 0 1 [AElement 1]
           heap_two_apart heap_div_span).
  - exact (reach_step _ (OpNewElement (js "span"))
             (reach_step _ (OpNewElement (js "div")) reach_init)).
  - reflexivity.
  - by left.
Defined.

(** X17: after [remove], the owner document of the Element is what its own
    [document] property says, whatever document it was in; and the Elements
    whose parent it is have it as the Element at which their owner document
    is looked up. *)
Theorem X17_remove_ownerDocument (document : nat -> option Document.t)
    (this : nat) (h h' : Heap) :
  remove this h = (h', Ret tt) ->
  get_ownerDocument document h' this = Ret (document this)
  /\ forall c sc,
       h' !! c = Some sc -> parent sc = Some this ->
       get_ownerDocument document h' c = Ret (document this).
Proof.
  intros H. rewrite remove_unfold in H.
  assert (Hroot : exists s', h' !! this = Some s' /\ parent s' = None).
  { destruct (h !! this) as [s|] eqn:Hl; [|done].
    destruct (parent s) as [p|] eqn:Hp; [|injection H as <-; eauto].
    destruct (h !! p) as [ps|]; [|done]. cbn zeta in H.
    destruct (_ !! this) as [s1|] eqn:Hl1 in H; [|done]. injection H as <-.
    exists (with_parent None None s1). split; [|reflexivity].
    apply list_lookup_insert_eq. rewrite length_insert. by eapply lookup_lt_Some. }
  destruct Hroot as (s' & Hl' & Hp'). unfold get_ownerDocument.
  split; [cbn; by rewrite Hl', Hp'|].
  intros c sc Hc Hpc. cbn [ownerDocument_fuel]. rewrite Hc, Hpc.
  destruct (length h') eqn:Hlen.
  { apply lookup_lt_Some in Hc. lia. }
  cbn. by rewrite Hl', Hp'.
Qed.

(** X17 at the 'head' of a new document, removed from it: neither it nor
    the 'title' below it has an owner document any more. *)
Lemma X17_remove_ownerDocument_witness :
  get_ownerDocument (setDocument (fun _ => None) the_document)
    (remove 1 heap_document).1 1
  = Ret (setDocument (fun _ => None) the_document 1%nat)
  /\ forall c sc,
       (remove 1 heap_document).1 !! c = Some sc -> parent sc = Some 1%nat ->
       get_ownerDocument (setDocument (fun _ => None) the_document)
         (remove 1 heap_document).1 c
       = Ret (setDocument (fun _ => None) the_document 1%nat).
Proof.
  apply (X17_remove_ownerDocument _ 1 heap_document). reflexivity.
Defined.

(** ** The skeleton of a new Document *)

Lemma get_ownerDocument_suffix_root document (h0 l : Heap) k s :
  l !! k = Some s -> parent s = None ->
  forall fuel, ownerDocument_fuel document (S fuel) (h0 ++ l) (length h0 + k)
               = Ret (document (length h0 + k)%nat).
Proof. intros Hl Hp fuel. cbn. by rewrite lookup_suffix, Hl, Hp. Qed.

Lemma get_ownerDocument_suffix_up document (h0 l : Heap) k s j :
  l !! k = Some s -> parent s = Some (length h0 + j)%nat ->
  forall fuel, ownerDocument_fuel document (S fuel) (h0 ++ l) (length h0 + k)
               = ownerDocument_fuel document fuel (h0 ++ l) (length h0 + j).
Proof. intros Hl Hp fuel. cbn. by rewrite lookup_suffix, Hl, Hp. Qed.

(** X18: [new Document ()] always returns.  It creates five Elements and
    touches no other object.  'html' has no parent and the children 'head'
    and 'body'; 'head' has the children 'meta' and 'title'; 'body', 'meta'
    and 'title' have none; the title reads as the empty string; and, the
    constructor having set the [document] property of 'html', the owner
    document of each of the five is the new Document, while that of every
    Element of a reachable heap is what it was. *)
Theorem X18_new_Document (document : nat -> option Document.t) (h0 : Heap) :
  exists h1 d,
    Document.new h0 = (h1, Ret d)
    /\ length h1 = (length h0 + 5)%nat
    /\ (forall o, (o < length h0)%nat -> h1 !! o = h0 !! o)
    /\ [Document.html d; Document.head d; Document.body d; Document.charset d;
        Document.title d] = seq (length h0) 5
    /\ get_parentElement (Document.html d) h1 = (h1, Ret None)
    /\ get_parentElement (Document.head d) h1 = (h1, Ret (Some (Document.html d)))
    /\ get_parentElement (Document.body d) h1 = (h1, Ret (Some (Document.html d)))
    /\ get_parentElement (Document.charset d) h1 = (h1, Ret (Some (Document.head d)))
    /\ get_parentElement (Document.title d) h1 = (h1, Ret (Some (Document.head d)))
    /\ get_children (Document.html d) h1
       = (h1, Ret [CElement (Document.head d); CElement (Document.body d)])
    /\ get_children (Document.head d) h1
       = (h1, Ret [CElement (Document.charset d); CElement (Document.title d)])
    /\ get_children (Document.body d) h1 = (h1, Ret [])
    /\ get_children (Document.charset d) h1 = (h1, Ret [])
    /\ get_children (Document.title d) h1 = (h1, Ret [])
    /\ Document.get_title d h1 = (h1, Ret [])
    /\ Forall (fun e => get_ownerDocument (setDocument document d) h1 e = Ret (Some d))
         [Document.html d; Document.head d; Document.body d; Document.charset d;
          Document.title d]
    /\ (Reachable h0 ->
        forall o, (o < length h0)%nat ->
          get_ownerDocument (setDocument document d) h1 o
          = get_ownerDocument document h0 o).
Proof.
  eexists _, _. split; [apply Document_new_eval|].
  set (n := length h0). set (l := documentShadows n).
  set (d := Document.mk n (n + 1) (n + 2) (n + 3) (n + 4)).
  assert (Hlen : length (h0 ++ l) = (n + 5)%nat) by (by rewrite length_app).
  split; [done|]. split; [intros o Ho; by apply lookup_app_l|].
  split.
  { cbn. replace (n + 1)%nat with (S n) by lia.
    replace (n + 2)%nat with (S (S n)) by lia.
    replace (n + 3)%nat with (S (S (S n))) by lia.
    by replace (n + 4)%nat with (S (S (S (S n)))) by lia. }
  cbn [Document.html Document.head Document.body Document.charset Document.title d].
  assert (Hpar : forall k s, l !! k = Some s ->
            get_parentElement (n + k) (h0 ++ l) = (h0 ++ l, Ret (parent s))).
  { intros k s Hk. unfold n. by rewrite get_parentElement_unfold, lookup_suffix, Hk. }
  assert (Hch : forall k s, l !! k = Some s ->
            get_children (n + k) (h0 ++ l) = (h0 ++ l, Ret (omap id (children s)))).
  { intros k s Hk. unfold n. by rewrite get_children_unfold, lookup_suffix, Hk. }
  assert (Hp0 : get_parentElement n (h0 ++ l) = (h0 ++ l, Ret None)).
  { unfold n. by rewrite get_parentElement_unfold, lookup_suffix_0. }
  assert (Hc0 : get_children n (h0 ++ l)
                = (h0 ++ l, Ret [CElement (n + 1); CElement (n + 2)])).
  { unfold n. by rewrite get_children_unfold, lookup_suffix_0. }
  split; [exact Hp0|].
  split; [by rewrite (Hpar 1%nat _ eq_refl)|].
  split; [by rewrite (Hpar 2%nat _ eq_refl)|].
  split; [by rewrite (Hpar 3%nat _ eq_refl)|].
  split; [by rewrite (Hpar 4%nat _ eq_refl)|].
  split; [exact Hc0|].
  split; [by rewrite (Hch 1%nat _ eq_refl)|].
  split; [by rewrite (Hch 2%nat _ eq_refl)|].
  split; [by rewrite (Hch 3%nat _ eq_refl)|].
  split; [by rewrite (Hch 4%nat _ eq_refl)|].
  split.
  { unfold Document.get_title. f_equal. unfold get_innerText. cbn.
    unfold n. by rewrite lookup_suffix. }
  assert (Hhtml : forall fuel,
            ownerDocument_fuel (setDocument document d) (S fuel) (h0 ++ l) (n + 0)
            = Ret (Some d)).
  { intros fuel. unfold n.
    erewrite get_ownerDocument_suffix_root; [|reflexivity..].
    unfold setDocument. cbn [Document.html d].
    by rewrite Nat.add_0_r, Nat.eqb_refl. }
  assert (Hhead : forall fuel,
            ownerDocument_fuel (setDocument document d) (S (S fuel)) (h0 ++ l) (n + 1)
            = Ret (Some d)).
  { intros fuel. unfold n.
    erewrite (get_ownerDocument_suffix_up _ _ _ 1 _ 0); [apply Hhtml|reflexivity|].
    cbn. f_equal. lia. }
  split.
  { unfold get_ownerDocument. rewrite Hlen.
    replace (S (n + 5)) with (S (S (S (S (n + 2))))) by lia.
    repeat constructor.
    - rewrite <- (Nat.add_0_r n) at 2. apply Hhtml.
    - apply Hhead.
    - unfold n.
      erewrite (get_ownerDocument_suffix_up _ _ _ 2 _ 0); [apply Hhtml|reflexivity|].
      cbn. f_equal. lia.
    - unfold n.
      erewrite (get_ownerDocument_suffix_up _ _ _ 3 _ 1); [apply Hhead|reflexivity|].
      reflexivity.
    - unfold n.
      erewrite (get_ownerDocument_suffix_up _ _ _ 4 _ 1); [apply Hhead|reflexivity|].
      reflexivity. }
  intros Hr o Ho. destruct (lookup_lt_is_Some_2 h0 o Ho) as [s Hl].
  destruct (tidy_depth _ (Reachable_tidy _ Hr) _ _ Hl) as [k Hk].
  pose proof (depth_bound _ _ _ Hk) as Hb.
  assert (Hin : forall x m, depth h0 x m ->
            forall fuel, ownerDocument_fuel (setDocument document d) fuel (h0 ++ l) x
                         = ownerDocument_fuel document fuel h0 x).
  { induction 1 as [x sx Hx Hp|x sx p m Hx Hp _ IH]; intros [|fuel]; try done.
    - cbn. rewrite (lookup_app_l_Some _ _ _ _ Hx), Hx, Hp. unfold setDocument.
      cbn [Document.html d]. apply lookup_lt_Some in Hx.
      destruct (Nat.eqb_spec x n); [unfold n in *; lia|done].
    - cbn. rewrite (lookup_app_l_Some _ _ _ _ Hx), Hx, Hp. apply IH. }
  destruct (ownerDocument_fuel_depth document _ _ _ Hk) as [r Hret].
  unfold get_ownerDocument. rewrite (Hin _ _ Hk), !Hret; [done|lia|].
  rewrite Hlen. unfold n. lia.
Qed.

(** ** [tagName] *)

Lemma toLowerCase_toUpperCase s : toLowerCase (toUpperCase s) = toLowerCase s.
Proof.
  unfold toLowerCase, toUpperCase. rewrite map_map. apply map_ext. intros c.
  unfold inRange.
  destruct (Z.leb_spec 0x61 c), (Z.leb_spec c 0x7A); cbn [andb]; cbv iota;
  repeat (match goal with
          | |- context [?a <=? ?b] => destruct (Z.leb_spec a b)
          end; cbn [andb]; cbv iota); lia.
Qed.

(** X19: [get tagName] gives the name the Element was made with, in upper
    case; lower-cased again it is the name by which the constructor put the
    Element into its categories.  In a heap that a program can reach,
    nothing that is done afterwards changes it, or the categories. *)
Theorem X19_tagName_is_fixed (h : Heap) (e : nat) (s : Shadow) :
  Reachable h -> h !! e = Some s ->
  get_tagName e h = (h, Ret (toUpperCase (realName s)))
  /\ toLowerCase (toUpperCase (realName s)) = name s
  /\ void s = includes VOID_ELEMENTS (toLowerCase (toUpperCase (realName s)))
  /\ escapable s
     = negb (includes RAW_TEXT_ELEMENTS (toLowerCase (toUpperCase (realName s))))
  /\ forall ops, exists s',
       execAll ops h !! e = Some s'
       /\ get_tagName e (execAll ops h)
          = (execAll ops h, Ret (toUpperCase (realName s)))
       /\ void s' = void s /\ raw s' = raw s /\ escapable s' = escapable s.
Proof.
  intros Hr Hl.
  pose proof (Reachable_wf _ Hr) as Hwf. rewrite Forall_lookup in Hwf.
  destruct (Hwf _ _ Hl) as [_ Hname Hvoid _ Hesc _ _ _ _].
  rewrite toLowerCase_toUpperCase, <- Hname.
  split; [by unfold get_tagName; rewrite bind_unfold, getShadow_unfold, Hl|].
  split; [done|]. split; [done|]. split; [done|].
  intros ops.
  destruct (evolves_static _ _ _ _ (evolves_execAll ops h) Hl) as (s' & Hl' & Hst).
  injection Hst as Hn _ Hv Hraw He. exists s'. split; [done|].
  split; [|done].
  unfold get_tagName. rewrite bind_unfold, getShadow_unfold, Hl'.
  cbn [fst snd ret]. by rewrite Hn.
Qed.

(** X19 at the 'title' of a new document. *)
Lemma X19_tagName_is_fixed_witness :
  exists s,
    heap_document !! 4%nat = Some s
    /\ get_tagName 4 heap_document = (heap_document, Ret (toUpperCase (realName s)))
    /\ toLowerCase (toUpperCase (realName s)) = name s
    /\ void s = includes VOID_ELEMENTS (toLowerCase (toUpperCase (realName s)))
    /\ escapable s
       = negb (includes RAW_TEXT_ELEMENTS (toLowerCase (toUpperCase (realName s))))
    /\ forall ops, exists s',
         execAll ops heap_document !! 4%nat = Some s'
         /\ get_tagName 4 (execAll ops heap_document)
            = (execAll ops heap_document, Ret (toUpperCase (realName s)))
         /\ void s' = void s /\ raw s' = raw s /\ escapable s' = escapable s.
Proof.
  eexists. split; [reflexivity|].
  apply (X19_tagName_is_fixed heap_document 4); [|reflexivity].
  exact (reach_step [] OpNewDocument reach_init).
Defined.

(** ** The setter of [innerText], case by case *)

Lemma remove_total h c :
  tidy h -> is_Some (h !! c) -> exists h', remove c h = (h', Ret tt).
Proof.
  intros Ht [s Hl]. rewrite remove_unfold, Hl.
  destruct (parent s) as [p|] eqn:Hp; [|by eexists].
  destruct (tidy_depth _ Ht _ _ Hl) as [n Hn].
  inversion Hn as [? s' Hl' Hp'|? s' p' n' Hl' Hp' Hn']; subst; [congruence|].
  assert (p' = p) as -> by congruence.
  destruct (lookup_lt_is_Some_2 h p (depth_alive _ _ _ Hn')) as [ps ->]. cbn zeta.
  destruct (lookup_lt_is_Some_2
              (<[p := with_children (deleteSlot (parentIndex s) (children ps)) ps]> h) c)
    as [s1 ->]; [|by eexists].
  rewrite length_insert. by eapply lookup_lt_Some.
Qed.

Lemma clearLoop_total n this i h :
  tidy h -> is_Some (h !! this) -> exists h', clearLoop n this i h = (h', Ret tt).
Proof.
  revert i h. induction n as [|n IH]; intros i h Ht [s Hl]; [by eexists|].
  cbn [clearLoop]. rewrite bind_unfold, getShadow_unfold, Hl. cbn [fst snd].
  destruct (children s !! i) as [[[c|t]|]|] eqn:Hi; try (apply IH; eauto).
  destruct (remove_total h c Ht) as [h1 Hrem].
  { apply lookup_lt_is_Some_2. apply (tidy_children _ Ht this s c Hl).
    apply list_elem_of_In. by eapply list_elem_of_lookup_2. }
  rewrite (bind_Ret _ _ _ _ _ Hrem). apply IH.
  - pose proof (keeps_remove c h Ht) as Ht1. by rewrite Hrem in Ht1.
  - pose proof (detaches_remove [Some (CElement c)] c h (or_introl eq_refl)) as [Hlen _].
    rewrite Hrem in Hlen. apply lookup_lt_is_Some_2. cbn [fst] in Hlen.
    rewrite Hlen. by eapply lookup_lt_Some.
Qed.

(** In a tidy heap [clear] returns on every Element there is. *)
Lemma clear_total this h s :
  tidy h -> h !! this = Some s ->
  exists h1 s1,
    clear this h = (h1, Ret tt) /\ h1 !! this = Some s1
    /\ children s1 = [] /\ static s1 = static s.
Proof.
  intros Ht Hl. unfold clear. rewrite bind_unfold, getShadow_unfold, Hl.
  cbn [fst snd]. rewrite bind_unfold.
  destruct (clearLoop_total (length (children s)) this 0 h Ht) as [h2 Hloop];
    [by eexists|].
  pose proof (detaches_clearLoop (children s) (length (children s)) this 0 h) as Hd.
  rewrite Hloop in Hd |- *. cbn [fst snd] in *. destruct Hd as [Hlen Hd].
  { intros s1 Hs1. assert (s1 = s) as -> by congruence. apply holesOf_refl. }
  destruct (Hd _ _ Hl) as (s2 & Hl2 & _ & Hst & _).
  rewrite (modify_Ret _ _ _ _ Hl2). eexists _, _. split; [done|].
  split; [apply list_lookup_insert_eq; by eapply lookup_lt_Some|]. by split.
Qed.

(** X20: in a heap that a program can reach, an assignment to [innerText]
    of an existing Element has one of four outcomes, whatever children the
    Element had.  [clear] returns first; then the call throws 'Void element'
    on a void Element, otherwise 'Raw text elements should not have contents'
    on a script or style Element, otherwise 'Invalid text data' if the text
    is invalid, each time leaving the heap that [clear] left; otherwise it
    returns, the text is the only child, and [innerText] and [innerHTML] both
    read as the escaped text. *)
Theorem X20_set_innerText_outcome (h : Heap) (this : nat) (s : Shadow)
    (text : js_string) :
  Reachable h -> h !! this = Some s ->
  exists h1,
    clear this h = (h1, Ret tt)
    /\ if void s then set_innerText this text h = (h1, Throw VoidElement)
       else if negb (escapable s)
       then set_innerText this text h = (h1, Throw RawTextNoContents)
       else if negb (validateText text)
       then set_innerText this text h = (h1, Throw InvalidTextData)
       else exists h',
         set_innerText this text h = (h', Ret tt)
         /\ get_children this h' = (h', Ret [CText text])
         /\ get_innerText h' this = Ret (escapeChain text)
         /\ get_innerHTML h' this = Ret (escapeChain text)
         /\ forall o, o <> this -> h' !! o = h1 !! o.
Proof.
  intros Hr Hl.
  destruct (clear_total this h s (Reachable_tidy _ Hr) Hl)
    as (h1 & s1 & Hclear & Hl1 & Hc1 & Hst).
  exists h1. split; [done|]. unfold set_innerText.
  rewrite (bind_Ret _ _ _ _ _ Hclear), append_unfold, Hl1.
  injection Hst as _ _ Hv _ He. rewrite Hv, He.
  destruct (void s); [done|]. destruct (negb (escapable s)); [done|].
  cbn [forEach validateChild]. rewrite bind_unfold.
  destruct (validateText text) eqn:Htext; cbn [negb]; [|done].
  cbn -[get_children get_innerText get_innerHTML modify].
  rewrite (modify_Ret _ _ _ _ Hl1). eexists. split; [reflexivity|].
  assert (Hl' : <[this := with_children (children s1 ++ [Some (CText text)]) s1]> h1
                !! this = Some (with_children [Some (CText text)] s1)).
  { rewrite Hc1. apply list_lookup_insert_eq. by eapply lookup_lt_Some. }
  split; [by rewrite get_children_unfold, Hl'|].
  split; [by eapply get_innerText_one_text|].
  split.
  - unfold get_innerHTML. rewrite Hl'. cbn.
    rewrite (escapeText_valid _ Htext). cbn. by rewrite app_nil_r.
  - intros o Ho. by apply list_lookup_insert_ne.
Qed.

(** X20 at the 'title' of a new document and the text 'a<b'. *)
Lemma X20_set_innerText_outcome_witness :
  exists s h1,
    heap_document !! 4%nat = Some s
    /\ clear 4 heap_document = (h1, Ret tt)
    /\ if void s then set_innerText 4 (js "a<b") heap_document = (h1, Throw VoidElement)
       else if negb (escapable s)
       then set_innerText 4 (js "a<b") heap_document = (h1, Throw RawTextNoContents)
       else if negb (validateText (js "a<b"))
       then set_innerText 4 (js "a<b") heap_document = (h1, Throw InvalidTextData)
       else exists h',
         set_innerText 4 (js "a<b") heap_document = (h', Ret tt)
         /\ get_children 4 h' = (h', Ret [CText (js "a<b")])
         /\ get_innerText h' 4 = Ret (escapeChain (js "a<b"))
         /\ get_innerHTML h' 4 = Ret (escapeChain (js "a<b"))
         /\ forall o, o <> 4%nat -> h' !! o = h1 !! o.
Proof.
  eexists. cut (heap_document !! 4%nat = Some (with_parent (Some 1%nat) (Some 1%nat)
                                           (newShadow (js "title")))); [|reflexivity].
  intros Hl.
  destruct (X20_set_innerText_outcome heap_document 4 _ (js "a<b")
              (reach_step [] OpNewDocument reach_init) Hl) as (h1 & H).
  exists h1. split; [exact Hl|exact H].
Defined.

(** ** What [innerText] returns *)

Lemma escapeChain_no_markup s :
  Forall (fun x => ~ In x [0x3C; 0x3E; 0x27; 0x22]) (escapeChain s).
Proof.
  rewrite escapeChain_flat_map. induction s as [|c s IH]; [constructor|].
  cbn [flat_map]. apply Forall_app. split; [apply escapeUnit_no_markup|done].
Qed.

Lemma concatChildren_no_markup elem cs t :
  (forall c a, elem c = Ret a ->
     Forall (fun x => ~ In x [0x3C; 0x3E; 0x27; 0x22]) a) ->
  concatChildren elem cs = Ret t ->
  Forall (fun x => ~ In x [0x3C; 0x3E; 0x27; 0x22]) t.
Proof.
  intros Helem. revert t. induction cs as [|x cs IH]; intros t; cbn [concatChildren].
  - intros [= <-]. constructor.
  - destruct x as [[c|s]|]; [| |apply IH].
    + destruct (elem c) as [a| | |] eqn:Ha; try done. cbn [obind].
      destruct (concatChildren elem cs) as [b| | |]; try done. cbn [obind].
      intros [= <-]. apply Forall_app. split; [by eapply Helem|by apply IH].
    + destruct (escapeText s) as [a| | |] eqn:Ha; try done. cbn [obind].
      destruct (concatChildren elem cs) as [b| | |]; try done. cbn [obind].
      intros [= <-]. apply escapeText_Ret in Ha as [_ ->].
      apply Forall_app. split; [apply escapeChain_no_markup|by apply IH].
Qed.

Lemma concatChildren_text_only elem elem' cs :
  Forall (fun c => isElementEntry c = false) cs ->
  concatChildren elem cs = concatChildren elem' cs.
Proof.
  induction 1 as [|x cs Hx _ IH]; [done|]. cbn [concatChildren].
  destruct x as [[c|s]|]; [done| |done]. by rewrite IH.
Qed.

(** X21: whatever the heap, the string that [get innerText] returns has no
    '<', '>', apostrophe or double quote: it is escaped text, all the way
    down.  On an Element whose children are all text, [get innerHTML]
    returns the same string. *)
Theorem X21_innerText_is_escaped (h : Heap) (e : nat) (t : js_string) :
  get_innerText h e = Ret t ->
  Forall (fun x => ~ In x [0x3C; 0x3E; 0x27; 0x22]) t
  /\ forall s, h !! e = Some s ->
       Forall (fun c => isElementEntry c = false) (children s) ->
       get_innerHTML h e = Ret t.
Proof.
  intros H. split.
  - unfold get_innerText in H. revert e t H.
    induction (S (length h)) as [|fuel IH]; intros e t; [done|].
    cbn [innerText_fuel]. destruct (h !! e) as [s|]; [|done].
    by apply concatChildren_no_markup.
  - intros s Hl Htext. unfold get_innerHTML. unfold get_innerText in H.
    cbn [innerText_fuel] in H. rewrite Hl in H |- *. rewrite <- H.
    by apply concatChildren_text_only.
Qed.

(** X21 at a 'title' that holds the text 'a<b'. *)
Lemma X21_innerText_is_escaped_witness :
  Forall (fun x => ~ In x [0x3C; 0x3E; 0x27; 0x22]) (escapeChain (js "a<b"))
  /\ forall s, (set_innerText 4 (js "a<b") heap_document).1 !! 4%nat = Some s ->
       Forall (fun c => isElementEntry c = false) (children s) ->
       get_innerHTML (set_innerText 4 (js "a<b") heap_document).1 4
       = Ret (escapeChain (js "a<b")).
Proof.
  apply (X21_innerText_is_escaped (set_innerText 4 (js "a<b") heap_document).1 4).
  reflexivity.
Defined.

(** ** The order in which attributes were set *)

Lemma str_ltb_trans a b c :
  str_ltb a b = true -> str_ltb b c = true -> str_ltb a c = true.
Proof.
  revert b c. induction a as [|x a IH]; intros [|y b] [|z c]; cbn; try done.
  rewrite !orb_true_iff, !andb_true_iff, !Z.ltb_lt, !Z.eqb_eq.
  intros [Hxy|[-> Hab]] [Hyz|[-> Hbc]]; eauto; left; lia.
Qed.

(** Two strictly ascending lists with the same elements are the same. *)
Lemma sorted_unique l1 l2 :
  Sorted (fun a b => str_ltb a b = true) l1 ->
  Sorted (fun a b => str_ltb a b = true) l2 ->
  Permutation l1 l2 -> l1 = l2.
Proof.
  intros H1 H2.
  assert (Htr : Relations_1.Transitive (fun a b => str_ltb a b = true)).
  { intros a b c. apply str_ltb_trans. }
  apply (Sorted_StronglySorted Htr) in H1, H2. clear Htr.
  revert l2 H2. induction H1 as [|a l1 H1 IH Ha]; intros l2 H2 Hp.
  - by apply Permutation_nil in Hp.
  - destruct H2 as [|b l2 H2 Hb].
    { apply Permutation_sym, Permutation_nil in Hp. done. }
    assert (a = b) as <-.
    { destruct (decide (a = b)) as [|Hne]; [done|]. exfalso.
      assert (Hin1 : In a l2).
      { destruct (Permutation_in a Hp (or_introl eq_refl)) as [|]; [congruence|done]. }
      assert (Hin2 : In b l1).
      { destruct (Permutation_in b (Permutation_sym Hp) (or_introl eq_refl));
          [congruence|done]. }
      rewrite List.Forall_forall in Ha, Hb.
      pose proof (str_ltb_asym _ _ (Ha _ Hin2)). pose proof (Hb _ Hin1).
      congruence. }
    f_equal. apply IH; [done|]. by eapply Permutation_cons_inv.
Qed.

Lemma sortKeys_unique l1 l2 :
  NoDup l1 -> Permutation l1 l2 -> sortKeys l1 = sortKeys l2.
Proof.
  intros Hnd Hp. apply sorted_unique.
  - apply Sorted_strict; [|apply sortKeys_Sorted].
    by rewrite (sortKeys_Permutation l1).
  - apply Sorted_strict; [|apply sortKeys_Sorted].
    by rewrite (sortKeys_Permutation l2), <- Hp.
  - by rewrite !sortKeys_Permutation.
Qed.

Lemma serializeAttributes_ext o1 o2 keys :
  (forall k, getProperty k o1 = getProperty k o2) ->
  serializeAttributes o1 keys = serializeAttributes o2 keys.
Proof.
  intros H. induction keys as [|k keys IH]; [done|].
  cbn [serializeAttributes]. by rewrite H, IH.
Qed.

Lemma concatChildren_ext elem elem' cs :
  (forall c, elem c = elem' c) -> concatChildren elem cs = concatChildren elem' cs.
Proof.
  intros H. induction cs as [|[[c|s]|] cs IH]; cbn [concatChildren]; [done| | |done].
  - by rewrite H, IH.
  - by rewrite IH.
Qed.

(** Serialization does not see the order of the attributes. *)
Lemma outerHTML_fuel_sameElement h1 h2 :
  Forall2 sameElement h1 h2 ->
  forall fuel e, outerHTML_fuel fuel h1 e = outerHTML_fuel fuel h2 e.
Proof.
  intros Hsame. induction fuel as [|fuel IH]; intros e; [done|].
  rewrite !outerHTML_fuel_unfold.
  destruct (h1 !! e) as [s1|] eqn:Hl1.
  - destruct (Forall2_lookup_l _ _ _ _ _ Hsame Hl1)
      as (s2 & -> & Hget & Hperm & Hnd & -> & -> & ->).
    rewrite (sortKeys_unique _ _ Hnd Hperm).
    rewrite (serializeAttributes_ext _ _ _ Hget).
    by rewrite (concatChildren_ext _ _ _ IH).
  - destruct (h2 !! e) as [s2|] eqn:Hl2; [|done].
    destruct (Forall2_lookup_r _ _ _ _ _ Hsame Hl2) as (s1 & Hl1' & _). congruence.
Qed.

Lemma sameElement_refl s : NoDup (ownKeys (attributes s)) -> sameElement s s.
Proof. intros H. by repeat split. Qed.

Lemma setProperty_swap_keys a v b w o :
  a <> b ->
  Permutation (ownKeys (setProperty b w (setProperty a v o)))
              (ownKeys (setProperty a v (setProperty b w o))).
Proof.
  intros Hne. unfold ownKeys. induction o as [|[k x] o IH]; cbn [setProperty].
  - destruct (str_eqb a b) eqn:E1; [by apply str_eqb_eq in E1|].
    destruct (str_eqb b a) eqn:E2; [by apply str_eqb_eq in E2|].
    cbn. apply perm_swap.
  - destruct (str_eqb k a) eqn:Ea, (str_eqb k b) eqn:Eb; cbn [setProperty].
    + apply str_eqb_eq in Ea, Eb. congruence.
    + apply str_eqb_eq in Ea as ->.
      destruct (str_eqb a b) eqn:E1; [by apply str_eqb_eq in E1|].
      by rewrite str_eqb_refl.
    + apply str_eqb_eq in Eb as ->.
      destruct (str_eqb b a) eqn:E2; [by apply str_eqb_eq in E2|].
      by rewrite str_eqb_refl.
    + rewrite Ea, Eb. cbn. by apply perm_skip.
Qed.

(** X22: the order in which two different attributes are set does not show.
    For an existing Element of a reachable heap, valid names [a] and [b]
    that differ and valid values, setting [a] then [b] and setting [b] then
    [a] both return, and in the two heaps every Element has the same
    [outerHTML] and the same [innerHTML], and [getAttribute] gives the same
    for every name. *)
Theorem X22_attribute_order (h : Heap) (e : nat) (s : Shadow)
    (a v b w : js_string) :
  Reachable h -> h !! e = Some s -> a <> b ->
  validateToken a = true -> validateText v = true ->
  validateToken b = true -> validateText w = true ->
  exists h1 h2,
    (setAttribute e a v >> setAttribute e b w) h = (h1, Ret tt)
    /\ (setAttribute e b w >> setAttribute e a v) h = (h2, Ret tt)
    /\ (forall x, get_outerHTML h1 x = get_outerHTML h2 x)
    /\ (forall x, get_innerHTML h1 x = get_innerHTML h2 x)
    /\ forall k, (getAttribute e k h1).2 = (getAttribute e k h2).2.
Proof.
  intros Hr Hl Hne Ha Hv Hb Hw.
  pose proof (Reachable_wf _ Hr) as Hwf. rewrite Forall_lookup in Hwf.
  pose proof (lookup_lt_Some _ _ _ Hl) as Hlt.
  assert (Hset : forall k x h0 s0, h0 !! e = Some s0 ->
            validateToken k = true -> validateText x = true ->
            setAttribute e k x h0
            = (<[e := with_attributes (setProperty k x (attributes s0)) s0]> h0, Ret tt)).
  { intros k x h0 s0 Hl0 Hk Hx. unfold setAttribute.
    rewrite bind_unfold, getShadow_unfold, Hl0. cbn [fst snd]. rewrite Hk, Hx.
    cbn [negb]. unfold modify. by rewrite Hl0. }
  eexists _, _.
  split.
  { erewrite bind_Ret; [|by apply Hset]. apply Hset; [|done..].
    by apply list_lookup_insert_eq. }
  split.
  { erewrite bind_Ret; [|by apply Hset]. apply Hset; [|done..].
    by apply list_lookup_insert_eq. }
  rewrite !list_insert_insert_eq. cbn [attributes with_attributes].
  set (s1 := with_attributes (setProperty b w (setProperty a v (attributes s))) _).
  set (s2 := with_attributes (setProperty a v (setProperty b w (attributes s))) _).
  assert (Hget : forall k, getProperty k (attributes s1) = getProperty k (attributes s2)).
  { intros k. cbn [s1 s2 attributes with_attributes].
    destruct (decide (k = a)) as [->|Hka].
    - rewrite getProperty_setProperty_ne by done.
      by rewrite !getProperty_setProperty_eq.
    - destruct (decide (k = b)) as [->|Hkb].
      + rewrite getProperty_setProperty_eq.
        by rewrite getProperty_setProperty_ne, getProperty_setProperty_eq.
      + by rewrite !getProperty_setProperty_ne. }
  assert (Hsame : Forall2 sameElement (<[e := s1]> h) (<[e := s2]> h)).
  { apply Forall2_same_length_lookup. split; [by rewrite !length_insert|].
    intros i x y Hx Hy. destruct (decide (i = e)) as [->|Hie].
    - rewrite list_lookup_insert_eq in Hx, Hy by done.
      injection Hx as <-. injection Hy as <-.
      destruct (Hwf _ _ Hl) as [_ _ _ _ _ _ _ Hnd _].
      split; [done|]. split; [by apply setProperty_swap_keys|].
      split; [by do 2 apply setProperty_NoDup|done].
    - rewrite list_lookup_insert_ne in Hx, Hy by done.
      assert (y = x) as -> by congruence. apply sameElement_refl.
      by destruct (Hwf _ _ Hx). }
  split; [intros x; unfold get_outerHTML; rewrite !length_insert;
          by apply outerHTML_fuel_sameElement|].
  split.
  - intros x. unfold get_innerHTML. rewrite !length_insert.
    destruct (<[e:=s1]> h !! x) as [sx|] eqn:Hx.
    + destruct (Forall2_lookup_l _ _ _ _ _ Hsame Hx) as (sy & -> & _ & _ & _ & -> & _).
      apply concatChildren_ext. by apply outerHTML_fuel_sameElement.
    + destruct (<[e:=s2]> h !! x) as [sy|] eqn:Hy; [|done].
      destruct (Forall2_lookup_r _ _ _ _ _ Hsame Hy) as (sx & Hx' & _). congruence.
  - intros k. unfold getAttribute. rewrite !bind_unfold, !getShadow_unfold.
    rewrite !list_lookup_insert_eq by done. cbn [fst snd ret]. by rewrite Hget.
Qed.

(** X22 at the 'div' of [heap_two_apart] and the attributes 'id' and
    'class'. *)
Lemma X22_attribute_order_witness :
  exists h1 h2,
    (setAttribute 0 (js "id") (js "x") >> setAttribute 0 (js "class") (js "y"))
      heap_two_apart = (h1, Ret tt)
    /\ (setAttribute 0 (js "class") (js "y") >> setAttribute 0 (js "id") (js "x"))
         heap_two_apart = (h2, Ret tt)
    /\ (forall x, get_outerHTML h1 x = get_outerHTML h2 x)
    /\ (forall x, get_innerHTML h1 x = get_innerHTML h2 x)
    /\ forall k, (getAttribute 0 k h1).2 = (getAttribute 0 k h2).2.
Proof.
  apply (X22_attribute_order heap_two_apart 0 (newShadow (js "div"))
           (js "id") (js "x") (js "class") (js "y")); try reflexivity.
  - exact (reach_step _ (OpNewElement (js "span"))
             (reach_step _ (OpNewElement (js "div")) reach_init)).
  - by vm_compute.
Defined.

(** ** The title in the markup of a Document *)

Lemma outerHTML_titled (h0 l : Heap) (s : js_string) fuel t :
  l !! 4%nat = Some (with_children [Some (CText s)] t) ->
  attributes t = [] -> void t = false -> realName t = js "title" ->
  validateText s = true ->
  outerHTML_fuel (S fuel) (h0 ++ l) (length h0 + 4)
  = Ret (js "<title>" ++ escapeChain s ++ js "</title>").
Proof.
  intros Hl Ha Hv Hn Hs. rewrite outerHTML_fuel_unfold, lookup_suffix, Hl.
  cbn [attributes with_children void realName children]. rewrite Ha, Hv, Hn.
  cbn [ownKeys map sortKeys foldr serializeAttributes obind concatChildren].
  rewrite (escapeText_valid _ Hs). cbn [obind]. by rewrite app_nil_r.
Qed.

(** X23: the title shows in the markup of a Document in its escaped form.
    For a Document made by [new Document ()], whatever is alive already, and
    every valid text [s]: assigning [s] to the title returns, and
    [toString ()] is then the markup of the new Document with the escaped
    [s] between the tags of 'title'; no '<', '>' or quote of [s] gets into
    the markup as such. *)
Theorem X23_title_in_markup (h0 : Heap) (s : js_string) :
  validateText s = true ->
  exists h1 d h2,
    Document.new h0 = (h1, Ret d)
    /\ Document.set_title d s h1 = (h2, Ret tt)
    /\ Document.toString d h2
       = Ret (js "<!DOCTYPE" ++ TAB ++ js "html>"
              ++ js "<html" ++ TAB ++ js "xmlns='http://www.w3.org/1999/xhtml'"
              ++ TAB ++ js "xmlns:xlink='http://www.w3.org/1999/xlink'>"
              ++ js "<head>" ++ js "<meta" ++ TAB ++ js "charset='UTF-8'/>"
              ++ js "<title>" ++ escapeChain s ++ js "</title>" ++ js "</head>"
              ++ js "<body></body>" ++ js "</html>")
    /\ Forall (fun c => ~ In c [0x3C; 0x3E; 0x27; 0x22]) (escapeChain s).
Proof.
  intros Hs. set (n := length h0).
  set (t := with_parent (Some (n + 1)%nat) (Some 1%nat) (newShadow (js "title"))).
  set (l := <[4%nat := with_children [Some (CText s)] t]> (documentShadows n)).
  exists (h0 ++ documentShadows n), (Document.mk n (n + 1) (n + 2) (n + 3) (n + 4)),
    (h0 ++ l).
  split; [apply Document_new_eval|]. split.
  { unfold Document.set_title. cbn [Document.title].
    rewrite (set_innerText_text_only (n + 4) s _ t); try done.
    - f_equal. unfold l, n. by rewrite insert_app_r.
    - unfold n. by rewrite lookup_suffix. }
  split; [|apply escapeChain_no_markup].
  unfold Document.toString, get_outerHTML. cbn [Document.html].
  assert (Hlen : length (h0 ++ l) = S (S (S (n + 2)))).
  { rewrite length_app. unfold l. rewrite length_insert. cbn. unfold n. lia. }
  rewrite Hlen.
  assert (Hmeta : forall fuel,
            outerHTML_fuel (S fuel) (h0 ++ l) (n + 3)
            = Ret (js "<meta" ++ TAB ++ js "charset='UTF-8'/>")).
  { intros fuel. unfold n. rewrite outerHTML_fuel_unfold, lookup_suffix.
    change (l !! 3%nat) with
      (Some (with_parent (Some (n + 1)%nat) (Some 0%nat)
        (with_attributes [(js "charset", js "UTF-8")] (newShadow (js "meta"))))).
    cbn -[outerHTML_fuel]. reflexivity. }
  assert (Htitle : forall fuel,
            outerHTML_fuel (S fuel) (h0 ++ l) (n + 4)
            = Ret (js "<title>" ++ escapeChain s ++ js "</title>")).
  { intros fuel. by apply (outerHTML_titled h0 l s fuel t). }
  assert (Hbody : forall fuel,
            outerHTML_fuel (S fuel) (h0 ++ l) (n + 2) = Ret (js "<body></body>")).
  { intros fuel. unfold n. rewrite outerHTML_fuel_unfold, lookup_suffix.
    change (l !! 2%nat) with
      (Some (with_parent (Some n) (Some 1%nat) (newShadow (js "body")))).
    cbn -[outerHTML_fuel]. reflexivity. }
  assert (Hhead : forall fuel,
            outerHTML_fuel (S (S fuel)) (h0 ++ l) (n + 1)
            = Ret (js "<head>" ++ js "<meta" ++ TAB ++ js "charset='UTF-8'/>"
                   ++ js "<title>" ++ escapeChain s ++ js "</title>"
                   ++ js "</head>")).
  { intros fuel. unfold n. rewrite outerHTML_fuel_unfold, lookup_suffix.
    change (l !! 1%nat) with
      (Some (with_parent (Some n) (Some 0%nat)
               (with_children [Some (CElement (n + 3)); Some (CElement (n + 4))]
                  (newShadow (js "head"))))).
    cbn -[outerHTML_fuel]. fold n. rewrite Hmeta, Htitle.
    cbn [obind]. f_equal. cbn [app]. by rewrite <- !app_assoc. }
  rewrite outerHTML_fuel_unfold.
  change ((h0 ++ l) !! n) with ((h0 ++ l) !! length h0). rewrite lookup_suffix_0.
  change (l !! 0%nat) with
    (Some (with_children [Some (CElement (n + 1)); Some (CElement (n + 2))]
             (with_attributes [(js "xmlns", Document.XHTML_NS);
                               (js "xmlns:xlink", Document.XLINK_NS)]
                (newShadow (js "html"))))).
  cbn -[outerHTML_fuel]. rewrite Hhead, Hbody. cbn [obind]. f_equal.
  cbn [app]. by rewrite <- !app_assoc.
Qed.

(** X23 at the title 'a<b'. *)
Lemma X23_title_in_markup_witness :
  exists h1 d h2,
    Document.new [] = (h1, Ret d)
    /\ Document.set_title d (js "a<b") h1 = (h2, Ret tt)
    /\ Document.toString d h2
       = Ret (js "<!DOCTYPE" ++ TAB ++ js "html>"
              ++ js "<html" ++ TAB ++ js "xmlns='http://www.w3.org/1999/xhtml'"
              ++ TAB ++ js "xmlns:xlink='http://www.w3.org/1999/xlink'>"
              ++ js "<head>" ++ js "<meta" ++ TAB ++ js "charset='UTF-8'/>"
              ++ js "<title>" ++ escapeChain (js "a<b") ++ js "</title>"
              ++ js "</head>" ++ js "<body></body>" ++ js "</html>")
    /\ Forall (fun c => ~ In c [0x3C; 0x3E; 0x27; 0x22]) (escapeChain (js "a<b")).
Proof. apply (X23_title_in_markup [] (js "a<b")). reflexivity. Defined.

(** ** The constructor of [Element] *)

(** X24: [new Element (tagName)] throws 'Unsafe tag name', and nothing is
    created, exactly when [validateToken] rejects the name.  Otherwise the
    result is a new object, none of those alive, which are left as they are;
    it has no parent, no children and no attributes; [tagName] is the name in
    upper case; and its [outerHTML] is the name as it was given, not
    lower-cased, in a self-closing tag if the lower-cased name is one of the
    void elements, in an opening and a closing tag otherwise. *)
Theorem X24_new_Element (tagName : js_string) (h : Heap) :
  (validateToken tagName = false ->
   newElement tagName h = (h, Throw UnsafeTagName))
  /\ (validateToken tagName = true ->
      exists h' e,
        newElement tagName h = (h', Ret e)
        /\ h !! e = None
        /\ length h' = S (length h)
        /\ (forall o s, h !! o = Some s -> h' !! o = Some s)
        /\ get_parentElement e h' = (h', Ret None)
        /\ get_children e h' = (h', Ret [])
        /\ (forall k, getAttribute e k h' = (h', Ret None)
                      /\ hasAttribute e k h' = (h', Ret false))
        /\ get_tagName e h' = (h', Ret (toUpperCase tagName))
        /\ get_innerHTML h' e = Ret []
        /\ get_outerHTML h' e
           = Ret (if includes VOID_ELEMENTS (toLowerCase tagName)
                  then js "<" ++ tagName ++ js "/>"
                  else js "<" ++ tagName ++ js "></" ++ tagName ++ js ">")).
Proof.
  unfold newElement. split; intros Hv; rewrite Hv; cbn [negb]; [done|].
  eexists _, _. split; [reflexivity|].
  assert (Hl : (h ++ [newShadow tagName]) !! length h = Some (newShadow tagName))
    by apply list_lookup_middle, eq_refl.
  split; [by apply lookup_ge_None_2|].
  split; [rewrite length_app; cbn; lia|].
  split; [intros o s Ho; by apply lookup_app_l_Some|].
  split; [by rewrite get_parentElement_unfold, Hl|].
  split; [by rewrite get_children_unfold, Hl|].
  split.
  { intros k. by rewrite getAttribute_unfold, hasAttribute_unfold, Hl. }
  split.
  { unfold get_tagName. by rewrite bind_unfold, getShadow_unfold, Hl. }
  split; [by unfold get_innerHTML; rewrite Hl|].
  unfold get_outerHTML. rewrite outerHTML_fuel_unfold, Hl.
  cbn [attributes children void realName newShadow ownKeys map sortKeys foldr
       serializeAttributes obind concatChildren].
  destruct (includes VOID_ELEMENTS (toLowerCase tagName)); [done|].
  done.
Qed.

(** X24 at [new Element ('BR')]: a void element, printed in upper case. *)
Lemma X24_new_Element_witness :
  exists h' e,
    newElement (js "BR") [] = (h', Ret e)
    /\ [] !! e = (None : option Shadow)
    /\ length h' = 1%nat
    /\ (forall o s, ([] : Heap) !! o = Some s -> h' !! o = Some s)
    /\ get_parentElement e h' = (h', Ret None)
    /\ get_children e h' = (h', Ret [])
    /\ (forall k, getAttribute e k h' = (h', Ret None)
                  /\ hasAttribute e k h' = (h', Ret false))
    /\ get_tagName e h' = (h', Ret (toUpperCase (js "BR")))
    /\ get_innerHTML h' e = Ret []
    /\ get_outerHTML h' e
       = Ret (if includes VOID_ELEMENTS (toLowerCase (js "BR"))
              then js "<" ++ js "BR" ++ js "/>"
              else js "<" ++ js "BR" ++ js "></" ++ js "BR" ++ js ">").
Proof. apply (proj2 (X24_new_Element (js "BR") [])). reflexivity. Defined.

(** ** What the errors of [append] say *)

Lemma forEach_Throw_inv {A} (f : A -> M unit) l h e :
  (forall x, readOnly (f x)) ->
  (forEach f l h).2 = Throw e -> exists x, In x l /\ (f x h).2 = Throw e.
Proof.
  intros Hro. induction l as [|x l IH]; cbn [forEach]; [done|].
  rewrite bind_unfold. pose proof (Hro x h) as Hx.
  destruct (f x h) as [h1 [[]| | |]] eqn:E; cbn [fst snd] in *; subst; try done.
  - intros H. destruct (IH H) as (y & Hy & Hf). exists y. split; [by right|done].
  - intros [= ->]. exists x. split; [by left|by rewrite E].
Qed.

(** The loop of [append] throws only when it has met the child on the chain
    of parents. *)
Lemma walkSteps_found h child c k o :
  walkSteps h child c k o -> o = Throw CyclicReference ->
  is_Some (h !! child) -> onAncestorChain h child c.
Proof.
  induction 1 as [c ->|c Hne Hl|c s Hne Hl Hp|c s p k o Hne Hl Hp _ IH];
    intros Ho [cs Hcs]; try done.
  - by eapply chain_self.
  - eapply chain_up; [done..|]. apply IH; [done|by eexists].
Qed.

(** X25: the errors of [append] mean what they say.  When [append] throws
    on an existing Element: 'Void element' only on a void Element; 'Raw text
    elements should not have contents' only on a script or style Element;
    'Invalid text data' only if some argument that is no Element is invalid
    text; 'Already a child' only if some Element argument has a parent; 'Raw
    text elements cannot have element children' only if the receiver is a
    textarea or title and some argument is an Element; 'Cyclic reference'
    only if some parentless Element argument is the receiver or one of its
    ancestors.  It throws nothing else. *)
Theorem X25_append_errors (this : nat) (args : list Arg) (h h' : Heap)
    (s : Shadow) (e : TypeError) :
  append this args h = (h', Throw e) -> h !! this = Some s ->
  match e with
  | VoidElement => void s = true
  | RawTextNoContents => void s = false /\ escapable s = false
  | InvalidTextData =>
      void s = false /\ escapable s = true
      /\ exists t, In (AText t) args /\ validateText t = false
  | AlreadyAChild =>
      void s = false /\ escapable s = true
      /\ exists c cs p, In (AElement c) args /\ h !! c = Some cs
                        /\ parent cs = Some p
  | RawTextNoElementChildren =>
      void s = false /\ escapable s = true /\ raw s = true
      /\ exists c, In (AElement c) args
  | CyclicReference =>
      void s = false /\ escapable s = true /\ raw s = false
      /\ exists c cs, In (AElement c) args /\ h !! c = Some cs
                      /\ parent cs = None /\ onAncestorChain h c this
  | UnsafeTagName | UnsafeAttributeName | UnsafeAttributeValue => False
  end.
Proof.
  intros H Hl. rewrite append_unfold, Hl in H.
  destruct (void s) eqn:Hv; [by injection H as _ <-|].
  destruct (escapable s) eqn:He; cbn [negb] in H; [|by injection H as _ <-].
  destruct (forEach (validateChild this) args h).2 as [[]|err| |] eqn:Hval;
    try done.
  - exfalso. apply forEach_validateChild_Ret in Hval as [_ Hval].
    destruct (mapM_attachChild_total this args h) as (h2 & tmp & Hm); [done| |].
    { intros c Hc. destruct (Hval c Hc) as (_ & (cs & -> & _) & _). done. }
    rewrite (bind_Ret _ _ _ _ _ Hm) in H.
    destruct (mapM_attachChild_frame _ _ _ _ _ _ _ Hm Hl) as (s2 & Hl2 & _).
    by rewrite (modify_Ret _ _ _ _ Hl2) in H.
  - injection H as _ <-.
    apply forEach_Throw_inv in Hval as (a & Ha & Hthrow);
      [|apply readOnly_validateChild].
    destruct a as [c|t].
    + rewrite validateChild_element_unfold, Hl in Hthrow.
      destruct (h !! c) as [cs|] eqn:Hc; [|done].
      destruct (parent cs) as [p|] eqn:Hp.
      { injection Hthrow as <-. split; [done|]. split; [done|]. by exists c, cs, p. }
      destruct (raw s) eqn:Hr.
      { injection Hthrow as <-. do 3 (split; [done|]). by exists c. }
      destruct (ancestorWalk_steps _ _ _ _ _ Hthrow) as (k & _ & Hw); [done|].
      assert (err = CyclicReference) as ->.
      { destruct (throwsOnly_ancestorWalk [CyclicReference] (S (length h)) this c
                    (or_introl eq_refl) h err Hthrow) as [|[]]. done. }
      do 3 (split; [done|]). exists c, cs. do 3 (split; [done|]).
      by eapply walkSteps_found.
    + cbn in Hthrow. destruct (validateText t) eqn:Ht; [done|].
      injection Hthrow as <-. split; [done|]. split; [done|]. by exists t.
Qed.

(** X25 at [p.append (p)]: 'Cyclic reference', the receiver being the
    argument. *)
Lemma X25_append_errors_witness :
  void (newShadow (js "div")) = false /\ escapable (newShadow (js "div")) = true
  /\ raw (newShadow (js "div")) = false
  /\ exists c cs, In (AElement c) [AElement 0] /\ heap_two_apart !! c = Some cs
                  /\ parent cs = None /\ onAncestorChain heap_two_apart c 0.
Proof.
  apply (X25_append_errors 0 [AElement 0] heap_two_apart heap_two_apart
           (newShadow (js "div")) CyclicReference); reflexivity.
Defined.
